(** * blacksheepwall: the task pool, the result gatherer and the result order

    A shallow embedding of [bsw.Result]/[bsw.Results] (package [bsw]) and of
    the concurrent core of [main] (package [main], blacksheepwall.go): the
    pool of goroutines that run tasks, the goroutine that ingests their
    results into [resMap], the shutdown handshake over [tracker], and the
    final sort of the materialised slice; then of the list of addresses
    that [main] works on ([linesToIPList], [increaseIP]) and of
    [output]. *)

From Stdlib Require Import ZArith Lia Ascii String.
From stdpp Require Import gmap strings list sorting.

Local Open Scope Z_scope.
#[local] Set Warnings "-clear-no-such-hyp".

(* ===================================================================== *)
(** * Part I: definitions *)
(* ===================================================================== *)

(** ** Standard-library interfaces used by the code *)

(** The four bytes of [net.IP.To4()], most significant first. *)
Record IPv4 := mkIPv4 { b0 : Byte.byte; b1 : Byte.byte; b2 : Byte.byte; b3 : Byte.byte }.

(** [net.ParseIP(s).To4()]: the 4-byte form of the address written in [s],
    or [None] where Go returns a nil slice.  The parser itself belongs to
    Go's standard library; the development is parametric in it. *)
Class Net := { ParseIP_To4 : string → option IPv4 }.

Definition byte_to_Z (b : Byte.byte) : Z := Z.of_N (Byte.to_N b).

(** [binary.BigEndian.Uint32]:
    [uint32(b[3]) | uint32(b[2])<<8 | uint32(b[1])<<16 | uint32(b[0])<<24]. *)
Definition BigEndian_Uint32 (a : IPv4) : Z :=
  Z.lor (Z.lor (Z.lor (byte_to_Z (b3 a))
                      (Z.shiftl (byte_to_Z (b2 a)) 8))
               (Z.shiftl (byte_to_Z (b1 a)) 16))
        (Z.shiftl (byte_to_Z (b0 a)) 24).

(** ** Package bsw: results *)

Module bsw.

(** [type Result struct { Source, IP, Hostname string }] *)
Record Result := mkResult { Source : string; IP : string; Hostname : string }.

#[global] Instance Result_eq_dec : EqDecision Result.
Proof. solve_decision. Defined.

#[global] Instance Result_countable : Countable Result.
Proof.
  refine (inj_countable' (λ r, (Source r, IP r, Hostname r))
                         (λ t, mkResult t.1.1 t.1.2 t.2) _).
  by intros [].
Defined.

(** [type Results []Result] *)
Abbreviation Results := (list Result).

Definition Len (r : Results) : nat := length r.

(** [r[i], r[j] = r[j], r[i]]; [None] is the index-out-of-range panic. *)
Definition Swap (r : Results) (i j : nat) : option Results :=
  ri ← r !! i; rj ← r !! j; Some (<[j:=ri]> (<[i:=rj]> r)).

Section less.
Context `{!Net}.

(** The body of [Less] on the two entries it reads. *)
Definition less_entries (ri rj : Result) : bool :=
  let first := ParseIP_To4 (IP ri) in
  let second := ParseIP_To4 (IP rj) in
  match first with
  | None => true
  | Some f =>
      match second with
      | None => false
      | Some s => BigEndian_Uint32 f <? BigEndian_Uint32 s
      end
  end.

(** [func (r Results) Less(i, j int) bool]; [None] is the
    index-out-of-range panic of [r[i]] or [r[j]]. *)
Definition Less (r : Results) (i j : nat) : option bool :=
  ri ← r !! i; rj ← r !! j; Some (less_entries ri rj).
End less.

End bsw.

Export bsw.

(** ** Package sort (standard library): [sort.Sort]

    [sort.Sort] reaches the data only through [Len], [Less] and [Swap].
    The model follows the library's pattern-defeating quicksort (Go 1.19
    and later) function by function.  The indices, which the library
    holds in [int] and never lets go below zero where it uses them, are
    natural numbers; a loop or a recursion whose number of turns is not
    a structural argument takes a [fuel] and yields [None] should it run
    out, as [Less] and [Swap] do out of range. *)
Module sort.
#[local] Open Scope nat_scope.

(** [type sortedHint int] *)
Inductive sortedHint := unknownHint | increasingHint | decreasingHint.

#[global] Instance sortedHint_eq_dec : EqDecision sortedHint.
Proof. solve_decision. Defined.

(** [bits.Len(uint(n))]: the number of bits of [n]. *)
Definition bits_Len (n : nat) : nat :=
  match n with
  | O => 0
  | _ => S (Nat.log2 n)
  end.

(** [func (r *xorshift) Next() uint64]: the new state, which is also the
    value returned.  [breakPatterns] reduces it to an index of its range,
    whatever it is. *)
Definition xorshift_Next (r : Z) : Z :=
  let r := Z.lxor r (Z.shiftl r 13 mod 2 ^ 64) in
  let r := Z.lxor r (Z.shiftr r 7) in
  let r := Z.lxor r (Z.shiftl r 17 mod 2 ^ 64) in
  r.

(** [func nextPowerOfTwo(length int) uint] *)
Definition nextPowerOfTwo (length : nat) : Z :=
  Z.shiftl 1 (Z.of_nat (bits_Len length)).

Section sort.
Context `{!Net}.

(** The inner loop of [insertionSort], started at [j]:
    [for ; j > a && data.Less(j, j-1); j-- { data.Swap(j, j-1) }]. *)
Fixpoint insertion_inner (data : Results) (a j : nat) : option Results :=
  match j with
  | O => Some data
  | S j' =>
      if decide (a < j) then
        lt ← Less data j j';
        if lt : bool then data' ← Swap data j j'; insertion_inner data' a j'
        else Some data
      else Some data
  end.

(** The outer loop at [i] with [n] iterations left ([n = b - i]). *)
Fixpoint insertion_outer (data : Results) (a i n : nat) : option Results :=
  match n with
  | O => Some data
  | S n' => data' ← insertion_inner data a i; insertion_outer data' a (S i) n'
  end.

(** [func insertionSort(data Interface, a, b int)] *)
Definition insertionSort (data : Results) (a b : nat) : option Results :=
  insertion_outer data a (S a) (b - S a).

(** The loop of [siftDown] at [root]; it runs at most [fuel] times. *)
Fixpoint siftDown_loop (fuel : nat) (data : Results) (root hi first : nat)
  : option Results :=
  match fuel with
  | O => None
  | S fuel =>
      let child := 2 * root + 1 in
      if decide (hi ≤ child) then Some data
      else
        right ← (if decide (child + 1 < hi)
                 then Less data (first + child) (first + child + 1)
                 else Some false);
        let child := if right : bool then child + 1 else child in
        lt ← Less data (first + root) (first + child);
        if lt : bool then
          data' ← Swap data (first + root) (first + child);
          siftDown_loop fuel data' child hi first
        else Some data
  end.

(** [func siftDown(data Interface, lo, hi, first int)] *)
Definition siftDown (data : Results) (lo hi first : nat) : option Results :=
  siftDown_loop (S hi) data lo hi first.

(** [for i := (hi - 1) / 2; i >= 0; i-- { siftDown(data, i, hi, first) }],
    with [i = n - 1] next. *)
Fixpoint heap_build (data : Results) (n hi first : nat) : option Results :=
  match n with
  | O => Some data
  | S i => data' ← siftDown data i hi first; heap_build data' i hi first
  end.

(** [for i := hi - 1; i >= 0; i-- { data.Swap(first, first+i);
    siftDown(data, lo, i, first) }], with [i = n - 1] next. *)
Fixpoint heap_pop (data : Results) (n first : nat) : option Results :=
  match n with
  | O => Some data
  | S i =>
      data' ← Swap data first (first + i);
      data'' ← siftDown data' 0 i first;
      heap_pop data'' i first
  end.

(** [func heapSort(data Interface, a, b int)] *)
Definition heapSort (data : Results) (a b : nat) : option Results :=
  let first := a in
  let hi := b - a in
  data' ← heap_build data ((hi - 1) / 2 + 1) hi first;
  heap_pop data' hi first.

(** [for i <= j && test(i) { i++ }] and [for i <= j && test(j) { j-- }] *)
Fixpoint scan_up (fuel : nat) (test : nat → option bool) (i j : nat) : option nat :=
  match fuel with
  | O => None
  | S fuel =>
      if decide (i ≤ j) then
        t ← test i; if t : bool then scan_up fuel test (i + 1) j else Some i
      else Some i
  end.

Fixpoint scan_down (fuel : nat) (test : nat → option bool) (i j : nat) : option nat :=
  match fuel with
  | O => None
  | S fuel =>
      if decide (i ≤ j) then
        t ← test j; if t : bool then scan_down fuel test i (j - 1) else Some j
      else Some j
  end.

(** The loop shared by [partition] and [partitionEqual]:

      for {
        for i <= j && up(i) { i++ }
        for i <= j && down(j) { j-- }
        if i > j { break }
        data.Swap(i, j); i++; j--
      }

    with the tests [up] and [down] read on the current data. *)
Fixpoint partition_loop (fuel : nat) (up down : Results → nat → option bool)
    (data : Results) (i j : nat) : option (Results * nat * nat) :=
  match fuel with
  | O => None
  | S fuel =>
      i ← scan_up (S (S j - i)) (up data) i j;
      j ← scan_down (S (S j - i)) (down data) i j;
      if decide (j < i) then Some (data, i, j)
      else
        data' ← Swap data i j;
        partition_loop fuel up down data' (i + 1) (j - 1)
  end.

(** [func partition(data Interface, a, b, pivot int)
      (newpivot int, alreadyPartitioned bool)] *)
Definition partition (data : Results) (a b pivot : nat)
  : option (Results * nat * bool) :=
  let up d k := Less d k a in
  let down d k := negb <$> Less d k a in
  data ← Swap data a pivot;
  i ← scan_up (S (b - a)) (up data) (a + 1) (b - 1);
  j ← scan_down (S (b - a)) (down data) i (b - 1);
  if decide (j < i) then
    data ← Swap data j a; Some (data, j, true)
  else
    data ← Swap data i j;
    '(data, _, j) ← partition_loop (S (b - a)) up down data (i + 1) (j - 1);
    data ← Swap data j a;
    Some (data, j, false).

(** [func partitionEqual(data Interface, a, b, pivot int) (newpivot int)] *)
Definition partitionEqual (data : Results) (a b pivot : nat)
  : option (Results * nat) :=
  let up d k := negb <$> Less d a k in
  let down d k := Less d a k in
  data ← Swap data a pivot;
  '(data, i, _) ← partition_loop (S (b - a)) up down data (a + 1) (b - 1);
  Some (data, i).

(** [for i < b && !data.Less(i, i-1) { i++ }] *)
Fixpoint scan_ordered (fuel : nat) (data : Results) (i b : nat) : option nat :=
  match fuel with
  | O => None
  | S fuel =>
      if decide (i < b) then
        lt ← Less data i (i - 1);
        if lt : bool then Some i else scan_ordered fuel data (i + 1) b
      else Some i
  end.

(** [for j := ...; j >= 1; j-- { if !data.Less(j, j-1) { break };
    data.Swap(j, j-1) }] *)
Fixpoint shift_left (data : Results) (j : nat) : option Results :=
  match j with
  | O => Some data
  | S j' =>
      lt ← Less data j j';
      if lt : bool then data' ← Swap data j j'; shift_left data' j'
      else Some data
  end.

(** [for j := ...; j < b; j++ { if !data.Less(j, j-1) { break };
    data.Swap(j, j-1) }] *)
Fixpoint shift_right (fuel : nat) (data : Results) (j b : nat) : option Results :=
  match fuel with
  | O => None
  | S fuel =>
      if decide (j < b) then
        lt ← Less data j (j - 1);
        if lt : bool then data' ← Swap data j (j - 1); shift_right fuel data' (j + 1) b
        else Some data
      else Some data
  end.

(** The loop of [partialInsertionSort] with [steps] rounds left. *)
Fixpoint partial_loop (steps : nat) (data : Results) (i a b : nat)
  : option (Results * bool) :=
  match steps with
  | O => Some (data, false)
  | S steps =>
      i ← scan_ordered (S (b - i)) data i b;
      if decide (i = b) then Some (data, true)
      else if decide (b - a < 50) then Some (data, false)
      else
        data ← Swap data i (i - 1);
        data ← (if decide (2 ≤ i - a) then shift_left data (i - 1) else Some data);
        data ← (if decide (2 ≤ b - i) then shift_right (S (b - i)) data (i + 1) b
                else Some data);
        partial_loop steps data i a b
  end.

(** [func partialInsertionSort(data Interface, a, b int) bool], with
    [maxSteps = 5] and [shortestShifting = 50]. *)
Definition partialInsertionSort (data : Results) (a b : nat) : option (Results * bool) :=
  partial_loop 5 data (a + 1) a b.

(** The three swaps of [breakPatterns], [n] of them left, the next with
    [i = 3 - n]. *)
Fixpoint break_swaps (n : nat) (data : Results) (random modulus : Z)
    (idx a length : nat) : option Results :=
  match n with
  | O => Some data
  | S n' =>
      let random := xorshift_Next random in
      let other := Z.to_nat (Z.land random (modulus - 1)) in
      let other := if decide (length ≤ other) then other - length else other in
      data' ← Swap data (idx - 1 + (3 - n)) (a + other);
      break_swaps n' data' random modulus idx a length
  end.

(** [func breakPatterns(data Interface, a, b int)] *)
Definition breakPatterns (data : Results) (a b : nat) : option Results :=
  let length := b - a in
  if decide (8 ≤ length) then
    let random := Z.of_nat length in
    let modulus := nextPowerOfTwo length in
    let idx := a + (length / 4) * 2 - 1 in
    break_swaps 3 data random modulus idx a length
  else Some data.

(** [func order2(data Interface, a, b int, swaps *int) (int, int)] *)
Definition order2 (data : Results) (a b swaps : nat) : option (nat * nat * nat) :=
  lt ← Less data b a;
  if lt : bool then Some (b, a, S swaps) else Some (a, b, swaps).

(** [func median(data Interface, a, b, c int, swaps *int) int] *)
Definition median (data : Results) (a b c swaps : nat) : option (nat * nat) :=
  '(a, b, swaps) ← order2 data a b swaps;
  '(b, c, swaps) ← order2 data b c swaps;
  '(a, b, swaps) ← order2 data a b swaps;
  Some (b, swaps).

(** [func medianAdjacent(data Interface, a int, swaps *int) int] *)
Definition medianAdjacent (data : Results) (a swaps : nat) : option (nat * nat) :=
  median data (a - 1) a (a + 1) swaps.

(** [func choosePivot(data Interface, a, b int) (pivot int, hint sortedHint)],
    with [shortestNinther = 50] and [maxSwaps = 4 * 3]. *)
Definition choosePivot (data : Results) (a b : nat) : option (nat * sortedHint) :=
  let l := b - a in
  let i := a + l / 4 * 1 in
  let j := a + l / 4 * 2 in
  let k := a + l / 4 * 3 in
  '(j, swaps) ←
    (if decide (8 ≤ l) then
       '(i, j, k, swaps) ←
         (if decide (50 ≤ l) then
            '(i, swaps) ← medianAdjacent data i 0;
            '(j, swaps) ← medianAdjacent data j swaps;
            '(k, swaps) ← medianAdjacent data k swaps;
            Some (i, j, k, swaps)
          else Some (i, j, k, 0));
       median data i j k swaps
     else Some (j, 0));
  Some (j, match swaps with
           | 0 => increasingHint
           | 12 => decreasingHint
           | _ => unknownHint
           end).

(** [for i < j { data.Swap(i, j); i++; j-- }] *)
Fixpoint reverse_loop (fuel : nat) (data : Results) (i j : nat) : option Results :=
  match fuel with
  | O => None
  | S fuel =>
      if decide (i < j) then
        data' ← Swap data i j; reverse_loop fuel data' (i + 1) (j - 1)
      else Some data
  end.

(** [func reverseRange(data Interface, a, b int)] *)
Definition reverseRange (data : Results) (a b : nat) : option Results :=
  reverse_loop (S (b - a)) data a (b - 1).

(** [func pdqsort(data Interface, a, b, limit int)], with
    [maxInsertion = 12].  One unit of [fuel] is spent on every turn of its
    loop and on every call of itself; [wasBalanced] and [wasPartitioned]
    are its two local flags, true when it is called. *)
Fixpoint pdqsort_loop (fuel : nat) (data : Results) (a b limit : nat)
    (wasBalanced wasPartitioned : bool) : option Results :=
  match fuel with
  | O => None
  | S fuel =>
      let length := b - a in
      if decide (length ≤ 12) then insertionSort data a b
      else if decide (limit = 0) then heapSort data a b
      else
        '(data, limit) ←
          (if wasBalanced then Some (data, limit)
           else data' ← breakPatterns data a b; Some (data', limit - 1));
        '(pivot, hint) ← choosePivot data a b;
        '(data, pivot, hint) ←
          (if decide (hint = decreasingHint) then
             data' ← reverseRange data a b;
             Some (data', (b - 1) - (pivot - a), increasingHint)
           else Some (data, pivot, hint));
        '(data, sorted) ←
          (if wasBalanced && wasPartitioned && bool_decide (hint = increasingHint)
           then partialInsertionSort data a b
           else Some (data, false));
        if sorted : bool then Some data
        else
          equal ← (if decide (0 < a) then negb <$> Less data (a - 1) pivot
                   else Some false);
          if equal : bool then
            '(data, mid) ← partitionEqual data a b pivot;
            pdqsort_loop fuel data mid b limit wasBalanced wasPartitioned
          else
            '(data, mid, alreadyPartitioned) ← partition data a b pivot;
            let leftLen := mid - a in
            let rightLen := b - mid in
            let balanceThreshold := length / 8 in
            if decide (leftLen < rightLen) then
              data ← pdqsort_loop fuel data a mid limit true true;
              pdqsort_loop fuel data (mid + 1) b limit
                (bool_decide (balanceThreshold ≤ leftLen)) alreadyPartitioned
            else
              data ← pdqsort_loop fuel data (mid + 1) b limit true true;
              pdqsort_loop fuel data a mid limit
                (bool_decide (balanceThreshold ≤ rightLen)) alreadyPartitioned
  end.

Definition pdqsort (data : Results) (a b limit : nat) : option Results :=
  pdqsort_loop (S (b - a)) data a b limit true true.

(** [func Sort(data Interface)] *)
Definition Sort (data : Results) : option Results :=
  let n := Len data in
  if decide (n ≤ 1) then Some data
  else pdqsort data 0 n (bits_Len n).

End sort.
End sort.

(** ** A dotted-quad reader, the instance of [Net] used in the examples *)

Module dotted.

Definition digit_val (c : ascii) : option Z :=
  let n := Z.of_nat (nat_of_ascii c) in
  if (48 <=? n) && (n <=? 57) then Some (n - 48) else None.

(** Decimal value of a field of one to three digits, at most 255. *)
Fixpoint field_val (acc : Z) (cs : list ascii) : option Z :=
  match cs with
  | [] => Some acc
  | c :: cs' => d ← digit_val c; field_val (acc * 10 + d) cs'
  end.

Definition octet (cs : list ascii) : option Byte.byte :=
  match cs with
  | [] => None
  | _ =>
      if decide (length cs ≤ 3)%nat then
        v ← field_val 0 cs;
        if v <=? 255 then Byte.of_N (Z.to_N v) else None
      else None
  end.

(** Split at every ["."]. *)
Fixpoint fields (cur : list ascii) (cs : list ascii) : list (list ascii) :=
  match cs with
  | [] => [reverse cur]
  | c :: cs' =>
      if decide (c = "."%char) then reverse cur :: fields [] cs'
      else fields (c :: cur) cs'
  end.

Definition parse (s : string) : option IPv4 :=
  match fields [] (list_ascii_of_string s) with
  | [f0; f1; f2; f3] =>
      x0 ← octet f0; x1 ← octet f1; x2 ← octet f2; x3 ← octet f3;
      Some (mkIPv4 x0 x1 x2 x3)
  | _ => None
  end.

Definition net : Net := {| ParseIP_To4 := parse |}.

End dotted.

(** ** Package regexp (standard library): matching by derivatives *)

Module regexp.

(** The items of a bracket expression. *)
Inductive class_item :=
| Range (lo hi : ascii)   (* lo-hi *)
| Digit                   (* \d *)
| Char (c : ascii).       (* a single, possibly escaped, character *)

Inductive regex :=
| Void                              (* matches nothing *)
| Eps                               (* matches the empty text *)
| Lit (c : ascii)                   (* an escaped or plain character *)
| Class (items : list class_item)   (* [...] *)
| Cat (r1 r2 : regex)               (* r1 r2 *)
| Alt (r1 r2 : regex)               (* r1|r2 *)
| Star (r : regex)                  (* r* *)
| Plus (r : regex)                  (* r+ *)
| Quest (r : regex).                (* r? *)

(** A pattern: a body between an optional [^] and an optional [$]
    (without the m flag, [$] is the end of the text). *)
Record pattern := mkPattern { bol : bool; body : regex; eol : bool }.

Definition code (c : ascii) : N := N_of_ascii c.

Definition in_item (c : ascii) (it : class_item) : bool :=
  match it with
  | Range lo hi => (code lo <=? code c)%N && (code c <=? code hi)%N
  | Digit => (code "0" <=? code c)%N && (code c <=? code "9")%N
  | Char d => bool_decide (c = d)
  end.

Definition in_class (items : list class_item) (c : ascii) : bool :=
  existsb (in_item c) items.

Fixpoint nullable (r : regex) : bool :=
  match r with
  | Void | Lit _ | Class _ => false
  | Eps | Star _ | Quest _ => true
  | Cat r1 r2 => nullable r1 && nullable r2
  | Alt r1 r2 => nullable r1 || nullable r2
  | Plus r1 => nullable r1
  end.

Fixpoint deriv (c : ascii) (r : regex) : regex :=
  match r with
  | Void | Eps => Void
  | Lit d => if bool_decide (c = d) then Eps else Void
  | Class items => if in_class items c then Eps else Void
  | Cat r1 r2 =>
      Alt (Cat (deriv c r1) r2) (if nullable r1 then deriv c r2 else Void)
  | Alt r1 r2 => Alt (deriv c r1) (deriv c r2)
  | Star r1 | Plus r1 => Cat (deriv c r1) (Star r1)
  | Quest r1 => deriv c r1
  end.

(** The whole text is in the language of [r]. *)
Fixpoint matches (r : regex) (b : list ascii) : bool :=
  match b with
  | [] => nullable r
  | c :: b' => matches (deriv c r) b'
  end.

(** Some prefix of [b] (all of [b] under [$]) is in the language. *)
Fixpoint match_here (eol : bool) (r : regex) (b : list ascii) : bool :=
  (nullable r && (negb eol || bool_decide (b = [])))
  || match b with
     | [] => false
     | c :: b' => match_here eol (deriv c r) b'
     end.

(** A match that starts at the beginning of [b], or, without [^], at any
    later position. *)
Fixpoint match_from (p : pattern) (b : list ascii) : bool :=
  match_here (eol p) (body p) b
  || (negb (bol p) &&
      match b with
      | [] => false
      | _ :: b' => match_from p b'
      end).

(** [regexp.Match(pattern, b)]: whether [b] contains a match.  The error
    result is that of compiling the pattern text; a pattern given as a
    [pattern] has compiled, so the error is nil ([None]). *)
Definition Match (p : pattern) (b : list ascii) : bool * option string :=
  (match_from p b, None).

End regexp.

(** ** Package main: constants *)

Import regexp.

(** The classes "[a-z\d]" and "[a-z\d\-]". *)
Definition lower_alnum : regex := Class [Range "a" "z"; Digit].
Definition lower_alnum_hyphen : regex := Class [Range "a" "z"; Digit; Char "-"].

(** One label: one or more of the first class, then either any number of
    the first class, or any number of the second class and one of the
    first. *)
Definition domainReg_label : regex :=
  Cat (Plus lower_alnum)
      (Alt (Star lower_alnum) (Cat (Star lower_alnum_hyphen) lower_alnum)).

(** A dot and a label; a label and any number of those. *)
Definition dot_label : regex := Cat (Lit ".") domainReg_label.
Definition dotted_labels : regex := Cat domainReg_label (Star dot_label).

(** [const domainReg], the text of the pattern. *)
Definition domainReg_text : string :=
  "^\.?[a-z\d]+(?:(?:[a-z\d]*" ++ ")|(?:[a-z\d\-]*[a-z\d]))"
  ++ "(?:\.[a-z\d]+(?:(?:[a-z\d]*" ++ ")|(?:[a-z\d\-]*[a-z\d])))*$".

(** [domainReg] as [regexp] compiles it: the groups "(?: )" do not capture
    and only bracket. *)
Definition domainReg : pattern :=
  mkPattern true
    (Cat (Quest (Lit ".")) dotted_labels)
    true.

(** ** The domain-name grammar, as the specification words it

    Lowercase alphanumerics and hyphens, in labels separated by dots, with
    one leading dot permitted; a label has at least one character and
    neither starts nor ends with a hyphen. *)
Module grammar.

Definition is_lower_alnum (c : ascii) : bool :=
  ((code "a" <=? code c)%N && (code c <=? code "z")%N)
  || ((code "0" <=? code c)%N && (code c <=? code "9")%N).

Definition is_hyphen (c : ascii) : bool := bool_decide (c = "-"%char).

Definition label_char (c : ascii) : bool := is_lower_alnum c || is_hyphen c.

Definition label_ok (l : list ascii) : bool :=
  forallb label_char l
  && match l with [] => false | c :: _ => negb (is_hyphen c) end
  && match last l with None => false | Some c => negb (is_hyphen c) end.

(** The labels between the dots of [cs]; [cur] is the label being read,
    last character first. *)
Fixpoint labels (cur : list ascii) (cs : list ascii) : list (list ascii) :=
  match cs with
  | [] => [reverse cur]
  | c :: cs' =>
      if bool_decide (c = "."%char) then reverse cur :: labels [] cs'
      else labels (c :: cur) cs'
  end.

Definition drop_leading_dot (cs : list ascii) : list ascii :=
  match cs with
  | c :: cs' => if bool_decide (c = "."%char) then cs' else cs
  | [] => []
  end.

Definition domain_name (hostname : string) : bool :=
  forallb label_ok (labels [] (drop_leading_dot (list_ascii_of_string hostname))).

End grammar.

(** ** Package main: flags *)

Record Flags := mkFlags {
  flTimeout : Z;          (* flag.Int64("timeout", 600, "") *)
  flConcurrency : Z;      (* flag.Int("concurrency", 100, "") *)
  flDebug : bool;         (* flag.Bool("debug", false, "") *)
  flValidate : bool;      (* flag.Bool("validate", false, "") *)
  flipv6 : bool;          (* flag.Bool("ipv6", false, "") *)
  flServerAddr : string;  (* flag.String("server", "8.8.8.8", "") *)
  flFcrdns : bool         (* flag.Bool("fcrdns", false, "") *)
}.

(** What the command line gives for each flag; [None] where the flag is
    absent.  The defaults are those of the [flag] declarations in [main]. *)
Record CommandLine := mkCommandLine {
  arg_timeout : option Z;
  arg_concurrency : option Z;
  arg_debug : option bool;
  arg_validate : option bool;
  arg_ipv6 : option bool;
  arg_server : option string;
  arg_fcrdns : option bool
}.

Definition flag_Parse (cl : CommandLine) : Flags :=
  {| flTimeout := default 600 (arg_timeout cl);
     flConcurrency := default 100 (arg_concurrency cl);
     flDebug := default false (arg_debug cl);
     flValidate := default false (arg_validate cl);
     flipv6 := default false (arg_ipv6 cl);
     flServerAddr := default "8.8.8.8" (arg_server cl);
     flFcrdns := default false (arg_fcrdns cl) |}.

(** Arithmetic of [int64]. *)
Definition wrap_int64 (z : Z) : Z := (z + 2 ^ 63) mod 2 ^ 64 - 2 ^ 63.

(** [if *flTimeout != 600 { *flTimeout = *flTimeout * 1000 }], the value
    that [bsw.TLS] and [bsw.Headers] then receive as their timeout in
    milliseconds. *)
Definition timeout_for_calls (fl : Flags) : Z :=
  if bool_decide (flTimeout fl ≠ 600) then wrap_int64 (flTimeout fl * 1000)
  else flTimeout fl.

(** ** Package main: tasks and what the program writes *)

(** [type task func() (string, bsw.Results, error)].  A task is a closure
    over a call into package [bsw]; the pool calls it once and looks at
    nothing but the three values it returns, which stand for it here.  An
    error is its message, [nil] is [None]. *)
Record task := mkTask {
  ret_task : string;
  ret_result : Results;
  ret_err : option string
}.

Inductive Output :=
| StderrWrite (s : string)   (* os.Stderr.WriteString(s) *)
| LogPrint (s : string).     (* log.Printf / log.Println, the formatted text *)

Definition cr : string := String "013" EmptyString.
Definition nl : string := String "010" EmptyString.

(** ** Package main: the body of the pool's loop

    One iteration of [for def := range tasks { ... }] for the received
    [def], with the goroutine's local [c]: the new [c], what is written, and
    the slice sent on [res] if one is. *)
Definition run_task (fl : Flags) (c : Z) (def : task) : Z * list Output * option Results :=
  let task := ret_task def in
  let result := ret_result def in
  let err := ret_err def in
  let '(c, progress) :=
    if bool_decide (flDebug fl = false) then
      if bool_decide (Z.rem c 2 = 0) then (3, [StderrWrite (cr ++ "Working \")])
      else (2, [StderrWrite (cr ++ "Working /")])
    else (c, []) in
  let failure :=
    match err with
    | Some e => if flDebug fl then [LogPrint (task ++ ": " ++ e)] else []
    | None => []
    end in
  match err with
  | None =>
      let success :=
        match result with
        | r0 :: _ =>
            if bool_decide (flDebug fl = true) then
              [LogPrint (task ++ ": " ++ Hostname r0 ++ " " ++ IP r0
                         ++ ": task completed successfully" ++ nl)]
            else []
        | [] => []
        end in
      (c, progress ++ failure ++ success, Some result)
  | Some _ => (c, progress ++ failure, None)
  end.

(** ** Package main: the gatherer *)

(** The lookups of package [bsw] that the gatherer calls. *)
Inductive Query :=
| QLookupName (fqdn serverAddr : string)     (* bsw.LookupName *)
| QLookupCname (fqdn serverAddr : string)    (* bsw.LookupCname *)
| QLookupName6 (fqdn serverAddr : string).   (* bsw.LookupName6 *)

(** The name service, as the program sees it: the pair (value, error) that
    a lookup returns, which may depend on every lookup made before it. *)
Class Resolver := { answer : list Query → Query → string * option string }.

(** What the gatherer goroutine owns: [resMap] and the lookups made so far. *)
Record Gathered := mkGathered {
  resMap : gmap Result bool;
  asked : list Query
}.

Definition Gather (A : Type) : Type := Gathered → A * Gathered.

#[global] Instance Gather_ret : MRet Gather := λ A x g, (x, g).
#[global] Instance Gather_bind : MBind Gather :=
  λ A B f m g, let '(x, g') := m g in f x g'.

(** [resMap[r] = true] *)
Definition store (r : Result) : Gather unit :=
  λ g, ((), mkGathered (<[r:=true]> (resMap g)) (asked g)).

Section gatherer.
Context `{!Resolver}.

Definition lookup_call (q : Query) : Gather (string * option string) :=
  λ g, (answer (asked g) q, mkGathered (resMap g) (asked g ++ [q])).

Definition LookupName (fqdn serverAddr : string) := lookup_call (QLookupName fqdn serverAddr).
Definition LookupCname (fqdn serverAddr : string) := lookup_call (QLookupCname fqdn serverAddr).
Definition LookupName6 (fqdn serverAddr : string) := lookup_call (QLookupName6 fqdn serverAddr).

(** [err == nil && len(s) > 0] *)
Definition found (reply : string * option string) : bool :=
  bool_decide (reply.2 = None) && bool_decide (0 < String.length reply.1)%nat.

Definition skip : Gather unit := mret ().

(** The body of [for _, r := range result] under [*flFcrdns]. *)
Definition confirm (fl : Flags) (r : Result) : Gather unit :=
  reply ← LookupName (Hostname r) (flServerAddr fl);
  (if found reply then
     store (mkResult "fcrdns" reply.1 (Hostname r))
   else
     creply ← LookupCname (Hostname r) (flServerAddr fl);
     if found creply then
       reply ← LookupName creply.1 (flServerAddr fl);
       if found reply then store (mkResult "fcrdns" reply.1 (Hostname r))
       else skip
     else skip);;
  reply6 ← LookupName6 (Hostname r) (flServerAddr fl);
  if found reply6 then store (mkResult "fcrdns" reply6.1 (Hostname r))
  else skip.

(** The body of [for _, r := range result] without [*flFcrdns]. *)
Definition accept (fl : Flags) (r : Result) : Gather unit :=
  if flValidate fl then
    let '(ok, err) := regexp.Match domainReg (list_ascii_of_string (Hostname r)) in
    if bool_decide (err ≠ None) || negb ok then skip   (* continue *)
    else store r
  else store r.

Fixpoint for_range (result : Results) (body : Result → Gather unit) : Gather unit :=
  match result with
  | [] => skip
  | r :: rest => body r;; for_range rest body
  end.

(** The body of [for result := range res]. *)
Definition ingest (fl : Flags) (result : Results) : Gather unit :=
  if bool_decide (length result < 1)%nat then skip   (* continue *)
  else if flFcrdns fl then for_range result (confirm fl)
  else for_range result (accept fl).
End gatherer.

(** ** Package main: the goroutines and the channels

    [main] starts [*flConcurrency] pool goroutines and one gatherer, sends
    the tasks, and shuts the pool down over the unbuffered channel
    [tracker].  The program is modelled as a transition system: a state
    holds the program point of every goroutine, the two buffered channels
    and what the gatherer owns; a step is one communication (or one local
    stretch of code between two communications) of one goroutine. *)

(** A buffered channel [make(chan A, cap)]: the queued values, oldest
    first, and whether it has been closed. *)
Record Chan (A : Type) := mkChan { buf : list A; closed : bool }.
Arguments mkChan {A} _ _.
Arguments buf {A} _.
Arguments closed {A} _.

(** Program points of a pool goroutine. *)
Inductive PoolPC :=
| PoolRange                      (* at [for def := range tasks] *)
| PoolSend (result : Results)    (* at [res <- result] *)
| PoolTracker                    (* at [tracker <- empty{}] *)
| PoolExit.                      (* returned *)

#[global] Instance PoolPC_eq_dec : EqDecision PoolPC.
Proof. solve_decision. Defined.

Record PoolState := mkPool { pool_pc : PoolPC; pool_c : Z }.

(** Program points of the gatherer goroutine. *)
Inductive GathererPC :=
| GatherRange                    (* at [for result := range res] *)
| GatherTracker                  (* at [tracker <- empty{}] *)
| GatherExit.                    (* returned *)

(** Program points of [main] from its first send on [tasks]. *)
Inductive MainPC :=
| MainSend (pending : list task)  (* the sends [tasks <- ...] still to do, then [close(tasks)] *)
| MainWaitPool (i : nat)          (* in [for i := 0; i < *flConcurrency; i++ { <-tracker }], then [close(res)] *)
| MainWaitGatherer                (* at the last [<-tracker] *)
| MainCollect                     (* before [for k := range resMap] *)
| MainOutput (results : Results). (* at [output(results, ...)], after [sort.Sort] *)

(** Who sent the value that a [<-tracker] of [main] received. *)
Inductive Sender := FromPool | FromGatherer.

(** What [main] does to shut down, in the order it does it. *)
Inductive Event :=
| CloseTasks                 (* close(tasks) *)
| TrackerRecv (from : Sender) (* <-tracker *)
| CloseRes                   (* close(res) *)
| ReadResMap.                (* for k := range resMap *)

Record State := mkState {
  main_pc : MainPC;
  pool : list PoolState;
  gatherer_pc : GathererPC;
  gathered : Gathered;
  tasks : Chan task;
  res : Chan Results;
  written : list Output;
  events : list Event;
  panicked : bool            (* a channel of negative size, a send on a closed
                                channel, or a panic of [sort.Sort] *)
}.

Definition set_main (pc : MainPC) (s : State) : State :=
  mkState pc (pool s) (gatherer_pc s) (gathered s) (tasks s) (res s)
          (written s) (events s) (panicked s).
Definition set_pool (i : nat) (w : PoolState) (s : State) : State :=
  mkState (main_pc s) (<[i:=w]> (pool s)) (gatherer_pc s) (gathered s) (tasks s) (res s)
          (written s) (events s) (panicked s).
Definition set_gatherer (pc : GathererPC) (g : Gathered) (s : State) : State :=
  mkState (main_pc s) (pool s) pc g (tasks s) (res s)
          (written s) (events s) (panicked s).
Definition set_tasks (c : Chan task) (s : State) : State :=
  mkState (main_pc s) (pool s) (gatherer_pc s) (gathered s) c (res s)
          (written s) (events s) (panicked s).
Definition set_res (c : Chan Results) (s : State) : State :=
  mkState (main_pc s) (pool s) (gatherer_pc s) (gathered s) (tasks s) c
          (written s) (events s) (panicked s).
Definition write (o : list Output) (s : State) : State :=
  mkState (main_pc s) (pool s) (gatherer_pc s) (gathered s) (tasks s) (res s)
          (written s ++ o) (events s) (panicked s).
Definition record (e : Event) (s : State) : State :=
  mkState (main_pc s) (pool s) (gatherer_pc s) (gathered s) (tasks s) (res s)
          (written s) (events s ++ [e]) (panicked s).
Definition panic (s : State) : State :=
  mkState (main_pc s) (pool s) (gatherer_pc s) (gathered s) (tasks s) (res s)
          (written s) (events s) true.

(** The goroutine that moves.  [Collect keys] is [main] ranging over
    [resMap], with [keys] the order in which the map yields its keys. *)
Inductive Action :=
| Main
| Pool (i : nat)
| Gatherer
| Collect (keys : Results).

Section program.
Context `{!Net, !Resolver}.
Variable fl : Flags.

(** The number of pool goroutines, and the capacity of [tasks] and [res]. *)
Definition concurrency : nat := Z.to_nat (flConcurrency fl).

(** The state in which [main] is about to send the first of [pending]:
    the goroutines are started and the channels are empty.  With a
    negative [*flConcurrency], [make(chan task, *flConcurrency)] has
    panicked before. *)
Definition initial (pending : list task) : State :=
  {| main_pc := MainSend pending;
     pool := replicate concurrency (mkPool PoolRange 0);
     gatherer_pc := GatherRange;
     gathered := mkGathered ∅ [];
     tasks := mkChan [] false;
     res := mkChan [] false;
     written := [];
     events := [];
     panicked := bool_decide (flConcurrency fl < 0) |}.

(** A value sent on [tracker] is handed to [main] when [main] is at one
    of its two [<-tracker]. *)
Definition tracker_recv (from : Sender) (s : State) : option State :=
  match main_pc s with
  | MainWaitPool i =>
      if decide (i < concurrency)%nat
      then Some (record (TrackerRecv from) (set_main (MainWaitPool (S i)) s))
      else None
  | MainWaitGatherer =>
      Some (record (TrackerRecv from) (set_main MainCollect s))
  | _ => None
  end.

Definition step_main (s : State) : option State :=
  match main_pc s with
  | MainSend (t :: pending) =>
      if closed (tasks s) then Some (panic s)
      else if decide (length (buf (tasks s)) < concurrency)%nat
      then Some (set_main (MainSend pending)
                   (set_tasks (mkChan (buf (tasks s) ++ [t]) false) s))
      else None
  | MainSend [] =>
      Some (record CloseTasks
              (set_main (MainWaitPool 0)
                 (set_tasks (mkChan (buf (tasks s)) true) s)))
  | MainWaitPool i =>
      if decide (i < concurrency)%nat then None
      else Some (record CloseRes
                   (set_main MainWaitGatherer
                      (set_res (mkChan (buf (res s)) true) s)))
  | _ => None
  end.

Definition step_pool (i : nat) (s : State) : option State :=
  w ← pool s !! i;
  match pool_pc w with
  | PoolRange =>
      match buf (tasks s) with
      | def :: queued =>
          let '(c, o, sent) := run_task fl (pool_c w) def in
          let pc := match sent with Some result => PoolSend result | None => PoolRange end in
          Some (write o (set_pool i (mkPool pc c)
                  (set_tasks (mkChan queued (closed (tasks s))) s)))
      | [] =>
          if closed (tasks s) then Some (set_pool i (mkPool PoolTracker (pool_c w)) s)
          else None
      end
  | PoolSend result =>
      if closed (res s) then Some (panic s)
      else if decide (length (buf (res s)) < concurrency)%nat
      then Some (set_pool i (mkPool PoolRange (pool_c w))
                   (set_res (mkChan (buf (res s) ++ [result]) false) s))
      else None
  | PoolTracker =>
      set_pool i (mkPool PoolExit (pool_c w)) <$> tracker_recv FromPool s
  | PoolExit => None
  end.

Definition step_gatherer (s : State) : option State :=
  match gatherer_pc s with
  | GatherRange =>
      match buf (res s) with
      | result :: queued =>
          let '(_, g) := ingest fl result (gathered s) in
          Some (set_gatherer GatherRange g
                  (set_res (mkChan queued (closed (res s))) s))
      | [] =>
          if closed (res s) then Some (set_gatherer GatherTracker (gathered s) s)
          else None
      end
  | GatherTracker =>
      set_gatherer GatherExit (gathered s) <$> tracker_recv FromGatherer s
  | GatherExit => None
  end.

(** [os.Stderr.WriteString("\r")], [log.Println("All tasks completed")],
    the loop over [resMap] and [sort.Sort(results)]. *)
Definition step_collect (keys : Results) (s : State) : option State :=
  match main_pc s with
  | MainCollect =>
      if decide (keys ≡ₚ (map_to_list (resMap (gathered s))).*1) then
        let s := write [StderrWrite cr; LogPrint "All tasks completed"] (record ReadResMap s) in
        match sort.Sort keys with
        | Some results => Some (set_main (MainOutput results) s)
        | None => Some (panic s)
        end
      else None
  | _ => None
  end.

Definition step (a : Action) (s : State) : option State :=
  if panicked s then None
  else match a with
       | Main => step_main s
       | Pool i => step_pool i s
       | Gatherer => step_gatherer s
       | Collect keys => step_collect keys s
       end.

(** A schedule is the list of the goroutines that move, in order. *)
Fixpoint run (schedule : list Action) (s : State) : option State :=
  match schedule with
  | [] => Some s
  | a :: schedule => s' ← step a s; run schedule s'
  end.

Definition reachable (pending : list task) (s : State) : Prop :=
  ∃ schedule, run schedule (initial pending) = Some s.

(** The events of a complete shutdown. *)
Definition shutdown_order : list Event :=
  [CloseTasks] ++ replicate concurrency (TrackerRecv FromPool)
  ++ [CloseRes; TrackerRecv FromGatherer; ReadResMap].
End program.

(** ** Vocabulary of the statements about the result order *)

Section order_vocabulary.
Context `{!Net}.

(** The address of an entry as a number, where its IP field has one. *)
Definition ipv4_value (r : Result) : option Z :=
  BigEndian_Uint32 <$> ParseIP_To4 (IP r).

(** Entries without an IPv4 value come first, the others ascend. *)
Definition sorts_before (x y : Result) : Prop :=
  match ipv4_value x, ipv4_value y with
  | None, _ => True
  | Some _, None => False
  | Some a, Some b => a ≤ b
  end.

(** The order of the output: every entry without an IPv4 value stands
    before every entry with one, and adjacent entries with IPv4 values
    carry them in ascending order. *)
Definition ipv4_order (l : Results) : Prop :=
  (∀ i j x y,
      l !! i = Some x → l !! j = Some y →
      ParseIP_To4 (IP x) = None → is_Some (ParseIP_To4 (IP y)) →
      (i < j)%nat) ∧
  (∀ i x y a b,
      l !! i = Some x → l !! S i = Some y →
      ParseIP_To4 (IP x) = Some a → ParseIP_To4 (IP y) = Some b →
      0 ≤ BigEndian_Uint32 a ≤ BigEndian_Uint32 b ∧ BigEndian_Uint32 b < 2 ^ 32).
End order_vocabulary.

(** ** Vocabulary of the statements about the shutdown *)

(** The number of pool goroutines that have returned. *)
Definition exited (ws : list PoolState) : nat :=
  length (filter (λ w, pool_pc w = PoolExit) ws).

(** A pool goroutine inside its loop, and one that has left it. *)
Definition pool_running (w : PoolState) : Prop :=
  pool_pc w = PoolRange ∨ ∃ result, pool_pc w = PoolSend result.

Definition pool_leaving (w : PoolState) : Prop :=
  pool_pc w = PoolTracker ∨ pool_pc w = PoolExit.

Section shutdown_vocabulary.
Context `{!Net}.
Variable fl : Flags.

(** What holds at each program point of [main]. *)
Definition phase (s : State) : Prop :=
  match main_pc s with
  | MainSend _ =>
      closed (tasks s) = false ∧ closed (res s) = false ∧
      events s = [] ∧ Forall pool_running (pool s) ∧
      gatherer_pc s = GatherRange
  | MainWaitPool i =>
      closed (tasks s) = true ∧ closed (res s) = false ∧
      events s = CloseTasks :: replicate i (TrackerRecv FromPool) ∧
      (i ≤ concurrency fl)%nat ∧ exited (pool s) = i ∧
      gatherer_pc s = GatherRange
  | MainWaitGatherer =>
      closed (tasks s) = true ∧ closed (res s) = true ∧
      events s = CloseTasks :: replicate (concurrency fl) (TrackerRecv FromPool)
                   ++ [CloseRes] ∧
      exited (pool s) = concurrency fl ∧ gatherer_pc s ≠ GatherExit ∧
      (gatherer_pc s = GatherTracker → buf (res s) = [])
  | MainCollect =>
      closed (tasks s) = true ∧ closed (res s) = true ∧
      events s = CloseTasks :: replicate (concurrency fl) (TrackerRecv FromPool)
                   ++ [CloseRes; TrackerRecv FromGatherer] ∧
      exited (pool s) = concurrency fl ∧ gatherer_pc s = GatherExit ∧
      buf (res s) = []
  | MainOutput results =>
      closed (tasks s) = true ∧ closed (res s) = true ∧
      events s = shutdown_order fl ∧
      exited (pool s) = concurrency fl ∧ gatherer_pc s = GatherExit ∧
      buf (res s) = [] ∧
      results ≡ₚ (map_to_list (resMap (gathered s))).*1 ∧
      StronglySorted sorts_before results
  end.

Record invariant (s : State) : Prop := {
  inv_no_panic : panicked s = false;
  inv_pool : length (pool s) = concurrency fl;
  inv_tasks_cap : (length (buf (tasks s)) ≤ concurrency fl)%nat;
  inv_res_cap : (length (buf (res s)) ≤ concurrency fl)%nat;
  inv_drained :
    Exists pool_leaving (pool s) → closed (tasks s) = true ∧ buf (tasks s) = [];
  inv_phase : phase s
}.
End shutdown_vocabulary.

(** ** Flags with one of them set *)

Definition with_fcrdns (b : bool) (fl : Flags) : Flags :=
  mkFlags (flTimeout fl) (flConcurrency fl) (flDebug fl) (flValidate fl)
          (flipv6 fl) (flServerAddr fl) b.
Definition with_validate (b : bool) (fl : Flags) : Flags :=
  mkFlags (flTimeout fl) (flConcurrency fl) (flDebug fl) b
          (flipv6 fl) (flServerAddr fl) (flFcrdns fl).
Definition with_ipv6 (b : bool) (fl : Flags) : Flags :=
  mkFlags (flTimeout fl) (flConcurrency fl) (flDebug fl) (flValidate fl)
          b (flServerAddr fl) (flFcrdns fl).
Definition with_debug (b : bool) (fl : Flags) : Flags :=
  mkFlags (flTimeout fl) (flConcurrency fl) b (flValidate fl)
          (flipv6 fl) (flServerAddr fl) (flFcrdns fl).

(** ** Vocabulary of the statements about the pool *)

(** The progress mark that a pool goroutine writes without [-debug]. *)
Definition is_progress (o : Output) : Prop :=
  o = StderrWrite (cr ++ "Working \") ∨ o = StderrWrite (cr ++ "Working /").

(** ** Vocabulary of the statements about the gatherer *)

Section confirmation_vocabulary.
Context `{!Resolver}.

(** Forward resolution of [hostname] yields [ip], for a gatherer that has
    made the lookups [hist]: by the A record of the name, or, when that
    lookup finds nothing, by the A record of its CNAME, or by a AAAA
    record of the name looked up some time later. *)
Definition resolves (fl : Flags) (hist : list Query) (hostname ip : string) : Prop :=
  let srv := flServerAddr fl in
  let q1 := QLookupName hostname srv in
  let qc := QLookupCname hostname srv in
  let a1 := answer hist q1 in
  let c := answer (hist ++ [q1]) qc in
  let a2 := answer (hist ++ [q1; qc]) (QLookupName c.1 srv) in
  (found a1 = true ∧ ip = a1.1)
  ∨ (found a1 = false ∧ found c = true ∧ found a2 = true ∧ ip = a2.1)
  ∨ (∃ later, hist `prefix_of` later ∧
       found (answer later (QLookupName6 hostname srv)) = true ∧
       ip = (answer later (QLookupName6 hostname srv)).1).
End confirmation_vocabulary.


(** Whether the gatherer keeps a record when it does not confirm. *)
Definition kept (fl : Flags) (r : Result) : bool :=
  negb (flValidate fl) || grammar.domain_name (Hostname r).

(** The records of a slice, of a task and of a pool goroutine that are on
    their way to [resMap]. *)
Definition yield (fl : Flags) (result : Results) : gset Result :=
  list_to_set (filter (λ r, kept fl r = true) result).

Definition task_yield (fl : Flags) (def : task) : gset Result :=
  match ret_err def with
  | None => yield fl (ret_result def)
  | Some _ => ∅
  end.

Definition pool_yield (fl : Flags) (w : PoolState) : gset Result :=
  match pool_pc w with
  | PoolSend result => yield fl result
  | _ => ∅
  end.

Definition pending_of (pc : MainPC) : list task :=
  match pc with MainSend pending => pending | _ => [] end.

Definition in_flight (fl : Flags) (s : State) : gset Result :=
  ⋃ (task_yield fl <$> pending_of (main_pc s))
  ∪ ⋃ (task_yield fl <$> buf (tasks s))
  ∪ ⋃ (pool_yield fl <$> pool s)
  ∪ ⋃ (yield fl <$> buf (res s)).

Definition conserved (fl : Flags) (pending : list task) (s : State) : Prop :=
  dom (resMap (gathered s)) ∪ in_flight fl s = ⋃ (task_yield fl <$> pending).

(** [resMap[r] = true] for each [r] of [rs], in order. *)
Definition store_all (rs : Results) (m : gmap Result bool) : gmap Result bool :=
  foldl (λ m r, <[r:=true]> m) m rs.

(** ** Vocabulary of the argument that the shutdown completes *)

Section completion_vocabulary.
Variable fl : Flags.
#[local] Open Scope nat_scope.

(** [main] is about to send [pending]; the channels are empty and every
    other goroutine waits at its range. *)
Definition quiet (pending : list task) (s : State) : Prop :=
  main_pc s = MainSend pending ∧
  tasks s = mkChan [] false ∧ res s = mkChan [] false ∧
  Forall (λ w, pool_pc w = PoolRange) (pool s) ∧ length (pool s) = concurrency fl ∧
  gatherer_pc s = GatherRange ∧ panicked s = false.

(** One task goes through the first pool goroutine and the gatherer. *)
Definition schedule_task (def : task) : list Action :=
  [Main; Pool 0] ++
  match ret_err def with None => [Pool 0; Gatherer] | Some _ => [] end.

(** [tasks] is closed and empty, [main] has received [k] values from
    [tracker], and the pool goroutines from [k] on wait at their range. *)
Definition draining (k : nat) (s : State) : Prop :=
  main_pc s = MainWaitPool k ∧
  tasks s = mkChan [] true ∧ res s = mkChan [] false ∧
  (∀ i w, k ≤ i → pool s !! i = Some w → pool_pc w = PoolRange) ∧
  length (pool s) = concurrency fl ∧
  gatherer_pc s = GatherRange ∧ panicked s = false.

End completion_vocabulary.


(** ** Vocabulary of the statements about [sort.Sort] *)

Section sort_vocabulary.
Context `{!Net}.
#[local] Open Scope nat_scope.

(** The entries of [d] at the indices from [a] up to, not including, [b]. *)
Definition seg (a b : nat) (d : Results) : Results := take (b - a) (drop a d).

(** [d'] rearranges [d] between [a] and [b] and nowhere else. *)
Definition range_perm (a b : nat) (d d' : Results) : Prop :=
  length d' = length d ∧
  (∀ k, k < a ∨ b ≤ k → d' !! k = d !! k) ∧
  d' ≡ₚ d.

(** [P] holds of the entries of [d] between [a] and [b]. *)
Definition range_all (P : Result → Prop) (a b : nat) (d : Results) : Prop :=
  ∀ k x, a ≤ k < b → d !! k = Some x → P x.

(** The entries of [d] between [a] and [b] stand in order. *)
Definition sorted_range (a b : nat) (d : Results) : Prop :=
  StronglySorted sorts_before (seg a b d).

(** The tests of [partition] and of [partitionEqual] that send an entry
    [x] to the left of the pivot [p]. *)
Definition less_than (p x : Result) : bool := less_entries x p.
Definition not_greater (p x : Result) : bool := negb (less_entries p x).

(** What the loop of a partition has established when it is at [i] and
    [j], for the pivot [p] at [a] and the test [U] of the left side. *)
Definition split_at (a b : nat) (U : Result → Result → bool)
    (p : Result) (d : Results) (i j : nat) : Prop :=
  range_all (λ x, U p x = true) (a + 1) i d ∧
  range_all (λ x, U p x = false) (S j) b d.

(** What [pdqsort] knows of the entry before the range it sorts: no entry
    of the range is less than it. *)
Definition pred_ok (a b : nat) (d : Results) : Prop :=
  0 < a →
  ∃ q, d !! (a - 1) = Some q ∧ range_all (λ x, less_entries x q = false) a b d.

(** [c] is a child of [k] in the heap. *)
Definition is_child (k c : nat) : Prop := c = 2 * k + 1 ∨ c = 2 * k + 2.

(** The entry at [k] of the heap that starts at [first] may stand above
    the one at [c]. *)
Definition above (first : nat) (d : Results) (k c : nat) : Prop :=
  ∀ x y, d !! (first + k) = Some x → d !! (first + c) = Some y → sorts_before y x.

(** The heap property of [data[first+lo : first+hi]]. *)
Definition heap_from (first lo hi : nat) (d : Results) : Prop :=
  ∀ k c, lo ≤ k → is_child k c → c < hi → above first d k c.

(** The heap property while [siftDown] is at [root]: it holds except at
    [root], whose children the parent of [root] may stand above. *)
Definition sift_inv (first lo root hi : nat) (d : Results) : Prop :=
  (∀ k c, lo ≤ k → k ≠ root → is_child k c → c < hi → above first d k c) ∧
  (∀ k c, lo ≤ k → is_child k root → is_child root c → c < hi → above first d k c).

(** [x] has an IPv4 value, the one of [p]. *)
Definition same_key (p x : Result) : Prop :=
  is_Some (ipv4_value p) ∧ ipv4_value x = ipv4_value p.
End sort_vocabulary.
(** ** Package net (standard library): addresses as byte slices *)

Module net.

(** [type IP []byte] and [type IPMask []byte]; a nil slice is the empty
    list. *)
Abbreviation IP := (list Byte.byte).
Abbreviation IPMask := (list Byte.byte).

(** [type IPNet struct { IP IP; Mask IPMask }] *)
Record IPNet := mkIPNet { IPNet_IP : IP; IPNet_Mask : IPMask }.

#[global] Instance byte_eq_dec : EqDecision Byte.byte := Byte.byte_eq_dec.

(** A byte of the value [z] modulo 256. *)
Definition byte_of_Z (z : Z) : Byte.byte :=
  default Byte.x00 (Byte.of_N (Z.to_N (z mod 256))).

(** [b + 1] and [a & b] on bytes. *)
Definition byte_inc (b : Byte.byte) : Byte.byte := byte_of_Z (byte_to_Z b + 1).
Definition byte_and (a b : Byte.byte) : Byte.byte :=
  byte_of_Z (Z.land (byte_to_Z a) (byte_to_Z b)).

Definition v4InV6Prefix : list Byte.byte :=
  byte_of_Z <$> [0; 0; 0; 0; 0; 0; 0; 0; 0; 0; 255; 255].

(** [func allFF(b []byte) bool] *)
Definition allFF (b : list Byte.byte) : bool :=
  forallb (λ c, bool_decide (byte_to_Z c = 255)) b.

(** [func isZeros(p IP) bool] *)
Definition isZeros (p : IP) : bool :=
  forallb (λ c, bool_decide (byte_to_Z c = 0)) p.

(** [func (ip IP) To4() IP]; [None] is the nil it returns for an address
    that is not IPv4. *)
Definition To4 (ip : IP) : option IP :=
  if decide (length ip = 4%nat) then Some ip
  else if decide (length ip = 16%nat) then
    if isZeros (take 10 ip)
       && bool_decide (byte_to_Z <$> ip !! 10%nat = Some 255)
       && bool_decide (byte_to_Z <$> ip !! 11%nat = Some 255)
    then Some (take 4 (drop 12 ip))
    else None
  else None.

(** [func (ip IP) Mask(mask IPMask) IP] *)
Definition Mask (ip : IP) (mask : IPMask) : IP :=
  let mask :=
    if bool_decide (length mask = 16%nat) && bool_decide (length ip = 4%nat)
       && allFF (take 12 mask)
    then drop 12 mask else mask in
  let ip :=
    if bool_decide (length mask = 4%nat) && bool_decide (length ip = 16%nat)
       && bool_decide (take 12 ip = v4InV6Prefix)
    then drop 12 ip else ip in
  if decide (length ip ≠ length mask) then []
  else zip_with byte_and ip mask.

(** [func networkNumberAndMask(n *IPNet) (ip IP, m IPMask)] *)
Definition networkNumberAndMask (n : IPNet) : IP * IPMask :=
  let known :=
    match To4 (IPNet_IP n) with
    | Some ip => Some ip
    | None => if decide (length (IPNet_IP n) ≠ 16%nat) then None else Some (IPNet_IP n)
    end in
  match known with
  | None => ([], [])
  | Some ip =>
      if decide (length (IPNet_Mask n) = 4%nat) then
        if decide (length ip ≠ 4%nat) then ([], []) else (ip, IPNet_Mask n)
      else if decide (length (IPNet_Mask n) = 16%nat) then
        if decide (length ip = 4%nat) then (ip, drop 12 (IPNet_Mask n))
        else (ip, IPNet_Mask n)
      else ([], [])
  end.

(** [for i := 0; i < l; i++ { if nn[i]&m[i] != ip[i]&m[i] { return false } };
    return true], the three slices read in step. *)
Fixpoint same_network (nn : IP) (m : IPMask) (ip : IP) : bool :=
  match nn, m, ip with
  | n :: nn, x :: m, i :: ip =>
      if decide (byte_and n x ≠ byte_and i x) then false else same_network nn m ip
  | _, _, _ => true
  end.

(** [func (n *IPNet) Contains(ip IP) bool] *)
Definition Contains (n : IPNet) (ip : IP) : bool :=
  let '(nn, m) := networkNumberAndMask n in
  let ip := match To4 ip with Some x => x | None => ip end in
  if decide (length ip ≠ length nn) then false
  else same_network nn m ip.

End net.

(** The parser and the printer of addresses, which the development is
    parametric in: [net.ParseIP] ([None] where it returns nil),
    [net.ParseCIDR] ([None] where it returns an error) and
    [func (ip IP) String() string]. *)
Class NetText := {
  ParseIP : string → option net.IP;
  ParseCIDR : string → option (net.IP * net.IPNet);
  IP_String : net.IP → string
}.

(** ** Package main: the list of addresses *)

(** [func increaseIP(ip net.IP)]: the loop
    [for j := len(ip) - 1; j >= 0; j-- { ip[j]++; if ip[j] > 0 { break } }]
    with [j = n - 1] next; the slice it changes in place is returned. *)
Fixpoint increase_from (n : nat) (ip : net.IP) : net.IP :=
  match n with
  | O => ip
  | S j =>
      match ip !! j with
      | Some b =>
          let ip := <[j:=net.byte_inc b]> ip in
          if bool_decide (0 < byte_to_Z (net.byte_inc b)) then ip
          else increase_from j ip
      | None => ip
      end
  end.

Definition increaseIP (ip : net.IP) : net.IP := increase_from (length ip) ip.

Definition quote : string := String "034" EmptyString.

Section linesToIPList.
Context `{!NetText}.

(** [for ip := ip.Mask(network.Mask); network.Contains(ip); increaseIP(ip)
      { ipList = append(ipList, ip.String()) }]
    from its first test on; a turn of the loop takes one unit of [fuel]. *)
Fixpoint cidr_loop (fuel : nat) (network : net.IPNet) (ip : net.IP)
    (ipList : list string) : option (list string) :=
  match fuel with
  | O => None
  | S fuel =>
      if net.Contains network ip
      then cidr_loop fuel network (increaseIP ip) (ipList ++ [IP_String ip])
      else Some ipList
  end.

(** The loop of [linesToIPList] over [lines], with the list made so far;
    the result is the pair the function returns, the error as its
    message. *)
Fixpoint lines_loop (fuel : nat) (lines : list string) (ipList : list string)
  : option (list string * option string) :=
  match lines with
  | [] => Some (ipList, None)
  | line :: lines =>
      match ParseIP line with
      | Some _ => lines_loop fuel lines (ipList ++ [line])
      | None =>
          match ParseCIDR line with
          | Some (ip, network) =>
              ipList ← cidr_loop fuel network (net.Mask ip (net.IPNet_Mask network)) ipList;
              lines_loop fuel lines ipList
          | None =>
              Some (ipList,
                    Some (quote ++ line ++ quote ++ " is not an IP Address or CIDR Network")%string)
          end
      end
  end.

(** [func linesToIPList(lines []string) ([]string, error)]; [None] when a
    loop over a network has not ended after [fuel] turns. *)
Definition linesToIPList (fuel : nat) (lines : list string)
  : option (list string * option string) :=
  lines_loop fuel lines [].
End linesToIPList.

(** The number that the bytes of an address write, most significant
    first. *)
Definition IP_value (ip : net.IP) : Z :=
  foldl (λ acc b, acc * 256 + byte_to_Z b) 0 ip.

(** ** Package main: the output *)

(** [json.MarshalIndent(results, "", "    ")], the text it returns, and
    what a [tabwriter.NewWriter(os.Stdout, 0, 8, 4, ' ', 0)] has written
    when it is flushed, for the text it was given; both belong to Go's
    standard library and the development is parametric in them. *)
Class Printers := {
  MarshalIndent : Results → string;
  tabwriter : string → string
}.

Definition tab : string := String "009" EmptyString.

(** [fmt.Printf("%s,%s,%s\n", r.Hostname, r.IP, r.Source)] *)
Definition csv_line (r : Result) : string :=
  (Hostname r ++ "," ++ IP r ++ "," ++ Source r ++ nl)%string.

(** [cleanSet[r.IP] = append(cleanSet[r.IP], r.Hostname)] for every [r]
    of [results], in order. *)
Definition cleanSet (results : Results) : gmap string (list string) :=
  foldl (λ m r, <[IP r:=default [] (m !! IP r) ++ [Hostname r]]> m) ∅ results.

(** [fmt.Printf("%s:\n", k)] and [fmt.Printf("\t%s\n", h)] for every [h]
    of [v]. *)
Definition clean_block (k : string) (v : list string) : string :=
  (k ++ ":" ++ nl ++ String.concat "" ((λ h, tab ++ h ++ nl) <$> v))%string.

(** [fmt.Fprintf(w, "%s\t%s\t%s\n", r.IP, r.Hostname, r.Source)] *)
Definition table_line (r : Result) : string :=
  (IP r ++ tab ++ Hostname r ++ tab ++ Source r ++ nl)%string.

Section output.
Context `{!Printers}.

(** [func output(results bsw.Results, ojson, ocsv, oclean bool)]: what it
    writes on the standard output.  [order] is the order in which
    [for k, v := range cleanSet] yields the keys of the map; there is no
    output for an [order] that is not one of its keys. *)
Definition output (order : list string) (results : Results)
    (ojson ocsv oclean : bool) : option string :=
  if ojson then Some (MarshalIndent results ++ nl)%string
  else if ocsv then Some (String.concat "" (csv_line <$> results))
  else if oclean then
    let cleanSet := cleanSet results in
    if decide (order ≡ₚ (map_to_list cleanSet).*1) then
      Some (String.concat "" ((λ k, clean_block k (default [] (cleanSet !! k))) <$> order))
    else None
  else
    Some (tabwriter ("IP" ++ tab ++ "Hostname" ++ tab ++ "Source" ++ nl
                     ++ String.concat "" (table_line <$> results)))%string.
End output.

(** The character [c] does not occur in [s]. *)
Definition free_of (c : ascii) (s : string) : Prop := c ∉ list_ascii_of_string s.

(** A result that the CSV lines show without ambiguity. *)
Definition csv_safe (r : Result) : Prop :=
  free_of "," (Hostname r) ∧ free_of "," (IP r) ∧ free_of "010" (Source r).

(** ** Vocabulary of the argument that every run ends *)

(** The communications that a goroutine at a program point has before it,
    counted so that one step of any goroutine takes at least one away: a
    task still to send is four, a task in [tasks] three, a slice in [res]
    one. *)
Definition pool_weight (w : PoolState) : nat :=
  match pool_pc w with
  | PoolSend _ => 4
  | PoolRange => 2
  | PoolTracker => 1
  | PoolExit => 0
  end.

Definition main_weight (pc : MainPC) : nat :=
  match pc with
  | MainSend pending => 3 + 4 * length pending
  | MainWaitPool _ => 2
  | MainWaitGatherer => 1
  | MainCollect => 1
  | MainOutput _ => 0
  end.

Definition gatherer_weight (pc : GathererPC) : nat :=
  match pc with
  | GatherRange => 2
  | GatherTracker => 1
  | GatherExit => 0
  end.

Definition pool_work (ws : list PoolState) : nat := sum_list (pool_weight <$> ws).

Definition work_left (s : State) : nat :=
  main_weight (main_pc s) + 3 * length (buf (tasks s)) + pool_work (pool s)
  + length (buf (res s)) + gatherer_weight (gatherer_pc s).

(** A pool goroutine at its send on [res]. *)
Definition at_send (w : PoolState) : Prop := ∃ result, pool_pc w = PoolSend result.

#[global] Instance at_send_dec w : Decision (at_send w).
Proof.
  unfold at_send. destruct (pool_pc w) as [|result| |];
    [right|left|right|right]; try (by intros [? ?]). by exists result.
Defined.

#[global] Instance Output_eq_dec : EqDecision Output.
Proof. solve_decision. Defined.

(** The two progress marks. *)
Definition mark_back : Output := StderrWrite (cr ++ "Working \").
Definition mark_forward : Output := StderrWrite (cr ++ "Working /").

(** What [main] writes once the gatherer has returned. *)
Definition closing (pc : MainPC) : list Output :=
  match pc with
  | MainOutput _ => [StderrWrite cr; LogPrint "All tasks completed"]
  | _ => []
  end.

(** The lookups that [confirm] makes for the hostname [h], for a gatherer
    that has made the lookups [hist]. *)
Definition lookups_for `{!Resolver} (fl : Flags) (hist : list Query) (h : string)
  : list Query :=
  let srv := flServerAddr fl in
  let q1 := QLookupName h srv in
  let qc := QLookupCname h srv in
  let q6 := QLookupName6 h srv in
  if found (answer hist q1) then [q1; q6]
  else
    let c := answer (hist ++ [q1]) qc in
    if found c then [q1; qc; QLookupName c.1 srv; q6]
    else [q1; qc; q6].

(** ** Package main: one pool goroutine

    [for def := range tasks { ... }] as one goroutine runs it on the
    tasks it receives, [defs] in order, from its local [c]: what it
    writes and the slices it sends on [res]. *)
Fixpoint pool_loop (fl : Flags) (c : Z) (defs : list task)
  : list Output * list Results :=
  match defs with
  | [] => ([], [])
  | def :: defs =>
      let '(c, o, sent) := run_task fl c def in
      let '(os, rs) := pool_loop fl c defs in
      (o ++ os, match sent with Some result => result :: rs | None => rs end)
  end.

(** [resMap] is used as a set: every value in it is [true]. *)
Definition all_true (g : Gathered) : Prop :=
  ∀ k v, resMap g !! k = Some v → v = true.

(** What has been written without [-debug], for the tasks [pending] that
    [main] set out to send: one progress mark for every task that a pool
    goroutine has taken from [tasks], and the closing messages. *)
Definition marks_written (pending : list task) (s : State) : Prop :=
  ∃ marks,
    written s = marks ++ closing (main_pc s) ∧
    Forall is_progress marks ∧
    (length marks + length (buf (tasks s)) + length (pending_of (main_pc s))
     = length pending)%nat.

(** The server that a lookup is sent to. *)
Definition query_server (q : Query) : string :=
  match q with
  | QLookupName _ serverAddr | QLookupCname _ serverAddr | QLookupName6 _ serverAddr =>
      serverAddr
  end.

(** What one record does to [resMap], with or without confirmation: it
    adds at most [n] keys, removes none and stores nothing but [true]. *)
Definition adds_at_most (n : nat) (g g' : Gathered) : Prop :=
  (all_true g → all_true g') ∧
  (all_true g → ∀ k v, resMap g !! k = Some v → resMap g' !! k = Some v) ∧
  (size (dom (resMap g')) ≤ size (dom (resMap g)) + n)%nat.

(** ** Dotted quads and their networks, the instance of [NetText] used in
    the examples *)

Module quad.

Definition digit (n : Z) : ascii := ascii_of_nat (Z.to_nat (48 + n)).

(** A byte in decimal. *)
Definition decimal (b : Byte.byte) : string :=
  let v := byte_to_Z b in
  string_of_list_ascii
    (if v <? 10 then [digit v]
     else if v <? 100 then [digit (v / 10); digit (v mod 10)]
     else [digit (v / 100); digit (v / 10 mod 10); digit (v mod 10)]).

Definition bytes (a : IPv4) : net.IP := [b0 a; b1 a; b2 a; b3 a].

(** The 16-byte form in which [net.ParseIP] returns an IPv4 address. *)
Definition ParseIP (s : string) : option net.IP :=
  (λ a, net.v4InV6Prefix ++ bytes a) <$> dotted.parse s.

(** The mask of [n] leading one bits, in four bytes. *)
Definition CIDRMask (n : Z) : net.IPMask :=
  let m := 2 ^ 32 - 2 ^ (32 - n) in
  net.byte_of_Z <$> [m / 2 ^ 24; m / 2 ^ 16; m / 2 ^ 8; m].

(** Split at the first ["/"]. *)
Fixpoint slash (cur : list ascii) (cs : list ascii) : option (list ascii * list ascii) :=
  match cs with
  | [] => None
  | c :: cs' =>
      if decide (c = "/"%char) then Some (reverse cur, cs') else slash (c :: cur) cs'
  end.

Definition ParseCIDR (s : string) : option (net.IP * net.IPNet) :=
  '(addr, len) ← slash [] (list_ascii_of_string s);
  a ← dotted.parse (string_of_list_ascii addr);
  n ← (if decide (1 ≤ length len ≤ 2)%nat then dotted.field_val 0 len else None);
  if decide (n ≤ 32) then
    let ip := net.v4InV6Prefix ++ bytes a in
    Some (ip, net.mkIPNet (net.Mask ip (CIDRMask n)) (CIDRMask n))
  else None.

Definition to_string (ip : net.IP) : string :=
  match net.To4 ip with
  | Some [a; b; c; d] =>
      (decimal a ++ "." ++ decimal b ++ "." ++ decimal c ++ "." ++ decimal d)%string
  | _ => "?"%string
  end.

Definition text : NetText :=
  Build_NetText ParseIP ParseCIDR to_string.

End quad.

(** ** Sample data for the examples *)

Module sample.

Definition two_v6_entries : Results :=
  [ mkResult "ns" "2001:db8::1" "ns1.example.com";
    mkResult "mx" "not-an-address" "mail.example.com" ].

(** Sixteen entries, more than [insertionSort] alone is given. *)
Definition scrambled : Results :=
  (λ ip, mkResult "dict" ip "host.example.com") <$>
    ["10.0.0.9"; "10.0.0.3"; "2001:db8::1"; "10.0.0.14"; "10.0.0.1"; "10.0.0.7";
     "192.168.1.1"; "10.0.0.12"; "8.8.8.8"; "10.0.0.5"; "2001:db8::2"; "10.0.0.11";
     "10.0.0.2"; "172.16.0.4"; "10.0.0.8"; "9.9.9.9"].

(** [blacksheepwall -concurrency 2 ...] *)
Definition flags : Flags :=
  flag_Parse (mkCommandLine None (Some 2) None None None None None).

(** A name service without records, one with an A record for every
    name, and one with a AAAA record for every name and nothing else. *)
Definition no_records : Resolver :=
  {| answer := λ _ _, (""%string, Some "no such host"%string) |}.

Definition a_records : Resolver :=
  {| answer := λ _ q,
       match q with
       | QLookupName _ _ => ("9.9.9.9"%string, None)
       | _ => (""%string, Some "no such host"%string)
       end |}.

Definition aaaa_records : Resolver :=
  {| answer := λ _ q,
       match q with
       | QLookupName6 _ _ => ("2001:db8::1"%string, None)
       | _ => (""%string, Some "no such host"%string)
       end |}.

Definition ns1 : Result := mkResult "ns" "9.9.9.9" "ns1.example.com".
Definition dns_google : Result := mkResult "reverse" "8.8.8.8" "dns.google".
Definition bad_host : Result := mkResult "bing" "10.0.0.2" "bad_host!".

(** Entries with and without an IPv4 form, out of order. *)
Definition mixed : Results :=
  [ mkResult "tls" "10.0.0.2" "b.example.com";
    mkResult "dict" "2001:db8::2" "v6b.example.com";
    dns_google;
    mkResult "dict" "2001:db8::1" "v6a.example.com";
    ns1 ].

(** Two tasks that return the same record, a task that finds nothing and
    a task that fails. *)
Definition ns_task : task := mkTask "ns" [ns1] None.
Definition reverse_task : task := mkTask "reverse" [dns_google] None.
Definition empty_task : task := mkTask "reverse" [] None.
Definition failed_task : task := mkTask "axfr" [] (Some "transfer refused"%string).

(** Both pool goroutines take one of the two [ns_task]s before either
    sends its result; then the shutdown. *)
Definition schedule : list Action :=
  [Main; Main; Pool 0; Pool 1; Pool 0; Pool 1; Gatherer; Gatherer; Main;
   Pool 0; Pool 0; Pool 1; Pool 1; Main; Gatherer; Gatherer; Collect [ns1]].

Definition final : State :=
  default (initial flags [])
    (@run dotted.net no_records flags schedule (initial flags [ns_task; ns_task])).

(** [main] has sent [def]; nothing else has moved. *)
Definition after_send (def : task) : State :=
  default (initial flags [])
    (@run dotted.net no_records flags [Main] (initial flags [def])).

(** [blacksheepwall -concurrency 0 ...] and [-concurrency 1 ...] *)
Definition no_pool : Flags :=
  flag_Parse (mkCommandLine None (Some 0) None None None None None).
Definition one_worker : Flags :=
  flag_Parse (mkCommandLine None (Some 1) None None None None None).


(** The run of one pool goroutine on the two [ns_task]s. *)
Definition schedule_one : list Action :=
  [Main; Pool 0; Main; Pool 0; Gatherer; Pool 0; Pool 0; Gatherer; Main;
   Pool 0; Pool 0; Main; Gatherer; Gatherer; Collect [ns1]].

Definition final_one : State :=
  default (initial one_worker [])
    (@run dotted.net no_records one_worker schedule_one
       (initial one_worker [ns_task; ns_task])).

(** Printers that write nothing, for the branches of [output] that do
    not use them. *)
Definition no_printers : Printers :=
  {| MarshalIndent := λ _, ""%string; tabwriter := λ _, ""%string |}.

(** The address 10.0.0.5, the network that [net.ParseCIDR] returns for
    10.0.0.5/30, and the address and the network of 0.0.0.0/0. *)
Definition ten_0_0_5 : net.IP := net.byte_of_Z <$> [10; 0; 0; 5].
Definition slash_30 : net.IPNet :=
  net.mkIPNet (net.byte_of_Z <$> [10; 0; 0; 4]) (net.byte_of_Z <$> [255; 255; 255; 252]).

End sample.

(* ===================================================================== *)
(** * Part II: properties *)
(* ===================================================================== *)

Example dotted_parse_8888 :
  BigEndian_Uint32 <$> dotted.parse "8.8.8.8" = Some 134744072.
Proof. reflexivity. Qed.

Example dotted_parse_v6 : dotted.parse "2001:db8::1" = None.
Proof. reflexivity. Qed.

(** ** The comparator and the sort *)

Section order.
Context `{!Net}.

Lemma byte_to_Z_range b : 0 ≤ byte_to_Z b < 256.
Proof.
  unfold byte_to_Z. pose proof (Byte.to_N_bounded b) as Hb. lia.
Qed.

Lemma lor_range n a b :
  0 ≤ n → 0 ≤ a < 2 ^ n → 0 ≤ b < 2 ^ n → 0 ≤ Z.lor a b < 2 ^ n.
Proof.
  intros Hn Ha Hb.
  assert (0 ≤ Z.lor a b) by (apply Z.lor_nonneg; lia).
  split; [done|].
  destruct (decide (Z.lor a b = 0)) as [->|Hne]; [lia|].
  apply Z.log2_lt_pow2; [lia|].
  rewrite Z.log2_lor by lia.
  assert (∀ c, 0 ≤ c < 2 ^ n → Z.log2 c < n ∨ c = 0) as Hlog.
  { intros c Hc. destruct (decide (c = 0)); [by right|left].
    apply Z.log2_lt_pow2; lia. }
  destruct (Hlog a Ha) as [?| ->], (Hlog b Hb) as [?| ->];
    rewrite ?Z.lor_0_l, ?Z.lor_0_r in Hne; try done.
  - lia.
  - change (Z.log2 0) with 0. pose proof (Z.log2_nonneg a). lia.
  - change (Z.log2 0) with 0. pose proof (Z.log2_nonneg b). lia.
Qed.

Lemma BigEndian_Uint32_range a : 0 ≤ BigEndian_Uint32 a < 2 ^ 32.
Proof.
  unfold BigEndian_Uint32.
  pose proof (byte_to_Z_range (b0 a)). pose proof (byte_to_Z_range (b1 a)).
  pose proof (byte_to_Z_range (b2 a)). pose proof (byte_to_Z_range (b3 a)).
  rewrite !Z.shiftl_mul_pow2 by lia.
  repeat apply lor_range; lia.
Qed.

Lemma less_entries_true x y : less_entries x y = true → sorts_before x y.
Proof.
  unfold less_entries, sorts_before, ipv4_value.
  destruct (ParseIP_To4 (IP x)), (ParseIP_To4 (IP y)); simpl; try done.
  intros ?%Z.ltb_lt. lia.
Qed.

Lemma less_entries_false x y : less_entries x y = false → sorts_before y x.
Proof.
  unfold less_entries, sorts_before, ipv4_value.
  destruct (ParseIP_To4 (IP x)), (ParseIP_To4 (IP y)); simpl; try done.
  intros ?%Z.ltb_ge. lia.
Qed.

#[global] Instance sorts_before_trans : Transitive sorts_before.
Proof.
  intros x y z. unfold sorts_before.
  destruct (ipv4_value x), (ipv4_value y), (ipv4_value z); try done. lia.
Qed.

Lemma Less_lookup (r : Results) i j ri rj :
  r !! i = Some ri → r !! j = Some rj → Less r i j = Some (less_entries ri rj).
Proof. intros Hi Hj. unfold Less. by rewrite Hi, Hj. Qed.

Lemma lookup_after_prefix {A} (p : list A) y x s :
  (p ++ y :: x :: s) !! S (length p) = Some x.
Proof.
  rewrite lookup_app_r by lia.
  by replace (S (length p) - length p)%nat with 1%nat by lia.
Qed.

Lemma Swap_adjacent (p : Results) x y s :
  Swap (p ++ y :: x :: s) (S (length p)) (length p) = Some (p ++ x :: y :: s).
Proof.
  unfold Swap.
  rewrite lookup_after_prefix, list_lookup_middle by done. simpl. f_equal.
  rewrite (insert_app_r_alt p) by lia.
  replace (S (length p) - length p)%nat with 1%nat by lia. simpl.
  rewrite (insert_app_r_alt p) by lia.
  by replace (length p - length p)%nat with 0%nat by lia.
Qed.

Lemma StronglySorted_lookup_lt {A} (R : relation A) (l : list A) i j x y :
  StronglySorted R l → l !! i = Some x → l !! j = Some y → (i < j)%nat → R x y.
Proof.
  intros Hl. revert i j. induction Hl as [|a l Hl IH Ha]; intros i j Hi Hj Hlt.
  - by rewrite lookup_nil in Hi.
  - destruct j as [|j]; [lia|]. simpl in Hj.
    destruct i as [|i]; simpl in Hi.
    + injection Hi as ->. rewrite Forall_forall in Ha.
      apply Ha. by eapply list_elem_of_lookup_2.
    + eapply IH; [done..|lia].
Qed.

Lemma sorted_ipv4_order (l : Results) :
  StronglySorted sorts_before l → ipv4_order l.
Proof.
  intros Hsorted. split.
  - intros i j x y Hi Hj Hx [b Hy].
    destruct (decide (i < j)%nat) as [|Hge]; [done|exfalso].
    destruct (decide (i = j)) as [->|Hne]; [congruence|].
    assert (sorts_before y x) as Hyx.
    { eapply (StronglySorted_lookup_lt _ l j i); [done..|lia]. }
    unfold sorts_before, ipv4_value in Hyx. by rewrite Hx, Hy in Hyx.
  - intros i x y a b Hi Hj Hx Hy.
    assert (sorts_before x y) as Hxy.
    { eapply (StronglySorted_lookup_lt _ l i (S i)); [done..|lia]. }
    unfold sorts_before, ipv4_value in Hxy. rewrite Hx, Hy in Hxy. simpl in Hxy.
    pose proof (BigEndian_Uint32_range a). pose proof (BigEndian_Uint32_range b).
    lia.
Qed.

End order.

(** ** [sort.Sort] sorts

    Every function of the library's sort is given what it returns on a
    range [a], [b] of the slice: it returns, it rearranges the range and
    nothing else, and what it promises of the order holds. *)

Import sort.

(** *** Ranges of a slice *)

Section ranges.
Context `{!Net}.
#[local] Open Scope nat_scope.
Implicit Types (d : Results) (x y p : Result).

Lemma seg_lookup a b d k : k < b - a → seg a b d !! k = d !! (a + k).
Proof. intros Hk. unfold seg. by rewrite lookup_take_lt, lookup_drop. Qed.

Lemma seg_length a b d : b ≤ length d → length (seg a b d) = b - a.
Proof. intros Hb. unfold seg. rewrite length_take, length_drop. lia. Qed.

Lemma seg_split a m b d : a ≤ m ≤ b → seg a b d = seg a m d ++ seg m b d.
Proof.
  intros Hm. unfold seg.
  replace (b - a) with ((m - a) + (b - m)) by lia.
  rewrite <-take_take_drop, drop_drop. do 3 f_equal. lia.
Qed.

Lemma seg_singleton m d p : d !! m = Some p → seg m (S m) d = [p].
Proof.
  intros Hp. unfold seg. replace (S m - m) with 1 by lia.
  apply list_eq. intros [|k].
  - rewrite lookup_take_lt, lookup_drop by lia. by rewrite Nat.add_0_r.
  - by rewrite lookup_take_ge by lia.
Qed.

Lemma seg_empty a d : seg a a d = [].
Proof. unfold seg. by rewrite Nat.sub_diag. Qed.

Lemma seg_whole d : seg 0 (length d) d = d.
Proof. unfold seg. by rewrite Nat.sub_0_r, drop_0, firstn_all. Qed.

Lemma seg_around a b d :
  a ≤ b → d = take a d ++ seg a b d ++ drop b d.
Proof.
  intros Hab. unfold seg.
  rewrite (assoc_L (++)), take_take_drop.
  replace (a + (b - a)) with b by lia. by rewrite take_drop.
Qed.

Lemma range_all_seg P a b d :
  b ≤ length d → range_all P a b d ↔ Forall P (seg a b d).
Proof.
  intros Hb. rewrite Forall_lookup. unfold range_all. split.
  - intros Hall k x Hk.
    assert (k < b - a).
    { apply lookup_lt_Some in Hk. rewrite seg_length in Hk; lia. }
    rewrite seg_lookup in Hk by done. eapply Hall; [|done]. lia.
  - intros Hall k x Hk Hx. apply (Hall (k - a)).
    rewrite seg_lookup by lia. by replace (a + (k - a)) with k by lia.
Qed.

Lemma range_all_mono P a b a' b' d :
  a ≤ a' → b' ≤ b → range_all P a b d → range_all P a' b' d.
Proof. intros ?? Hall k x ??. eapply Hall; [|done]. lia. Qed.

Lemma range_all_impl (P Q : Result → Prop) a b d :
  (∀ x, P x → Q x) → range_all P a b d → range_all Q a b d.
Proof. intros HPQ Hall k x ??. eapply HPQ, Hall; done. Qed.

Lemma range_perm_refl a b d : range_perm a b d d.
Proof. done. Qed.

Lemma range_perm_trans a b d1 d2 d3 :
  range_perm a b d1 d2 → range_perm a b d2 d3 → range_perm a b d1 d3.
Proof.
  intros (Hl1 & Hs1 & Hp1) (Hl2 & Hs2 & Hp2). split; [congruence|]. split.
  - intros k Hk. by rewrite Hs2, Hs1.
  - by rewrite Hp2.
Qed.

Lemma range_perm_mono a b a' b' d d' :
  a' ≤ a → b ≤ b' → range_perm a b d d' → range_perm a' b' d d'.
Proof.
  intros ?? (Hl & Hs & Hp). split; [done|]. split; [|done].
  intros k Hk. apply Hs. lia.
Qed.

Lemma range_perm_take a b d d' : range_perm a b d d' → take a d' = take a d.
Proof.
  intros (Hl & Hs & _). apply list_eq. intros k.
  destruct (decide (k < a)).
  - rewrite !lookup_take_lt by done. apply Hs. lia.
  - by rewrite !lookup_take_ge by lia.
Qed.

Lemma range_perm_drop a b d d' : range_perm a b d d' → drop b d' = drop b d.
Proof.
  intros (Hl & Hs & _). apply list_eq. intros k.
  rewrite !lookup_drop. apply Hs. lia.
Qed.

Lemma range_perm_seg a b d d' :
  a ≤ b → range_perm a b d d' → seg a b d' ≡ₚ seg a b d.
Proof.
  intros Hab Hrp. pose proof Hrp as (_ & _ & Hp).
  rewrite (seg_around a b d Hab), (seg_around a b d' Hab) in Hp.
  rewrite (range_perm_take a b d d'), (range_perm_drop a b d d') in Hp by done.
  apply (inj (app (take a d))) in Hp.
  by apply (inj (λ l, l ++ drop b d)) in Hp.
Qed.

Lemma range_perm_all P a b d d' :
  a ≤ b ≤ length d → range_perm a b d d' →
  range_all P a b d → range_all P a b d'.
Proof.
  intros Hab Hrp. pose proof Hrp as (Hl & _ & _).
  rewrite !range_all_seg by lia.
  by rewrite (range_perm_seg a b d d') by (done || lia).
Qed.

(** A rearrangement inside a part of a range keeps what holds of the
    whole range. *)
Lemma range_perm_all_within P a b a' b' d d' :
  a ≤ a' → a' ≤ b' → b' ≤ b → b ≤ length d → range_perm a' b' d d' →
  range_all P a b d → range_all P a b d'.
Proof.
  intros ???? Hrp. apply range_perm_all; [lia|].
  by apply (range_perm_mono a' b').
Qed.

(** A rearrangement outside a range leaves the range as it is. *)
Lemma range_perm_seg_outside a b a' b' d d' :
  (b' ≤ a ∨ b ≤ a') → range_perm a b d d' → seg a' b' d' = seg a' b' d.
Proof.
  intros Hout (Hl & Hs & _). apply list_eq. intros k.
  destruct (decide (k < b' - a')) as [Hk|Hk].
  - rewrite !seg_lookup by done. apply Hs. lia.
  - unfold seg. by rewrite !lookup_take_ge by lia.
Qed.

Lemma range_perm_lookup_outside a b d d' k :
  range_perm a b d d' → k < a ∨ b ≤ k → d' !! k = d !! k.
Proof. intros (_ & Hs & _). apply Hs. Qed.

Lemma range_perm_length a b d d' : range_perm a b d d' → length d' = length d.
Proof. by intros (? & _). Qed.

(** [Less] and [Swap] at indices of the slice. *)
Lemma Less_in_range d i j :
  i < length d → j < length d →
  ∃ x y, d !! i = Some x ∧ d !! j = Some y ∧ Less d i j = Some (less_entries x y).
Proof.
  intros [x Hx]%lookup_lt_is_Some_2 [y Hy]%lookup_lt_is_Some_2.
  exists x, y. by rewrite (Less_lookup d i j x y).
Qed.

Lemma Swap_Some d i j x y :
  d !! i = Some x → d !! j = Some y →
  Swap d i j = Some (<[j:=x]> (<[i:=y]> d)).
Proof. intros Hi Hj. unfold Swap. by rewrite Hi, Hj. Qed.

Lemma swapped_lookup d i j x y k :
  d !! i = Some x → d !! j = Some y →
  <[j:=x]> (<[i:=y]> d) !! k =
    if decide (k = j) then Some x else if decide (k = i) then Some y else d !! k.
Proof.
  intros Hi Hj.
  assert (i < length d) by (by eapply lookup_lt_Some).
  assert (j < length d) by (by eapply lookup_lt_Some).
  repeat case_decide; subst.
  - by rewrite list_lookup_insert_eq by (by rewrite length_insert).
  - rewrite list_lookup_insert_ne by done. by rewrite list_lookup_insert_eq.
  - by rewrite !list_lookup_insert_ne by done.
Qed.

Lemma swapped_perm d i j x y :
  d !! i = Some x → d !! j = Some y → <[j:=x]> (<[i:=y]> d) ≡ₚ d.
Proof.
  intros Hi Hj. apply Permutation_inj. split; [by rewrite !length_insert|].
  exists (λ k, if decide (k = j) then i else if decide (k = i) then j else k).
  split.
  - intros k1 k2. repeat case_decide; intros; simplify_eq; done.
  - intros k. rewrite (swapped_lookup d i j x y k) by done.
    repeat case_decide; subst; done.
Qed.

Lemma Swap_range_perm a b d i j :
  a ≤ i < b → a ≤ j < b → b ≤ length d →
  ∃ x y d',
    d !! i = Some x ∧ d !! j = Some y ∧
    Swap d i j = Some d' ∧ d' = <[j:=x]> (<[i:=y]> d) ∧
    range_perm a b d d'.
Proof.
  intros Hi Hj Hb.
  destruct (lookup_lt_is_Some_2 d i) as [x Hx]; [lia|].
  destruct (lookup_lt_is_Some_2 d j) as [y Hy]; [lia|].
  exists x, y, (<[j:=x]> (<[i:=y]> d)).
  split; [done|]. split; [done|]. split; [by apply Swap_Some|]. split; [done|].
  split; [by rewrite !length_insert|]. split.
  - intros k Hk. rewrite !list_lookup_insert_ne by lia. done.
  - by apply swapped_perm.
Qed.

Lemma sorts_before_total x y : sorts_before x y ∨ sorts_before y x.
Proof.
  destruct (less_entries x y) eqn:Hxy; [left; by apply less_entries_true|right; by apply less_entries_false].
Qed.

End ranges.

(** *** [insertionSort] *)

Section insertion.
Context `{!Net}.
#[local] Open Scope nat_scope.
Implicit Types (d pre p s : Results) (x y : Result).

(** A slice written as what stands before a range, the range, and what
    stands after it. *)
Lemma range_perm_parts pre mid mid' post :
  mid' ≡ₚ mid →
  range_perm (length pre) (length pre + length mid)
    (pre ++ mid ++ post) (pre ++ mid' ++ post).
Proof.
  intros Hp. pose proof (Permutation_length Hp) as Hl.
  split; [by rewrite !length_app, Hl|]. split; [|by rewrite Hp].
  intros k [Hk|Hk].
  - by rewrite !lookup_app_l by done.
  - rewrite !lookup_app_r by lia. by rewrite Hl.
Qed.

Lemma seg_parts pre mid post :
  seg (length pre) (length pre + length mid) (pre ++ mid ++ post) = mid.
Proof.
  unfold seg. rewrite drop_app_length.
  replace (length pre + length mid - length pre) with (length mid) by lia.
  by rewrite take_app_length.
Qed.

Lemma insertion_inner_range pre p x s :
  ∃ p1 p2, p = p1 ++ p2 ∧
    insertion_inner ((pre ++ p) ++ x :: s) (length pre) (length pre + length p)
      = Some ((pre ++ p1) ++ x :: p2 ++ s) ∧
    Forall (λ y, less_entries x y = true) p2 ∧
    (∀ q y, p1 = q ++ [y] → less_entries x y = false).
Proof.
  revert s. induction p as [|y p IH] using rev_ind; intros s.
  - exists [], []. split; [done|]. split; [|split; [constructor|by intros [] ? ?]].
    rewrite Nat.add_0_r. destruct (length pre) eqn:Hpre; simpl; [done|].
    by rewrite decide_False by lia.
  - rewrite length_app. simpl.
    replace (length pre + (length p + 1)) with (S (length (pre ++ p)))
      by (rewrite length_app; lia).
    cbn [insertion_inner]. rewrite decide_True by (rewrite length_app; lia).
    rewrite (assoc_L (++) pre p [y]), <-(assoc_L (++) (pre ++ p) [y]). simpl.
    rewrite (Less_lookup _ _ _ x y); cycle 1.
    { apply lookup_after_prefix. }
    { by rewrite list_lookup_middle. }
    simpl. destruct (less_entries x y) eqn:Hxy.
    + rewrite Swap_adjacent. simpl.
      replace (length (pre ++ p)) with (length pre + length p)
        by (by rewrite length_app).
      destruct (IH (y :: s)) as (p1 & p2 & -> & Hrun & Hp2 & Hp1).
      exists p1, (p2 ++ [y]). split; [by rewrite (assoc_L (++))|].
      split; [|split; [|done]].
      * rewrite Hrun. by rewrite <-(assoc_L (++) p2).
      * apply Forall_app. split; [done|]. by constructor.
    + exists (p ++ [y]), []. split; [by rewrite (right_id_L [] (++))|].
      split; [|split; [constructor|]].
      * by rewrite (assoc_L (++) pre p [y]), <-(assoc_L (++) (pre ++ p) [y]).
      * intros q z [-> ->]%app_inj_tail. done.
Qed.

Lemma insert_sorted p1 p2 x :
  StronglySorted sorts_before (p1 ++ p2) →
  Forall (λ y, less_entries x y = true) p2 →
  (∀ q y, p1 = q ++ [y] → less_entries x y = false) →
  StronglySorted sorts_before (p1 ++ x :: p2).
Proof.
  intros Hp Hp2 Hp1.
  apply StronglySorted_app in Hp as (Hcross & Hs1 & Hs2).
  apply StronglySorted_app_2; [|done|].
  - intros a0 b0 Ha [->|Hb]%elem_of_cons; [|by apply Hcross].
    destruct p1 as [|z q _] using rev_ind; [by apply elem_of_nil in Ha|].
    assert (sorts_before z x) as Hzb
      by (apply less_entries_false; by eapply Hp1).
    apply elem_of_app in Ha as [Ha|Ha]; [|by apply list_elem_of_singleton in Ha as ->].
    transitivity z; [|done].
    apply StronglySorted_app in Hs1 as (Hq & _ & _).
    apply Hq; [done|]. by apply list_elem_of_singleton.
  - constructor; [done|].
    eapply Forall_impl; [exact Hp2|]. intros ?. apply less_entries_true.
Qed.

Lemma insertion_outer_range pre p s post :
  StronglySorted sorts_before p →
  ∃ out,
    insertion_outer (pre ++ (p ++ s) ++ post) (length pre)
      (length pre + length p) (length s) = Some (pre ++ out ++ post) ∧
    out ≡ₚ p ++ s ∧ StronglySorted sorts_before out.
Proof.
  revert p. induction s as [|x s IH]; intros p Hp.
  - exists p. by rewrite (right_id_L [] (++)).
  - cbn [length insertion_outer].
    destruct (insertion_inner_range pre p x (s ++ post))
      as (p1 & p2 & -> & Hrun & Hp2 & Hp1).
    replace (pre ++ ((p1 ++ p2) ++ x :: s) ++ post)
      with ((pre ++ p1 ++ p2) ++ x :: s ++ post)
      by (by rewrite <-!(assoc_L (++))).
    rewrite Hrun. simpl.
    destruct (IH (p1 ++ x :: p2)) as (out & Hrun' & Hout & Hsorted).
    { by apply insert_sorted. }
    exists out. split; [|split; [|done]].
    + rewrite <-Hrun'. f_equal.
      * by rewrite <-!(assoc_L (++)).
      * rewrite !length_app. simpl. lia.
    + rewrite Hout. rewrite <-!(assoc_L (++)). simpl.
      by rewrite Permutation_middle.
Qed.

(** [insertionSort] sorts the range and touches nothing else. *)
Lemma insertionSort_spec a b d :
  a ≤ b ≤ length d →
  ∃ d', insertionSort d a b = Some d' ∧ range_perm a b d d' ∧ sorted_range a b d'.
Proof.
  intros Hab. unfold insertionSort.
  destruct (seg a b d) as [|x mid] eqn:Hseg.
  - assert (b = a) as ->.
    { apply (f_equal length) in Hseg. rewrite seg_length in Hseg by lia.
      simpl in Hseg. lia. }
    replace (a - S a) with 0 by lia. simpl. exists d.
    split; [done|]. split; [done|]. unfold sorted_range. rewrite seg_empty. constructor.
  - pose proof (seg_around a b d (proj1 Hab)) as Hd. rewrite Hseg in Hd.
    assert (length (take a d) = a) as Hpre by (rewrite length_take; lia).
    assert (b - a = S (length mid)) as Hlen.
    { apply (f_equal length) in Hseg. rewrite seg_length in Hseg by lia. done. }
    remember (take a d) as pre eqn:Epre. remember (drop b d) as post eqn:Epost.
    clear Epre Epost Hseg. subst d a.
    destruct (insertion_outer_range pre [x] mid post)
      as (out & Hrun & Hout & Hsorted); [repeat constructor|].
    simpl in Hrun.
    replace (b - S (length pre)) with (length mid) by lia.
    replace (S (length pre)) with (length pre + 1) by lia.
    simpl. rewrite Hrun.
    eexists. split; [done|].
    pose proof (Permutation_length Hout) as Hl. simpl in Hl.
    replace b with (length pre + length (x :: mid)) by (simpl; lia).
    split.
    + by apply (range_perm_parts pre (x :: mid) out post).
    + unfold sorted_range. simpl. rewrite <-Hl. by rewrite seg_parts.
Qed.
End insertion.

(** *** [reverseRange], [breakPatterns] and [choosePivot] *)

Section helpers.
Context `{!Net}.
#[local] Open Scope nat_scope.
Implicit Types (d : Results) (x y : Result).

Lemma reverse_loop_spec a b fuel d i j :
  a ≤ i → (i < j → j < b) → b ≤ length d → j - i < fuel →
  ∃ d', reverse_loop fuel d i j = Some d' ∧ range_perm a b d d'.
Proof.
  revert d i j. induction fuel as [|fuel IH]; intros d i j Hi Hj Hb Hfuel; [lia|].
  simpl. case_decide as Hij; [|by exists d].
  destruct (Swap_range_perm a b d i j) as (x & y & d1 & _ & _ & -> & _ & Hp1);
    [lia..|].
  simpl. destruct (IH d1 (i + 1) (j - 1)) as (d2 & -> & Hp2); [lia..| |lia|].
  { by rewrite (range_perm_length a b d d1). }
  exists d2. split; [done|]. by eapply range_perm_trans.
Qed.

Lemma reverseRange_spec a b d :
  a ≤ b ≤ length d →
  ∃ d', reverseRange d a b = Some d' ∧ range_perm a b d d'.
Proof.
  intros Hab. unfold reverseRange. apply reverse_loop_spec; lia.
Qed.

Lemma bits_Len_bound l : 0 < l → 2 ^ bits_Len l ≤ 2 * l.
Proof.
  intros Hl. unfold bits_Len. destruct l as [|l]; [lia|].
  rewrite Nat.pow_succ_r'. pose proof (Nat.log2_spec (S l)). lia.
Qed.

Lemma other_in_range (random : Z) (l : nat) :
  0 < l →
  let other := Z.to_nat (Z.land random (nextPowerOfTwo l - 1)) in
  (if decide (l ≤ other) then other - l else other) < l.
Proof.
  intros Hl other.
  assert (other < 2 * l).
  { unfold other, nextPowerOfTwo.
    change (Z.shiftl 1 (Z.of_nat (bits_Len l)) - 1)%Z
      with (Z.pred (Z.shiftl 1 (Z.of_nat (bits_Len l)))).
    fold (Z.ones (Z.of_nat (bits_Len l))).
    rewrite Z.land_ones by lia.
    pose proof (bits_Len_bound l Hl).
    pose proof (Z.mod_pos_bound random (2 ^ Z.of_nat (bits_Len l))) as Hm.
    assert (2 ^ Z.of_nat (bits_Len l) = Z.of_nat (2 ^ bits_Len l))%Z as Hpow.
    { rewrite Nat2Z.inj_pow. done. }
    rewrite Hpow in *. lia. }
  case_decide; lia.
Qed.

Lemma break_swaps_spec a b n d random modulus idx :
  modulus = nextPowerOfTwo (b - a) →
  a < idx → idx + 1 < b → b ≤ length d → n ≤ 3 →
  ∃ d', break_swaps n d random modulus idx a (b - a) = Some d' ∧ range_perm a b d d'.
Proof.
  intros -> Hidx Hidx' Hb. revert d random Hb.
  induction n as [|n IH]; intros d random Hb Hn; [by exists d|].
  cbn [break_swaps].
  pose proof (other_in_range (xorshift_Next random) (b - a)) as Hother.
  cbv zeta in Hother. specialize (Hother ltac:(lia)).
  destruct (Swap_range_perm a b d (idx - 1 + (3 - S n))
              (a + (if decide (b - a ≤ Z.to_nat (Z.land (xorshift_Next random)
                                                  (nextPowerOfTwo (b - a) - 1)))
                    then Z.to_nat (Z.land (xorshift_Next random)
                                     (nextPowerOfTwo (b - a) - 1)) - (b - a)
                    else Z.to_nat (Z.land (xorshift_Next random)
                                     (nextPowerOfTwo (b - a) - 1)))))
    as (x & y & d1 & _ & _ & -> & _ & Hp1); [lia..|].
  simpl. destruct (IH d1 (xorshift_Next random)) as (d2 & -> & Hp2); [|lia|].
  { by rewrite (range_perm_length a b d d1). }
  exists d2. split; [done|]. by eapply range_perm_trans.
Qed.

Lemma breakPatterns_spec a b d :
  a ≤ b ≤ length d →
  ∃ d', breakPatterns d a b = Some d' ∧ range_perm a b d d'.
Proof.
  intros Hab. unfold breakPatterns. case_decide as Hl; [|by exists d].
  assert (2 ≤ (b - a) / 4) by (apply Nat.div_le_lower_bound; lia).
  assert ((b - a) / 4 * 4 ≤ b - a).
  { pose proof (Nat.div_mod_eq (b - a) 4). lia. }
  apply break_swaps_spec; [done|lia..].
Qed.

Lemma order2_spec d i j swaps :
  i < length d → j < length d →
  ∃ i' j' swaps', order2 d i j swaps = Some (i', j', swaps') ∧
    (i' = i ∨ i' = j) ∧ (j' = i ∨ j' = j).
Proof.
  intros Hi Hj. unfold order2.
  destruct (Less_in_range d j i Hj Hi) as (x & y & _ & _ & ->). simpl.
  destruct (less_entries x y); eauto 10.
Qed.

Lemma median_spec d i j k swaps :
  i < length d → j < length d → k < length d →
  ∃ m swaps', median d i j k swaps = Some (m, swaps') ∧ (m = i ∨ m = j ∨ m = k).
Proof.
  intros Hi Hj Hk. unfold median.
  destruct (order2_spec d i j swaps Hi Hj) as (i1 & j1 & s1 & -> & Hi1 & Hj1).
  simpl.
  destruct (order2_spec d j1 k s1) as (j2 & k2 & s2 & -> & Hj2 & Hk2); [lia..|].
  simpl.
  destruct (order2_spec d i1 j2 s2) as (i3 & j3 & s3 & -> & Hi3 & Hj3); [lia..|].
  simpl. exists j3, s3. split; [done|]. lia.
Qed.

Lemma choosePivot_spec a b d :
  8 ≤ b - a → b ≤ length d →
  ∃ pivot hint, choosePivot d a b = Some (pivot, hint) ∧ a ≤ pivot < b.
Proof.
  intros Hl Hb. unfold choosePivot, medianAdjacent. rewrite decide_True by done.
  assert (2 ≤ (b - a) / 4) by (apply Nat.div_le_lower_bound; lia).
  assert ((b - a) / 4 * 4 ≤ b - a).
  { pose proof (Nat.div_mod_eq (b - a) 4). lia. }
  set (i0 := a + (b - a) / 4 * 1). set (j0 := a + (b - a) / 4 * 2).
  set (k0 := a + (b - a) / 4 * 3).
  assert (a < i0 ∧ i0 < j0 ∧ j0 < k0 ∧ k0 + 1 < b) as Hidx by (unfold i0, j0, k0; lia).
  clearbody i0 j0 k0.
  case_decide.
  - destruct (median_spec d (i0 - 1) i0 (i0 + 1) 0) as (i & s1 & -> & Hi); [lia..|].
    cbn [mbind option_bind].
    destruct (median_spec d (j0 - 1) j0 (j0 + 1) s1) as (j & s2 & -> & Hj); [lia..|].
    cbn [mbind option_bind].
    destruct (median_spec d (k0 - 1) k0 (k0 + 1) s2) as (k & s3 & -> & Hk); [lia..|].
    cbn [mbind option_bind].
    destruct (median_spec d i j k s3) as (m & s4 & -> & Hm); [lia..|].
    cbn [mbind option_bind]. eexists _, _. split; [done|]. lia.
  - cbn [mbind option_bind].
    destruct (median_spec d i0 j0 k0 0) as (m & s4 & -> & Hm); [lia..|].
    cbn [mbind option_bind]. eexists _, _. split; [done|]. lia.
Qed.
End helpers.

(** *** The loop of [partition] and [partitionEqual] *)

Section scans.
Context `{!Net}.
#[local] Open Scope nat_scope.
Implicit Types (d : Results) (x y p : Result).

Lemma scan_up_spec (test : nat → option bool) (t : nat → bool) fuel i j :
  i ≤ S j →
  (∀ k, i ≤ k ≤ j → test k = Some (t k)) →
  S j - i < fuel →
  ∃ i', scan_up fuel test i j = Some i' ∧ i ≤ i' ≤ S j ∧
        (∀ k, i ≤ k < i' → t k = true) ∧ (i' ≤ j → t i' = false).
Proof.
  revert i. induction fuel as [|fuel IH]; intros i Hle Htest Hfuel; [lia|].
  simpl. case_decide as Hij; [|exists i; repeat split; [lia..|]; lia].
  rewrite Htest by lia. simpl. destruct (t i) eqn:Hti.
  - destruct (IH (i + 1)) as (i' & -> & Hi' & Hall & Hstop); [lia| |lia|].
    { intros k Hk. apply Htest. lia. }
    exists i'. split; [done|]. split; [lia|]. split; [|done].
    intros k Hk. destruct (decide (k = i)) as [->|]; [done|]. apply Hall. lia.
  - exists i. split; [done|]. split; [lia|]. split; [lia|done].
Qed.

Lemma scan_down_spec (test : nat → option bool) (t : nat → bool) fuel i j :
  0 < i → i ≤ S j →
  (∀ k, i ≤ k ≤ j → test k = Some (t k)) →
  S j - i < fuel →
  ∃ j', scan_down fuel test i j = Some j' ∧ i ≤ S j' ∧ j' ≤ j ∧
        (∀ k, j' < k ≤ j → t k = true) ∧ (i ≤ j' → t j' = false).
Proof.
  intros Hi. revert j. induction fuel as [|fuel IH]; intros j Hle Htest Hfuel; [lia|].
  simpl. case_decide as Hij; [|exists j; repeat split; [lia..|]; lia].
  rewrite Htest by lia. simpl. destruct (t j) eqn:Htj.
  - destruct (IH (j - 1)) as (j' & -> & Hj' & Hj'' & Hall & Hstop); [lia| |lia|].
    { intros k Hk. apply Htest. lia. }
    exists j'. split; [done|]. split; [lia|]. split; [lia|]. split; [|done].
    intros k Hk. destruct (decide (k = j)) as [->|]; [done|]. apply Hall. lia.
  - exists j. split; [done|]. split; [lia|]. split; [lia|]. split; [lia|done].
Qed.

Section loop.
Variable a b : nat.
Variable U : Result → Result → bool.
Variable up down : Results → nat → option bool.
Hypothesis up_spec : ∀ d k x p,
  d !! k = Some x → d !! a = Some p → up d k = Some (U p x).
Hypothesis down_spec : ∀ d k x p,
  d !! k = Some x → d !! a = Some p → down d k = Some (negb (U p x)).

Lemma partition_loop_spec fuel d p i j :
  a < i → j < b → i ≤ S j → b ≤ length d → d !! a = Some p →
  split_at a b U p d i j → S j - i < fuel →
  ∃ d' m,
    partition_loop fuel up down d i j = Some (d', S m, m) ∧
    a ≤ m < b ∧ range_perm (a + 1) b d d' ∧ split_at a b U p d' (S m) m.
Proof.
  revert d i j. induction fuel as [|fuel IH];
    intros d i j Hi Hj Hij Hb Hp [Hlow Hhigh] Hfuel; [lia|].
  cbn [partition_loop].
  set (value k := default p (d !! k)).
  assert (∀ k, k < length d → d !! k = Some (value k)) as Hvalue.
  { intros k [x Hx]%lookup_lt_is_Some_2. unfold value. by rewrite Hx. }
  destruct (scan_up_spec (up d) (λ k, U p (value k)) (S (S j - i)) i j)
    as (i' & -> & Hi' & Hup & Hupstop); [lia| |lia|].
  { intros k Hk. apply up_spec; [|done]. apply Hvalue. lia. }
  cbn [mbind option_bind].
  destruct (scan_down_spec (down d) (λ k, negb (U p (value k))) (S (S j - i')) i' j)
    as (j' & -> & Hj' & Hj'' & Hdown & Hdownstop); [lia|lia| |lia|].
  { intros k Hk. apply down_spec; [|done]. apply Hvalue. lia. }
  cbn [mbind option_bind].
  assert (split_at a b U p d i' j') as [Hlow' Hhigh'].
  { split.
    - intros k x Hk Hx. destruct (decide (k < i)) as [|Hge].
      + eapply Hlow; [|done]. lia.
      + specialize (Hup k ltac:(lia)). rewrite Hvalue in Hx by lia.
        by simplify_eq.
    - intros k x Hk Hx. destruct (decide (j < k)) as [|Hle].
      + eapply Hhigh; [|done]. lia.
      + specialize (Hdown k ltac:(lia)). rewrite Hvalue in Hx by lia.
        simplify_eq. by apply negb_true_iff in Hdown. }
  case_decide as Hbreak.
  - assert (i' = S j') as -> by lia.
    exists d, j'. split; [done|]. split; [lia|]. split; [done|]. done.
  - destruct (Swap_range_perm (a + 1) b d i' j')
      as (x & y & d1 & Hx & Hy & -> & -> & Hp1); [lia..|].
    cbn [mbind option_bind].
    specialize (Hupstop ltac:(lia)). specialize (Hdownstop ltac:(lia)).
    rewrite Hvalue in Hx, Hy by lia. simplify_eq.
    apply negb_false_iff in Hdownstop.
    assert (i' < j').
    { destruct (decide (i' = j')) as [Heq|]; [|lia].
      rewrite Heq in Hupstop. congruence. }
    destruct (IH (<[j':=value i']> (<[i':=value j']> d)) (i' + 1) (j' - 1))
      as (d2 & m & -> & Hm & Hp2 & Hsplit); [lia..| | | |lia|].
    { by rewrite !length_insert. }
    { rewrite !list_lookup_insert_ne by lia. done. }
    { split.
      - intros k x Hk Hx.
        rewrite (swapped_lookup d i' j' (value i') (value j')) in Hx
          by (apply Hvalue; lia).
        repeat case_decide; simplify_eq; try lia; try done.
        eapply Hlow'; [|done]. lia.
      - intros k x Hk Hx.
        rewrite (swapped_lookup d i' j' (value i') (value j')) in Hx
          by (apply Hvalue; lia).
        repeat case_decide; simplify_eq; try lia; try done.
        eapply Hhigh'; [|done]. lia. }
    exists d2, m. split; [done|]. split; [lia|]. split; [|done].
    by eapply range_perm_trans.
Qed.
End loop.
End scans.

(** *** [partition] and [partitionEqual] *)

Section partitions.
Context `{!Net}.
#[local] Open Scope nat_scope.
Implicit Types (d : Results) (x y p : Result).

Lemma partition_up d a k x p :
  d !! k = Some x → d !! a = Some p → Less d k a = Some (less_than p x).
Proof. apply Less_lookup. Qed.

Lemma partition_down d a k x p :
  d !! k = Some x → d !! a = Some p →
  negb <$> Less d k a = Some (negb (less_than p x)).
Proof. intros Hk Ha. by rewrite (Less_lookup d k a x p). Qed.

Lemma partitionEqual_up d a k x p :
  d !! k = Some x → d !! a = Some p →
  negb <$> Less d a k = Some (not_greater p x).
Proof. intros Hk Ha. by rewrite (Less_lookup d a k p x). Qed.

Lemma partitionEqual_down d a k x p :
  d !! k = Some x → d !! a = Some p →
  Less d a k = Some (negb (not_greater p x)).
Proof.
  intros Hk Ha. rewrite (Less_lookup d a k p x) by done.
  unfold not_greater. by rewrite negb_involutive.
Qed.

(** The pivot goes from [a] to [m], between the two parts. *)
Lemma pivot_to_middle U a b d p m :
  a ≤ m < b → b ≤ length d → d !! a = Some p →
  split_at a b U p d (S m) m →
  ∃ d', Swap d m a = Some d' ∧ range_perm a b d d' ∧ d' !! m = Some p ∧
        range_all (λ x, U p x = true) a m d' ∧
        range_all (λ x, U p x = false) (S m) b d'.
Proof.
  intros Hm Hb Hp [Hlow Hhigh].
  destruct (Swap_range_perm a b d m a) as (x & y & d' & Hx & Hy & -> & -> & Hperm);
    [lia..|].
  simplify_eq. exists (<[a:=x]> (<[m:=p]> d)).
  split; [done|]. split; [done|].
  assert (∀ k, <[a:=x]> (<[m:=p]> d) !! k =
               if decide (k = a) then Some x
               else if decide (k = m) then Some p else d !! k) as Hlookup.
  { intros k. by apply swapped_lookup. }
  split; [|split].
  - rewrite Hlookup. repeat case_decide; subst; try done. congruence.
  - intros k z Hk. rewrite Hlookup. repeat case_decide; subst; try lia.
    + intros [= <-]. eapply Hlow; [|done]. lia.
    + intros Hz. eapply Hlow; [|done]. lia.
  - intros k z Hk. rewrite Hlookup. repeat case_decide; subst; try lia.
    intros Hz. eapply Hhigh; [|done]. lia.
Qed.

Lemma partition_spec a b d pivot p :
  a ≤ pivot < b → b ≤ length d → d !! pivot = Some p →
  ∃ d' mid already,
    partition d a b pivot = Some (d', mid, already) ∧
    a ≤ mid < b ∧ range_perm a b d d' ∧ d' !! mid = Some p ∧
    range_all (λ x, less_entries x p = true) a mid d' ∧
    range_all (λ x, less_entries x p = false) (S mid) b d'.
Proof.
  intros Hpivot Hb Hp. unfold partition. cbv beta zeta.
  destruct (Swap_range_perm a b d a pivot)
    as (x & y & d1 & Hx & Hy & -> & Hd1 & Hperm1); [lia..|].
  simplify_eq. cbn [mbind option_bind].
  set (d1 := <[pivot:=x]> (<[a:=p]> d)) in *.
  assert (d1 !! a = Some p) as Ha.
  { unfold d1. rewrite (swapped_lookup d a pivot x p) by done.
    repeat case_decide; subst; congruence. }
  assert (length d1 = length d) as Hlen by (by rewrite (range_perm_length a b d d1)).
  set (value k := default p (d1 !! k)).
  assert (∀ k, k < length d → d1 !! k = Some (value k)) as Hvalue.
  { intros k Hk. rewrite <-Hlen in Hk. apply lookup_lt_is_Some_2 in Hk as [z Hz].
    unfold value. by rewrite Hz. }
  destruct (scan_up_spec (λ k, Less d1 k a) (λ k, less_than p (value k))
              (S (b - a)) (a + 1) (b - 1))
    as (i & -> & Hi & Hup & Hupstop); [lia| |lia|].
  { intros k Hk. apply partition_up; [|done]. apply Hvalue. lia. }
  cbn [mbind option_bind].
  destruct (scan_down_spec (λ k, negb <$> Less d1 k a)
              (λ k, negb (less_than p (value k))) (S (b - a)) i (b - 1))
    as (j & -> & Hj & Hj' & Hdown & Hdownstop); [lia|lia| |lia|].
  { intros k Hk. apply partition_down; [|done]. apply Hvalue. lia. }
  cbn [mbind option_bind].
  assert (split_at a b less_than p d1 i j) as Hsplit.
  { split.
    - intros k z Hk Hz. specialize (Hup k ltac:(lia)).
      rewrite Hvalue in Hz by lia. by simplify_eq.
    - intros k z Hk Hz. specialize (Hdown k ltac:(lia)).
      rewrite Hvalue in Hz by lia. simplify_eq. by apply negb_true_iff in Hdown. }
  case_decide as Hbreak.
  - assert (i = S j) as -> by lia.
    destruct (pivot_to_middle less_than a b d1 p j)
      as (d2 & -> & Hperm2 & Hmid & Hlow & Hhigh); [lia..|done|done|].
    cbn [mbind option_bind]. exists d2, j, true. split; [done|].
    split; [lia|]. split; [by eapply range_perm_trans|]. done.
  - specialize (Hupstop ltac:(lia)). specialize (Hdownstop ltac:(lia)).
    apply negb_false_iff in Hdownstop.
    assert (i < j).
    { destruct (decide (i = j)) as [Heq|]; [|lia].
      rewrite Heq in Hupstop. congruence. }
    destruct (Swap_range_perm (a + 1) b d1 i j)
      as (xi & xj & d2 & Hxi & Hxj & -> & Hd2 & Hperm2); [lia..|].
    rewrite (Hvalue i) in Hxi by lia. rewrite (Hvalue j) in Hxj by lia.
    simplify_eq. cbn [mbind option_bind].
    set (d2 := <[j:=value i]> (<[i:=value j]> d1)) in *.
    destruct Hsplit as [Hlow Hhigh].
    destruct (partition_loop_spec a b less_than
                (λ d k, Less d k a) (λ d k, negb <$> Less d k a)
                (λ d k x p, partition_up d a k x p)
                (λ d k x p, partition_down d a k x p)
                (S (b - a)) d2 p (i + 1) (j - 1))
      as (d3 & m & Hrun & Hm & Hperm3 & Hsplit3); [lia..| | | |lia|].
    { rewrite (range_perm_length (a + 1) b d1 d2) by done. lia. }
    { rewrite (range_perm_lookup_outside (a + 1) b d1 d2) by (done || lia). done. }
    { split.
      - intros k z Hk Hz. unfold d2 in Hz.
        rewrite (swapped_lookup d1 i j (value i) (value j)) in Hz
          by (apply Hvalue; lia).
        repeat case_decide; simplify_eq; try lia; try done.
        eapply Hlow; [|done]. lia.
      - intros k z Hk Hz. unfold d2 in Hz.
        rewrite (swapped_lookup d1 i j (value i) (value j)) in Hz
          by (apply Hvalue; lia).
        repeat case_decide; simplify_eq; try lia; try done.
        eapply Hhigh; [|done]. lia. }
    rewrite Hrun. cbn [mbind option_bind].
    assert (range_perm a b d d3) as Hperm.
    { eapply range_perm_trans; [done|].
      eapply (range_perm_mono (a + 1) b); [lia|done|].
      by eapply range_perm_trans. }
    destruct (pivot_to_middle less_than a b d3 p m)
      as (d4 & -> & Hperm4 & Hmid & Hlow4 & Hhigh4); [lia| | |done|].
    { by rewrite (range_perm_length a b d d3). }
    { rewrite (range_perm_lookup_outside (a + 1) b d2 d3) by (done || lia).
      rewrite (range_perm_lookup_outside (a + 1) b d1 d2) by (done || lia). done. }
    cbn [mbind option_bind]. exists d4, m, false. split; [done|].
    split; [lia|]. split; [by eapply range_perm_trans|]. done.
Qed.

Lemma partitionEqual_spec a b d pivot p :
  a ≤ pivot < b → b ≤ length d → d !! pivot = Some p →
  ∃ d' mid,
    partitionEqual d a b pivot = Some (d', mid) ∧
    a < mid ≤ b ∧ range_perm a b d d' ∧ d' !! a = Some p ∧
    range_all (λ x, less_entries p x = false) (a + 1) mid d' ∧
    range_all (λ x, less_entries p x = true) mid b d'.
Proof.
  intros Hpivot Hb Hp. unfold partitionEqual. cbv beta zeta.
  destruct (Swap_range_perm a b d a pivot)
    as (x & y & d1 & Hx & Hy & -> & Hd1 & Hperm1); [lia..|].
  simplify_eq. cbn [mbind option_bind].
  set (d1 := <[pivot:=x]> (<[a:=p]> d)) in *.
  assert (d1 !! a = Some p) as Ha.
  { unfold d1. rewrite (swapped_lookup d a pivot x p) by done.
    repeat case_decide; subst; congruence. }
  destruct (partition_loop_spec a b not_greater
              (λ d k, negb <$> Less d a k) (λ d k, Less d a k)
              (λ d k x p, partitionEqual_up d a k x p)
              (λ d k x p, partitionEqual_down d a k x p)
              (S (b - a)) d1 p (a + 1) (b - 1))
    as (d2 & m & Hrun & Hm & Hperm2 & [Hlow Hhigh]); [lia..| |done| |lia|].
  { by rewrite (range_perm_length a b d d1). }
  { split; intros k z Hk; lia. }
  rewrite Hrun. cbn [mbind option_bind]. exists d2, (S m). split; [done|]. split; [lia|].
  split; [|split; [|split]].
  - eapply range_perm_trans; [done|]. by eapply (range_perm_mono (a + 1) b); [lia|..].
  - by rewrite (range_perm_lookup_outside (a + 1) b d1 d2) by (done || lia).
  - eapply range_all_impl; [|exact Hlow]. intros z. unfold not_greater.
    by intros ?%negb_true_iff.
  - eapply range_all_impl; [|exact Hhigh]. intros z. unfold not_greater.
    by intros ?%negb_false_iff.
Qed.
End partitions.

(** *** [partialInsertionSort] *)

Section partial.
Context `{!Net}.
#[local] Open Scope nat_scope.
Implicit Types (d : Results) (x y p q : Result).

Lemma pred_ok_perm a b d d' :
  a ≤ b ≤ length d → range_perm a b d d' → pred_ok a b d → pred_ok a b d'.
Proof.
  intros Hab Hperm Hpred Ha. destruct (Hpred Ha) as (q & Hq & Hall).
  exists q. split; [|by eapply range_perm_all].
  by rewrite (range_perm_lookup_outside a b d d') by (done || lia).
Qed.

Lemma pred_ok_mono a b b' d : b' ≤ b → pred_ok a b d → pred_ok a b' d.
Proof.
  intros Hb Hpred Ha. destruct (Hpred Ha) as (q & Hq & Hall).
  exists q. split; [done|]. eapply range_all_mono; [| |done]; lia.
Qed.

Lemma sorted_range_mono a b a' b' d :
  a ≤ a' → a' ≤ b' → b' ≤ b → sorted_range a b d → sorted_range a' b' d.
Proof.
  unfold sorted_range. intros Ha Hab Hb.
  rewrite (seg_split a a' b) by lia. rewrite (seg_split a' b' b) by lia.
  intros (_ & _ & (_ & Hs & _)%StronglySorted_app)%StronglySorted_app. done.
Qed.

Lemma sorted_range_outside a b a' b' d d' :
  (b' ≤ a ∨ b ≤ a') → range_perm a b d d' →
  sorted_range a' b' d → sorted_range a' b' d'.
Proof.
  intros Hout Hperm. unfold sorted_range.
  by rewrite (range_perm_seg_outside a b a' b' d d').
Qed.

Lemma sorted_range_snoc a i d x y :
  a < i → d !! (i - 1) = Some x → d !! i = Some y → sorts_before x y →
  sorted_range a i d → sorted_range a (S i) d.
Proof.
  intros Ha Hx Hy Hxy Hs. unfold sorted_range in *.
  rewrite (seg_split a i (S i)) by lia. rewrite (seg_singleton i d y) by done.
  apply StronglySorted_app_2; [|done|repeat constructor].
  intros z ? Hz ->%list_elem_of_singleton.
  apply list_elem_of_lookup in Hz as [k Hk].
  assert (k < i - a) as Hlt.
  { apply lookup_lt_Some in Hk. rewrite seg_length in Hk; [done|].
    apply lookup_lt_Some in Hy. lia. }
  destruct (decide (k = i - 1 - a)) as [->|Hne].
  - rewrite seg_lookup in Hk by lia.
    replace (a + (i - 1 - a)) with (i - 1) in Hk by lia. by simplify_eq.
  - transitivity x; [|done].
    eapply (StronglySorted_lookup_lt _ _ k (i - 1 - a)); [done|done| |lia].
    rewrite seg_lookup by lia. by replace (a + (i - 1 - a)) with (i - 1) by lia.
Qed.

Lemma sorted_range_extend a i i' d :
  a < i → i ≤ i' → i' ≤ length d → sorted_range a i d →
  (∀ k x y, i ≤ k < i' → d !! (k - 1) = Some x → d !! k = Some y →
            less_entries y x = false) →
  sorted_range a i' d.
Proof.
  intros Ha Hi. induction Hi as [|i' Hi IH]; intros Hlen Hs Hadj; [done|].
  destruct (lookup_lt_is_Some_2 d (i' - 1)) as [x Hx]; [lia|].
  destruct (lookup_lt_is_Some_2 d i') as [y Hy]; [lia|].
  apply (sorted_range_snoc a i' d x y); [lia|done|done| |].
  - apply less_entries_false. eapply (Hadj i'); [lia|done..].
  - apply IH; [lia|done|]. intros k x' y' Hk. apply Hadj. lia.
Qed.

Lemma scan_ordered_spec fuel d i b :
  0 < i → i ≤ b ≤ length d → b - i < fuel →
  ∃ i', scan_ordered fuel d i b = Some i' ∧ i ≤ i' ≤ b ∧
    (∀ k x y, i ≤ k < i' → d !! (k - 1) = Some x → d !! k = Some y →
              less_entries y x = false) ∧
    (i' < b → ∃ x y, d !! (i' - 1) = Some x ∧ d !! i' = Some y ∧
                     less_entries y x = true).
Proof.
  revert i. induction fuel as [|fuel IH]; intros i Hi Hib Hfuel; [lia|].
  simpl. case_decide as Hlt.
  - destruct (Less_in_range d i (i - 1)) as (y & x & Hy & Hx & ->); [lia..|].
    simpl. destruct (less_entries y x) eqn:Hyx.
    + exists i. split; [done|]. split; [lia|]. split; [intros; lia|].
      intros _. by exists x, y.
    + destruct (IH (i + 1)) as (i' & -> & Hi' & Hall & Hstop); [lia..|].
      exists i'. split; [done|]. split; [lia|]. split; [|done].
      intros k x' y' Hk Hx' Hy'.
      destruct (decide (k = i)) as [->|]; [by simplify_eq|].
      eapply Hall; [|done..]. lia.
  - exists i. split; [done|]. split; [lia|]. split; intros; lia.
Qed.

Lemma insertion_inner_at a d : insertion_inner d a a = Some d.
Proof. destruct a; simpl; [done|]. by rewrite decide_False by lia. Qed.

(** One round of insertion, by positions. *)
Lemma insertion_inner_sorts a j d :
  a ≤ j < length d → sorted_range a j d →
  ∃ d', insertion_inner d a j = Some d' ∧ range_perm a (S j) d d' ∧
        sorted_range a (S j) d'.
Proof.
  intros Haj Hs. destruct (lookup_lt_is_Some_2 d j) as [x Hx]; [lia|].
  pose proof (seg_around a (S j) d ltac:(lia)) as Hd.
  rewrite (seg_split a j (S j)) in Hd by lia.
  rewrite (seg_singleton j d x) in Hd by done.
  unfold sorted_range in Hs.
  assert (length (take a d) = a) as Hpre by (rewrite length_take; lia).
  assert (length (seg a j d) = j - a) as Hmid by (rewrite seg_length; lia).
  remember (take a d) as pre eqn:Epre. remember (seg a j d) as mid eqn:Emid.
  remember (drop (S j) d) as post eqn:Epost. clear Epre Emid Epost.
  destruct (insertion_inner_range pre mid x post)
    as (p1 & p2 & -> & Hrun & Hp2 & Hp1).
  replace (length pre + length (p1 ++ p2)) with j in Hrun by lia.
  rewrite Hpre in Hrun.
  replace ((pre ++ p1 ++ p2) ++ x :: post) with d in Hrun
    by (rewrite Hd; rewrite <-!(assoc_L (++)); reflexivity).
  exists ((pre ++ p1) ++ x :: p2 ++ post). split; [done|].
  assert (S j = length pre + length (p1 ++ x :: p2)) as HSj.
  { rewrite length_app in *. simpl. lia. }
  replace ((pre ++ p1) ++ x :: p2 ++ post) with (pre ++ (p1 ++ x :: p2) ++ post)
    by (by rewrite <-!(assoc_L (++))).
  split.
  - rewrite Hd at 1. rewrite HSj, <-Hpre.
    replace (length (p1 ++ x :: p2)) with (length ((p1 ++ p2) ++ [x]))
      by (rewrite !length_app; simpl; lia).
    apply range_perm_parts.
    rewrite <-(assoc_L (++)). apply Permutation_app_head, Permutation_cons_append.
  - unfold sorted_range. rewrite HSj, <-Hpre at 1. rewrite seg_parts.
    by apply insert_sorted.
Qed.

Lemma shift_left_inner a j d x :
  a ≤ j → d !! j = Some x →
  (0 < a → ∃ q, d !! (a - 1) = Some q ∧ less_entries x q = false) →
  shift_left d j = insertion_inner d a j.
Proof.
  revert d. induction j as [|j IH]; intros d Haj Hx Hq; [done|].
  cbn [shift_left insertion_inner]. case_decide as Hlt.
  - pose proof (lookup_lt_Some _ _ _ Hx) as Hlen.
    destruct (Less_in_range d (S j) j) as (x' & y & Hx' & Hy & ->); [lia..|].
    simplify_eq. simpl. destruct (less_entries x y); [|done].
    rewrite (Swap_Some d (S j) j x y) by done. simpl.
    apply (IH _ ltac:(lia)).
    + rewrite (swapped_lookup d (S j) j x y) by done. by rewrite decide_True.
    + intros Ha. destruct (Hq Ha) as (q & Hq1 & Hq2). exists q. split; [|done].
      rewrite (swapped_lookup d (S j) j x y) by done.
      rewrite !decide_False by lia. done.
  - assert (a = S j) as -> by lia. destruct (Hq ltac:(lia)) as (q & Hq1 & Hq2).
    simpl in Hq1. rewrite Nat.sub_0_r in Hq1.
    rewrite (Less_lookup d (S j) j x q) by done. simpl. by rewrite Hq2.
Qed.

Lemma shift_right_spec fuel d j b :
  0 < j → j ≤ b ≤ length d → b - j < fuel →
  ∃ d', shift_right fuel d j b = Some d' ∧ range_perm (j - 1) b d d'.
Proof.
  revert d j. induction fuel as [|fuel IH]; intros d j Hj Hjb Hfuel; [lia|].
  simpl. case_decide as Hlt; [|exists d; split; [done|apply range_perm_refl]].
  destruct (Less_in_range d j (j - 1)) as (x & y & Hx & Hy & ->); [lia..|]. simpl.
  destruct (less_entries x y); [|exists d; split; [done|apply range_perm_refl]].
  destruct (Swap_range_perm (j - 1) b d j (j - 1))
    as (x' & y' & d1 & _ & _ & Hswap & _ & Hperm); [lia..|].
  rewrite Hswap. simpl.
  destruct (IH d1 (j + 1)) as (d2 & -> & Hperm2); [lia| |lia|].
  { rewrite (range_perm_length _ _ _ _ Hperm). lia. }
  exists d2. split; [done|]. eapply range_perm_trans; [done|].
  eapply range_perm_mono; [| |done]; lia.
Qed.

Lemma partial_loop_spec steps d i a b :
  a < i → i ≤ b ≤ length d → sorted_range a i d → pred_ok a b d →
  ∃ d' sorted,
    partial_loop steps d i a b = Some (d', sorted) ∧ range_perm a b d d' ∧
    (sorted = true → sorted_range a b d').
Proof.
  revert d i. induction steps as [|steps IH]; intros d i Hai Hib Hsorted Hpred.
  { exists d, false. split; [done|]. split; [apply range_perm_refl|done]. }
  cbn [partial_loop].
  destruct (scan_ordered_spec (S (b - i)) d i b)
    as (i' & -> & Hi' & Hadj & Hstop); [lia..|].
  cbn [mbind option_bind].
  assert (sorted_range a i' d) as Hsorted'
    by (eapply (sorted_range_extend a i i'); [lia|lia|lia|done|done]).
  case_decide as Hend.
  { subst i'. exists d, true. split; [done|]. split; [apply range_perm_refl|done]. }
  case_decide as Hshort.
  { exists d, false. split; [done|]. split; [apply range_perm_refl|done]. }
  destruct (Hstop ltac:(lia)) as (x & y & Hx & Hy & Hyx).
  destruct (Swap_range_perm (i' - 1) (S i') d i' (i' - 1))
    as (y' & x' & d1 & Hy' & Hx' & Hswap & Hd1 & Hperm1); [lia..|].
  simplify_eq. rewrite Hswap. cbn [mbind option_bind].
  set (d1 := <[i' - 1:=y]> (<[i':=x]> d)) in *.
  assert (length d1 = length d) as Hlen1 by (by eapply range_perm_length).
  assert (range_perm a b d d1) as Hperm1'
    by (eapply range_perm_mono; [| |done]; lia).
  assert (d1 !! (i' - 1) = Some y) as Hy1.
  { unfold d1. rewrite (swapped_lookup d i' (i' - 1) y x) by done.
    by rewrite decide_True. }
  assert (∃ d2, (if decide (2 ≤ i' - a) then shift_left d1 (i' - 1) else Some d1)
                = Some d2 ∧ range_perm a i' d1 d2 ∧ sorted_range a i' d2)
    as (d2 & -> & Hperm2 & Hsorted2).
  { destruct (insertion_inner_sorts a (i' - 1) d1) as (d2 & Hrun & Hperm2 & Hs2).
    { lia. }
    { eapply (sorted_range_outside (i' - 1) (S i')); [left; lia|done|].
      eapply sorted_range_mono; [| | |done]; lia. }
    replace (S (i' - 1)) with i' in * by lia.
    exists d2. split; [|done]. case_decide as Hfar.
    - rewrite (shift_left_inner a (i' - 1) d1 y); [done|lia|done|].
      intros Ha. destruct (pred_ok_perm a b d d1 ltac:(lia) Hperm1' Hpred Ha)
        as (q & Hq & Hall).
      exists q. split; [done|]. eapply (Hall (i' - 1)); [lia|done].
    - replace (i' - 1) with a in Hrun by lia.
      rewrite insertion_inner_at in Hrun. by simplify_eq. }
  cbn [mbind option_bind].
  assert (length d2 = length d) as Hlen2.
  { rewrite (range_perm_length _ _ _ _ Hperm2). done. }
  assert (∃ d3, (if decide (2 ≤ b - i')
                 then shift_right (S (b - i')) d2 (i' + 1) b else Some d2)
                = Some d3 ∧ range_perm i' b d2 d3) as (d3 & -> & Hperm3).
  { case_decide as Hfar; [|exists d2; split; [done|apply range_perm_refl]].
    destruct (shift_right_spec (S (b - i')) d2 (i' + 1) b)
      as (d3 & -> & Hperm3); [lia..|].
    exists d3. split; [done|]. by replace (i' + 1 - 1) with i' in Hperm3 by lia. }
  cbn [mbind option_bind].
  assert (range_perm a b d d3) as Hperm.
  { eapply range_perm_trans; [done|]. eapply range_perm_trans.
    - eapply range_perm_mono; [| |exact Hperm2]; lia.
    - eapply range_perm_mono; [| |exact Hperm3]; lia. }
  destruct (IH d3 i') as (d4 & sorted & -> & Hperm4 & Hs4); [lia| | | |].
  { rewrite (range_perm_length _ _ _ _ Hperm). lia. }
  { eapply (sorted_range_outside i' b); [left; lia|done|done]. }
  { eapply pred_ok_perm; [|done|done]. lia. }
  exists d4, sorted. split; [done|]. split; [|done]. by eapply range_perm_trans.
Qed.

Lemma partialInsertionSort_spec a b d :
  a < b ≤ length d → pred_ok a b d →
  ∃ d' sorted,
    partialInsertionSort d a b = Some (d', sorted) ∧ range_perm a b d d' ∧
    (sorted = true → sorted_range a b d').
Proof.
  intros Hab Hpred. apply partial_loop_spec; [lia|lia| |done].
  destruct (lookup_lt_is_Some_2 d a) as [x Hx]; [lia|].
  unfold sorted_range. replace (a + 1) with (S a) by lia.
  rewrite (seg_singleton a d x) by done. repeat constructor.
Qed.
End partial.

(** *** [siftDown] and the heap *)

(** Which of the two swapped indices, if any, an index of the heap is. *)
Ltac heap_cases :=
  repeat case_decide;
  repeat match goal with
         | H : ?f + _ = ?f + _ |- _ => apply (proj1 (Nat.add_cancel_l _ _ _)) in H
         end;
  simplify_eq; try lia.

Section heap.
Context `{!Net}.
#[local] Open Scope nat_scope.
Variable first : nat.
Implicit Types (d : Results) (x y p q : Result).

Lemma sorts_before_refl x : sorts_before x x.
Proof. unfold sorts_before. destruct (ipv4_value x); [lia|done]. Qed.

Lemma siftDown_loop_spec fuel lo hi d root :
  lo ≤ root → first + hi ≤ length d → hi - root < fuel → sift_inv first lo root hi d →
  ∃ d', siftDown_loop fuel d root hi first = Some d' ∧
        range_perm (first + lo) (first + hi) d d' ∧ heap_from first lo hi d'.
Proof.
  revert d root. induction fuel as [|fuel IH];
    intros d root Hlo Hlen Hfuel [Hheap Hgrand]; [lia|].
  cbn [siftDown_loop]. cbv zeta. case_decide as Hchild.
  { exists d. split; [done|]. split; [apply range_perm_refl|].
    intros k c Hk Hc Hhi.
    destruct (decide (k = root)) as [->|]; [destruct Hc; lia|]. by apply Hheap. }
  assert (∀ c', is_child root c' → c' < hi →
    (∀ c x y, is_child root c → c < hi →
       d !! (first + c') = Some x → d !! (first + c) = Some y → sorts_before y x) →
    ∃ d', (lt ← Less d (first + root) (first + c');
           if lt : bool then
             data' ← Swap d (first + root) (first + c');
             siftDown_loop fuel data' c' hi first
           else Some d) = Some d' ∧
          range_perm (first + lo) (first + hi) d d' ∧ heap_from first lo hi d') as Hcont.
  { intros c' Hc' Hhi Hdom.
    assert (root < c') as Hlt by (destruct Hc'; lia).
    destruct (Less_in_range d (first + root) (first + c'))
      as (x & y & Hx & Hy & ->); [lia..|].
    cbn [mbind option_bind]. destruct (less_entries x y) eqn:Hxy.
    - destruct (Swap_range_perm (first + lo) (first + hi) d (first + root) (first + c'))
        as (x' & y' & d1 & Hx' & Hy' & Hswap & Hd1 & Hperm); [lia..|].
      simplify_eq. rewrite Hswap. cbn [mbind option_bind].
      set (d1 := <[first + c':=x]> (<[first + root:=y]> d)) in *.
      assert (∀ k, d1 !! k = if decide (k = first + c') then Some x
                             else if decide (k = first + root) then Some y
                             else d !! k) as Hd1
        by (intros k; by apply swapped_lookup).
      destruct (IH d1 c') as (d2 & Hrun & Hperm2 & Hheap2); [lia| |lia| |].
      { rewrite (range_perm_length _ _ _ _ Hperm). done. }
      { split.
        - intros k c Hk Hne Hc Hchi u v. rewrite !Hd1.
          unfold is_child in *. intros Hu Hv. heap_cases;
            first [ by apply less_entries_true
                  | eapply (Hdom c); (done || lia)
                  | eapply (Hgrand k c'); (done || lia)
                  | eapply (Hheap k c); (done || lia) ].
        - intros k c Hk Hkc Hc Hchi u v. rewrite !Hd1.
          unfold is_child in *. intros Hu Hv. heap_cases.
          eapply (Hheap c' c); (done || lia). }
      exists d2. split; [done|]. split; [by eapply range_perm_trans|done].
    - exists d. split; [done|]. split; [apply range_perm_refl|].
      intros k c Hk Hc Hchi. destruct (decide (k = root)) as [->|]; [|by apply Hheap].
      intros u v Hu Hv. simplify_eq. transitivity y.
      + by eapply (Hdom c).
      + by apply less_entries_false. }
  case_decide as Hright.
  - destruct (Less_in_range d (first + (2 * root + 1)) (first + (2 * root + 1) + 1))
      as (x1 & x2 & H1 & H2 & ->); [lia..|].
    cbn [mbind option_bind]. destruct (less_entries x1 x2) eqn:H12.
    + apply Hcont; [right; lia|lia|].
      intros c x y [->| ->] Hc Hx Hy.
      * replace (first + (2 * root + 1 + 1)) with (first + (2 * root + 1) + 1)
          in Hx by lia.
        simplify_eq. by apply less_entries_true.
      * replace (2 * root + 1 + 1) with (2 * root + 2) in Hx by lia.
        simplify_eq. apply sorts_before_refl.
    + apply Hcont; [by left|lia|].
      intros c x y [->| ->] Hc Hx Hy.
      * simplify_eq. apply sorts_before_refl.
      * replace (first + (2 * root + 2)) with (first + (2 * root + 1) + 1)
          in Hy by lia.
        simplify_eq. by apply less_entries_false.
  - cbn [mbind option_bind]. apply Hcont; [by left|lia|].
    intros c x y [->| ->] Hc Hx Hy; [|lia].
    simplify_eq. apply sorts_before_refl.
Qed.

Lemma heap_build_spec n hi d :
  first + hi ≤ length d → heap_from first n hi d →
  ∃ d', heap_build d n hi first = Some d' ∧
        range_perm first (first + hi) d d' ∧ heap_from first 0 hi d'.
Proof.
  revert d. induction n as [|n IH]; intros d Hlen Hheap.
  { exists d. split; [done|]. split; [apply range_perm_refl|done]. }
  cbn [heap_build]. unfold siftDown.
  destruct (siftDown_loop_spec (S hi) n hi d n) as (d1 & -> & Hperm & Hheap1);
    [lia|done|lia| |].
  { split.
    - intros k c Hk Hne. apply Hheap. lia.
    - intros k c Hk Hkn. unfold is_child in Hkn. lia. }
  cbn [mbind option_bind].
  assert (range_perm first (first + hi) d d1) as Hperm1
    by (eapply range_perm_mono; [| |done]; lia).
  destruct (IH d1) as (d2 & -> & Hperm2 & Hheap2); [|done|].
  { rewrite (range_perm_length _ _ _ _ Hperm). done. }
  exists d2. split; [done|]. split; [by eapply range_perm_trans|done].
Qed.

(** The root of a heap is its greatest entry. *)
Lemma heap_root n d k x r :
  heap_from first 0 n d → k < n → d !! (first + k) = Some x → d !! first = Some r →
  sorts_before x r.
Proof.
  intros Hheap. revert x. induction k as [k IH] using lt_wf_ind. intros x Hk Hx Hr.
  destruct (decide (k = 0)) as [->|Hne].
  { rewrite Nat.add_0_r in Hx. simplify_eq. apply sorts_before_refl. }
  pose proof (Nat.div_mod_eq (k - 1) 2) as Hdiv.
  pose proof (Nat.mod_upper_bound (k - 1) 2 ltac:(lia)) as Hmod.
  set (p := (k - 1) / 2) in *.
  destruct (lookup_lt_is_Some_2 d (first + p)) as [y Hy].
  { apply lookup_lt_Some in Hx. lia. }
  transitivity y.
  - eapply (Hheap p k); [lia| |lia|done|done]. unfold is_child. lia.
  - eapply (IH p); [lia|lia|done|done].
Qed.

Lemma sorted_range_cons i b d x :
  i < b ≤ length d → d !! i = Some x →
  range_all (sorts_before x) (S i) b d →
  sorted_range (S i) b d → sorted_range i b d.
Proof.
  intros Hib Hx Hall Hs. unfold sorted_range in *.
  rewrite (seg_split i (S i) b) by lia. rewrite (seg_singleton i d x) by done.
  simpl. constructor; [done|]. apply range_all_seg; [lia|done].
Qed.

Lemma heap_pop_spec n hi d :
  n ≤ hi → first + hi ≤ length d → heap_from first 0 n d →
  sorted_range (first + n) (first + hi) d →
  (∀ j y, n ≤ j < hi → d !! (first + j) = Some y →
          range_all (λ x, sorts_before x y) first (first + n) d) →
  ∃ d', heap_pop d n first = Some d' ∧
        range_perm first (first + hi) d d' ∧ sorted_range first (first + hi) d'.
Proof.
  revert d. induction n as [|i IH]; intros d Hn Hlen Hheap Hsorted Hcross.
  { exists d. split; [done|]. split; [apply range_perm_refl|].
    by rewrite Nat.add_0_r in Hsorted. }
  cbn [heap_pop].
  destruct (Swap_range_perm first (first + S i) d first (first + i))
    as (r & l & d1 & Hr & Hl & -> & Hd1 & Hperm1); [lia..|].
  cbn [mbind option_bind].
  assert (∀ k, d1 !! k = if decide (k = first + i) then Some r
                         else if decide (k = first) then Some l
                         else d !! k) as Hlookup
    by (intros k; rewrite Hd1; by apply swapped_lookup).
  assert (length d1 = length d) as Hlen1 by (by eapply range_perm_length).
  unfold siftDown.
  destruct (siftDown_loop_spec (S i) 0 i d1 0) as (d2 & -> & Hperm2 & Hheap2);
    [lia|lia|lia| |].
  { split.
    - intros k c Hk Hne Hc Hci u v. rewrite !Hlookup.
      unfold is_child in Hc. rewrite !decide_False by lia.
      apply (Hheap k c); [lia|done|lia].
    - intros k c Hk Hkc. unfold is_child in Hkc. lia. }
  cbn [mbind option_bind]. rewrite Nat.add_0_r in Hperm2.
  assert (sorted_range (first + i) (first + hi) d1) as Hsorted1.
  { apply (sorted_range_cons _ _ _ r); [lia| | |].
    - rewrite Hlookup. by rewrite decide_True.
    - intros k y Hk Hy. rewrite Hlookup in Hy. rewrite !decide_False in Hy by lia.
      replace k with (first + (k - first)) in Hy by lia.
      eapply (Hcross (k - first) y); [lia|done| |exact Hr]. lia.
    - eapply (sorted_range_outside first (first + S i)); [right; lia|done|].
      by replace (S (first + i)) with (first + S i) by lia. }
  destruct (IH d2) as (d3 & -> & Hperm3 & Hsorted3); [lia| | | | |].
  { rewrite (range_perm_length _ _ _ _ Hperm2). lia. }
  { done. }
  { eapply (sorted_range_outside first (first + i)); [right; lia|done|done]. }
  { intros j y Hj Hy.
    rewrite (range_perm_lookup_outside _ _ _ _ _ Hperm2) in Hy by lia.
    eapply range_perm_all; [|done|]; [lia|].
    intros k z Hk Hz. rewrite Hlookup in Hy, Hz.
    rewrite decide_False in Hz by lia.
    assert (∃ k', k' < S i ∧ d !! (first + k') = Some z) as (k' & Hk' & Hz').
    { case_decide; simplify_eq.
      - exists i. split; [lia|done].
      - exists (k - first). split; [lia|]. by replace (first + (k - first)) with k by lia. }
    clear Hz. destruct (decide (j = i)) as [->|Hji].
    - rewrite decide_True in Hy by done. simplify_eq.
      by eapply (heap_root (S i) d k').
    - rewrite !decide_False in Hy by lia.
      eapply (Hcross j y); [lia|done| |exact Hz']. lia. }
  exists d3. split; [done|]. split; [|done].
  eapply range_perm_trans; [|done]. eapply range_perm_trans.
  - eapply range_perm_mono; [| |exact Hperm1]; lia.
  - eapply range_perm_mono; [| |exact Hperm2]; lia.
Qed.
End heap.

(** *** [heapSort] *)

Section heapSort.
Context `{!Net}.
#[local] Open Scope nat_scope.

Lemma heapSort_spec a b d :
  a ≤ b ≤ length d →
  ∃ d', heapSort d a b = Some d' ∧ range_perm a b d d' ∧ sorted_range a b d'.
Proof.
  intros Hab. unfold heapSort. cbv zeta.
  destruct (heap_build_spec a ((b - a - 1) / 2 + 1) (b - a) d)
    as (d1 & -> & Hperm1 & Hheap1); [lia| |].
  { intros k c Hk Hc Hcb.
    pose proof (Nat.div_mod_eq (b - a - 1) 2) as Hdiv.
    pose proof (Nat.mod_upper_bound (b - a - 1) 2 ltac:(lia)) as Hmod.
    unfold is_child in Hc. lia. }
  cbn [mbind option_bind].
  destruct (heap_pop_spec a (b - a) (b - a) d1)
    as (d2 & -> & Hperm2 & Hsorted2); [lia| |done| | |].
  { rewrite (range_perm_length _ _ _ _ Hperm1). lia. }
  { unfold sorted_range. rewrite seg_empty. constructor. }
  { intros j y Hj. lia. }
  replace (a + (b - a)) with b in * by lia.
  exists d2. split; [done|]. split; [by eapply range_perm_trans|done].
Qed.
End heapSort.

(** *** [pdqsort] and [Sort] *)

Section pdqsort.
Context `{!Net}.
#[local] Open Scope nat_scope.
Implicit Types (d : Results) (x y z p q : Result).

Ltac by_keys :=
  unfold same_key, less_entries, sorts_before, ipv4_value;
  repeat match goal with
         | |- context [ParseIP_To4 (IP ?x)] => destruct (ParseIP_To4 (IP x)); simpl
         end;
  rewrite ?Z.ltb_lt, ?Z.ltb_ge;
  try (intros; (done || lia || (split; [by eexists|f_equal; lia]))).

Lemma same_key_pivot q p : less_entries p q = false → same_key p p.
Proof. by_keys. Qed.

Lemma same_key_between q p x :
  less_entries q p = false → less_entries p q = false →
  less_entries p x = false → less_entries x q = false → same_key p x.
Proof. by_keys. Qed.

Lemma same_key_sorts p x y : same_key p x → same_key p y → sorts_before x y.
Proof.
  by_keys; intros [_ Hx] [_ Hy]; simplify_eq; try lia.
Qed.

Lemma same_key_before p x y :
  same_key p x → less_entries p y = true → sorts_before x y.
Proof.
  by_keys; intros [_ Hx]; simplify_eq; rewrite ?Z.ltb_lt; try done; lia.
Qed.

Lemma same_key_not_less p z y :
  same_key p z → less_entries p y = true → less_entries y z = false.
Proof.
  by_keys; intros [HH Hx]; simplify_eq; rewrite ?Z.ltb_lt, ?Z.ltb_ge;
    try done; try lia; by destruct HH.
Qed.

Lemma range_all_outside P a b a' b' d d' :
  (b ≤ a' ∨ b' ≤ a) → range_perm a' b' d d' →
  range_all P a b d → range_all P a b d'.
Proof.
  intros Hout Hperm Hall k x Hk Hx.
  rewrite (range_perm_lookup_outside a' b' d d') in Hx by (done || lia).
  by eapply Hall.
Qed.

Lemma sorted_range_join (P Q : Result → Prop) a m b d :
  a ≤ m ≤ b → b ≤ length d →
  sorted_range a m d → sorted_range m b d →
  range_all P a m d → range_all Q m b d →
  (∀ x y, P x → Q y → sorts_before x y) →
  sorted_range a b d.
Proof.
  intros Hm Hb Hleft Hright HP HQ Hcross. unfold sorted_range in *.
  rewrite (seg_split a m b) by done.
  apply StronglySorted_app_2; [|done..].
  apply range_all_seg in HP; [|lia]. apply range_all_seg in HQ; [|lia].
  rewrite Forall_forall in HP, HQ.
  intros x y Hx Hy. apply Hcross; [by apply HP|by apply HQ].
Qed.

Lemma sorted_range_all (P : Result → Prop) a b d :
  a ≤ b ≤ length d → range_all P a b d →
  (∀ x y, P x → P y → sorts_before x y) → sorted_range a b d.
Proof.
  intros Hab HP Hrel. unfold sorted_range.
  apply range_all_seg in HP; [|lia].
  induction HP as [|x l Hx Hl IH]; constructor; [done|].
  eapply Forall_impl; [exact Hl|]. intros y. by apply Hrel.
Qed.

(** The two sorted parts around the pivot at [mid] make a sorted range. *)
Lemma sorted_around_pivot a mid b d p :
  a ≤ mid < b → b ≤ length d → d !! mid = Some p →
  sorted_range a mid d → sorted_range (S mid) b d →
  range_all (λ x, less_entries x p = true) a mid d →
  range_all (λ x, less_entries x p = false) (S mid) b d →
  sorted_range a b d.
Proof.
  intros Hmid Hb Hp Hleft Hright Hlow Hhigh.
  assert (range_all (sorts_before p) (S mid) b d) as Hhigh'.
  { eapply range_all_impl; [|exact Hhigh]. intros x. apply less_entries_false. }
  apply (sorted_range_join (λ x, sorts_before x p) (sorts_before p) a mid b);
    [lia|done|done| | | |].
  - apply (sorted_range_cons mid b d p); [lia|done..].
  - eapply range_all_impl; [|exact Hlow]. intros x. apply less_entries_true.
  - intros k x Hk Hx. destruct (decide (k = mid)) as [->|].
    + simplify_eq. apply sorts_before_refl.
    + eapply Hhigh'; [|done]. lia.
  - intros x y Hx Hy. by transitivity p.
Qed.

Lemma pdqsort_loop_spec fuel d a b limit wasBalanced wasPartitioned :
  a ≤ b ≤ length d → b - a < fuel → pred_ok a b d →
  ∃ d', pdqsort_loop fuel d a b limit wasBalanced wasPartitioned = Some d' ∧
        range_perm a b d d' ∧ sorted_range a b d'.
Proof.
  revert d a b limit wasBalanced wasPartitioned.
  induction fuel as [|fuel IH];
    intros d a b limit wasBalanced wasPartitioned Hab Hfuel Hpred; [lia|].
  cbn [pdqsort_loop]. cbv zeta.
  case_decide as Hshort; [by apply insertionSort_spec|].
  case_decide as Hlimit; [by apply heapSort_spec|].
  (* breakPatterns *)
  assert (∃ d0 limit0,
    (if wasBalanced then Some (d, limit)
     else data' ← breakPatterns d a b; Some (data', limit - 1)) = Some (d0, limit0) ∧
    range_perm a b d d0) as (d0 & limit0 & Hrun & Hperm0).
  { destruct wasBalanced; [exists d, limit; split; [done|apply range_perm_refl]|].
    destruct (breakPatterns_spec a b d Hab) as (d0 & -> & Hperm0).
    by exists d0, (limit - 1). }
  rewrite Hrun. clear Hrun. cbn [mbind option_bind].
  assert (length d0 = length d) as Hlen0 by (by eapply range_perm_length).
  (* choosePivot *)
  destruct (choosePivot_spec a b d0) as (pivot0 & hint0 & Hrun & Hpivot0); [lia..|].
  rewrite Hrun. clear Hrun. cbn [mbind option_bind].
  (* reverseRange *)
  assert (∃ d1 pivot hint,
    (if decide (hint0 = decreasingHint) then
       data' ← reverseRange d0 a b;
       Some (data', b - 1 - (pivot0 - a), increasingHint)
     else Some (d0, pivot0, hint0)) = Some (d1, pivot, hint) ∧
    range_perm a b d0 d1 ∧ a ≤ pivot < b) as (d1 & pivot1 & hint & Hrun & Hperm1 & Hpivot1).
  { case_decide.
    - destruct (reverseRange_spec a b d0) as (d1 & -> & Hperm1); [lia|].
      exists d1, (b - 1 - (pivot0 - a)), increasingHint.
      split; [done|]. split; [done|lia].
    - exists d0, pivot0, hint0. split; [done|]. split; [apply range_perm_refl|done]. }
  rewrite Hrun. clear Hrun. cbn [mbind option_bind].
  assert (length d1 = length d) as Hlen1
    by (rewrite (range_perm_length _ _ _ _ Hperm1); done).
  assert (pred_ok a b d1) as Hpred1.
  { eapply pred_ok_perm; [|exact Hperm1|]; [lia|].
    eapply pred_ok_perm; [|exact Hperm0|]; [lia|done]. }
  (* partialInsertionSort *)
  assert (∃ d2 sorted,
    (if wasBalanced && wasPartitioned && bool_decide (hint = increasingHint)
     then partialInsertionSort d1 a b else Some (d1, false)) = Some (d2, sorted) ∧
    range_perm a b d1 d2 ∧ (sorted = true → sorted_range a b d2))
    as (d2 & sorted & Hrun & Hperm2 & Hsorted2).
  { destruct (wasBalanced && wasPartitioned && bool_decide (hint = increasingHint)).
    - apply partialInsertionSort_spec; [lia|done].
    - exists d1, false. split; [done|]. split; [apply range_perm_refl|done]. }
  rewrite Hrun. clear Hrun. cbn [mbind option_bind].
  assert (range_perm a b d d2) as Hperm.
  { eapply range_perm_trans; [done|]. by eapply range_perm_trans. }
  assert (length d2 = length d) as Hlen2 by (by eapply range_perm_length).
  assert (pred_ok a b d2) as Hpred2 by (eapply pred_ok_perm; [|done|done]; lia).
  clear d0 d1 Hperm0 Hperm1 Hperm2 Hlen0 Hlen1 Hpred1 pivot0 Hpivot0 hint0.
  destruct sorted.
  { exists d2. split; [done|]. split; [done|]. by apply Hsorted2. }
  clear Hsorted2.
  destruct (lookup_lt_is_Some_2 d2 pivot1) as [p Hp]; [lia|].
  (* the entry before the range against the pivot *)
  assert (∃ equal,
    (if decide (0 < a) then negb <$> Less d2 (a - 1) pivot1 else Some false)
      = Some equal ∧
    (equal = true → 0 < a ∧ ∃ q, d2 !! (a - 1) = Some q ∧ less_entries q p = false))
    as (equal & Hrun & Hequal).
  { case_decide as Ha; [|by exists false].
    destruct (lookup_lt_is_Some_2 d2 (a - 1)) as [q Hq]; [lia|].
    rewrite (Less_lookup d2 (a - 1) pivot1 q p) by done.
    exists (negb (less_entries q p)). split; [done|].
    intros Hqp%negb_true_iff. split; [done|]. by exists q. }
  rewrite Hrun. clear Hrun. cbn [mbind option_bind].
  destruct equal.
  - (* partitionEqual *)
    destruct Hequal as (Ha & q & Hq & Hqp); [done|].
    destruct (Hpred2 Ha) as (q' & Hq' & Hge). simplify_eq.
    destruct (partitionEqual_spec a b d2 pivot1 p)
      as (d3 & mid & Hrun & Hmid & Hperm3 & Hp3 & Hlow & Hhigh); [lia|lia|done|].
    rewrite Hrun. clear Hrun. cbn [mbind option_bind].
    assert (length d3 = length d) as Hlen3
      by (rewrite (range_perm_length _ _ _ _ Hperm3); done).
    assert (less_entries p q = false) as Hpq by (by eapply (Hge pivot1)).
    assert (range_all (λ x, less_entries x q = false) a b d3) as Hge3
      by (eapply range_perm_all; [|done|done]; lia).
    assert (range_all (same_key p) a mid d3) as Hsame.
    { intros k x Hk Hx. destruct (decide (k = a)) as [->|].
      - simplify_eq. by eapply same_key_pivot.
      - apply (same_key_between q); [done|done| |].
        + eapply Hlow; [|done]. lia.
        + eapply Hge3; [|done]. lia. }
    destruct (IH d3 mid b limit0 wasBalanced wasPartitioned)
      as (d4 & Hrun & Hperm4 & Hsorted4); [lia|lia| |].
    { intros _. destruct (lookup_lt_is_Some_2 d3 (mid - 1)) as [z Hz]; [lia|].
      exists z. split; [done|].
      eapply range_all_impl; [|exact Hhigh]. intros y.
      apply same_key_not_less. eapply Hsame; [|done]. lia. }
    exists d4. split; [done|]. split.
    + eapply range_perm_trans; [done|]. eapply range_perm_trans; [done|].
      eapply range_perm_mono; [| |done]; lia.
    + apply (sorted_range_join (same_key p) (λ y, less_entries p y = true) a mid b);
        [lia| |  |done| | |].
      * rewrite (range_perm_length _ _ _ _ Hperm4). lia.
      * eapply (sorted_range_outside mid b); [left; lia|done|].
        apply (sorted_range_all (same_key p)); [lia|done|]. apply same_key_sorts.
      * eapply (range_all_outside _ _ _ mid b); [left; lia|done|done].
      * eapply range_perm_all; [|done|done]. lia.
      * intros x y. apply same_key_before.
  - (* partition *)
    clear Hequal.
    destruct (partition_spec a b d2 pivot1 p)
      as (d3 & mid & already & Hrun & Hmid & Hperm3 & Hp3 & Hlow & Hhigh);
      [lia|lia|done|].
    rewrite Hrun. clear Hrun. cbn [mbind option_bind].
    assert (length d3 = length d) as Hlen3
      by (rewrite (range_perm_length _ _ _ _ Hperm3); done).
    assert (pred_ok a b d3) as Hpred3 by (eapply pred_ok_perm; [|done|done]; lia).
    assert (range_perm a b d d3) as Hperm' by (by eapply range_perm_trans).
    replace (mid + 1) with (S mid) by lia.
    case_decide as Hside.
    + destruct (IH d3 a mid limit0 true true) as (d4 & Hrun & Hperm4 & Hsorted4);
        [lia|lia|by eapply pred_ok_mono; [|done]; lia|].
      rewrite Hrun. clear Hrun. cbn [mbind option_bind].
      assert (length d4 = length d) as Hlen4
        by (rewrite (range_perm_length _ _ _ _ Hperm4); done).
      assert (d4 !! mid = Some p) as Hp4
        by (by rewrite (range_perm_lookup_outside _ _ _ _ _ Hperm4) by lia).
      assert (range_all (λ x, less_entries x p = false) (S mid) b d4) as Hhigh4
        by (eapply (range_all_outside _ _ _ a mid); [right; lia|done|done]).
      destruct (IH d4 (S mid) b limit0
                  (bool_decide (((b - a) / 8) ≤ mid - a)) already)
        as (d5 & Hrun & Hperm5 & Hsorted5); [lia|lia| |].
      { intros _. exists p. simpl. rewrite Nat.sub_0_r. done. }
      exists d5. split; [done|]. split.
      * eapply range_perm_trans; [done|]. eapply range_perm_trans.
        -- eapply range_perm_mono; [| |exact Hperm4]; lia.
        -- eapply range_perm_mono; [| |exact Hperm5]; lia.
      * apply (sorted_around_pivot a mid b d5 p); [lia| | | |done| |].
        -- rewrite (range_perm_length _ _ _ _ Hperm5). lia.
        -- by rewrite (range_perm_lookup_outside _ _ _ _ _ Hperm5) by lia.
        -- eapply (sorted_range_outside (S mid) b); [left; lia|done|done].
        -- eapply (range_all_outside _ _ _ (S mid) b); [left; lia|done|].
           eapply range_perm_all; [|done|done]. lia.
        -- eapply range_perm_all; [|done|done]. lia.
    + destruct (IH d3 (S mid) b limit0 true true) as (d4 & Hrun & Hperm4 & Hsorted4);
        [lia|lia| |].
      { intros _. exists p. simpl. rewrite Nat.sub_0_r. done. }
      rewrite Hrun. clear Hrun. cbn [mbind option_bind].
      assert (length d4 = length d) as Hlen4
        by (rewrite (range_perm_length _ _ _ _ Hperm4); done).
      assert (d4 !! mid = Some p) as Hp4
        by (by rewrite (range_perm_lookup_outside _ _ _ _ _ Hperm4) by lia).
      assert (range_all (λ x, less_entries x p = true) a mid d4) as Hlow4
        by (eapply (range_all_outside _ _ _ (S mid) b); [left; lia|done|done]).
      destruct (IH d4 a mid limit0
                  (bool_decide (((b - a) / 8) ≤ b - mid)) already)
        as (d5 & Hrun & Hperm5 & Hsorted5); [lia|lia| |].
      { intros Ha. destruct (Hpred3 Ha) as (q & Hq & Hge). exists q. split.
        - by rewrite (range_perm_lookup_outside _ _ _ _ _ Hperm4) by lia.
        - eapply (range_all_outside _ _ _ (S mid) b); [left; lia|done|].
          eapply range_all_mono; [| |done]; lia. }
      exists d5. split; [done|]. split.
      * eapply range_perm_trans; [done|]. eapply range_perm_trans.
        -- eapply range_perm_mono; [| |exact Hperm4]; lia.
        -- eapply range_perm_mono; [| |exact Hperm5]; lia.
      * apply (sorted_around_pivot a mid b d5 p); [lia| | |done| | |].
        -- rewrite (range_perm_length _ _ _ _ Hperm5). lia.
        -- by rewrite (range_perm_lookup_outside _ _ _ _ _ Hperm5) by lia.
        -- eapply (sorted_range_outside a mid); [right; lia|done|done].
        -- eapply range_perm_all; [|done|done]. lia.
        -- eapply (range_all_outside _ _ _ a mid); [right; lia|done|].
           eapply range_perm_all; [|done|done]. lia.
Qed.

(** [sort.Sort] returns, and what it returns is the slice in the order of
    [Less]. *)
Lemma Sort_sorted (data : Results) :
  ∃ out, sort.Sort data = Some out ∧ out ≡ₚ data ∧ StronglySorted sorts_before out.
Proof.
  unfold Sort, Len. cbv zeta. case_decide as Hn.
  - exists data. split; [done|]. split; [done|].
    destruct data as [|x [|y l]]; simpl in Hn; [repeat constructor..|lia].
  - unfold pdqsort.
    destruct (pdqsort_loop_spec (S (length data - 0)) data 0 (length data)
                (bits_Len (length data)) true true)
      as (out & Hrun & (Hlen & _ & Hperm) & Hsorted); [lia|lia|by intros ?%Nat.lt_irrefl|].
    exists out. split; [done|]. split; [done|].
    unfold sorted_range in Hsorted. by rewrite <-Hlen, seg_whole in Hsorted.
Qed.
End pdqsort.


(** ** Matching by derivatives *)

Import regexp.

Section regexp_facts.
Implicit Types (r : regex) (s : list ascii) (c : ascii).

Lemma matches_Void s : matches Void s = false.
Proof. by induction s. Qed.

Lemma matches_Eps s : matches Eps s = true ↔ s = [].
Proof. destruct s; simpl; [done|]. by rewrite matches_Void. Qed.

Lemma matches_Alt r1 r2 s :
  matches (Alt r1 r2) s = matches r1 s || matches r2 s.
Proof. revert r1 r2. induction s as [|c s IH]; intros; simpl; [done|apply IH]. Qed.

Lemma matches_Cat r1 r2 s :
  matches (Cat r1 r2) s = true ↔
  ∃ s1 s2, s = s1 ++ s2 ∧ matches r1 s1 = true ∧ matches r2 s2 = true.
Proof.
  revert r1 r2. induction s as [|c s IH]; intros r1 r2; simpl.
  - rewrite andb_true_iff. split.
    + intros [??]. by exists [], [].
    + intros (s1 & s2 & Hs & ? & ?). symmetry in Hs.
      by apply app_eq_nil in Hs as [-> ->].
  - rewrite matches_Alt, orb_true_iff, IH. split.
    + intros [(s1 & s2 & -> & ? & ?)|Hr].
      * by exists (c :: s1), s2.
      * destruct (nullable r1) eqn:Hn; [|by rewrite matches_Void in Hr].
        by exists [], (c :: s).
    + intros (s1 & s2 & Hs & H1 & H2). destruct s1 as [|c' s1]; simpl in *.
      * subst s2. right. by rewrite H1.
      * injection Hs as -> ->. left. by exists s1, s2.
Qed.

Lemma matches_Lit c s : matches (Lit c) s = true ↔ s = [c].
Proof.
  destruct s as [|c' s]; simpl; [done|]. case_bool_decide; subst.
  - rewrite matches_Eps. naive_solver.
  - rewrite matches_Void. naive_solver.
Qed.

Lemma matches_Class items s :
  matches (Class items) s = true ↔ ∃ c, s = [c] ∧ in_class items c = true.
Proof.
  destruct s as [|c s]; simpl; [naive_solver|].
  destruct (in_class items c) eqn:Hc.
  - rewrite matches_Eps. naive_solver.
  - rewrite matches_Void. naive_solver.
Qed.

Lemma matches_Quest r s :
  matches (Quest r) s = true ↔ s = [] ∨ matches r s = true.
Proof. destruct s; simpl; naive_solver. Qed.

Lemma matches_Star_nil r : matches (Star r) [] = true.
Proof. done. Qed.

Lemma matches_Star_cons r c s :
  matches (Star r) (c :: s) = true ↔
  ∃ s1 s2, s = s1 ++ s2 ∧ matches r (c :: s1) = true ∧ matches (Star r) s2 = true.
Proof. simpl. by rewrite matches_Cat. Qed.

Lemma matches_Plus r s :
  matches (Plus r) s = true ↔
  (s = [] ∧ nullable r = true) ∨
  ∃ c s1 s2, s = c :: s1 ++ s2 ∧ matches r (c :: s1) = true ∧ matches (Star r) s2 = true.
Proof.
  destruct s as [|c s]; simpl; [naive_solver|].
  rewrite matches_Cat. naive_solver.
Qed.

Lemma matches_Star_app r s1 s2 :
  matches r s1 = true → matches (Star r) s2 = true → matches (Star r) (s1 ++ s2) = true.
Proof.
  intros H1 H2. destruct s1 as [|c s1]; [done|].
  simpl app. apply matches_Star_cons. by exists s1, s2.
Qed.

(** Repetitions of a class. *)
Lemma matches_Star_Class items s :
  matches (Star (Class items)) s = forallb (in_class items) s.
Proof.
  induction s as [|c s IH]; [done|].
  apply Bool.eq_iff_eq_true. rewrite matches_Star_cons. simpl forallb.
  rewrite andb_true_iff, <-IH. setoid_rewrite matches_Class. split.
  - intros (s1 & s2 & -> & (c' & [= -> ->] & ?) & ?). done.
  - intros [??]. exists [], s. split; [done|]. split; [|done]. by exists c.
Qed.

Lemma matches_Plus_Class items s :
  matches (Plus (Class items)) s = true ↔ s ≠ [] ∧ forallb (in_class items) s = true.
Proof.
  rewrite matches_Plus. simpl nullable. setoid_rewrite matches_Class.
  setoid_rewrite matches_Star_Class. split.
  - intros [[_ [=]]|(c & s1 & s2 & -> & (c' & [= -> ->] & ?) & ?)].
    split; [done|]. simpl. by apply andb_true_iff.
  - intros [Hne Hall]. right. destruct s as [|c s]; [done|].
    simpl in Hall. apply andb_true_iff in Hall as [??].
    exists c, [], s. naive_solver.
Qed.

Lemma match_here_eol r s : match_here true r s = matches r s.
Proof.
  revert r. induction s as [|c s IH]; intros r; simpl.
  - by rewrite orb_false_r, andb_true_r.
  - rewrite IH. by rewrite andb_false_r.
Qed.

Lemma Match_anchored r s : Match (mkPattern true r true) s = (matches r s, None).
Proof.
  unfold Match. f_equal. destruct s; simpl; rewrite ?match_here_eol;
    by rewrite ?orb_false_r, ?andb_true_r, ?andb_false_r.
Qed.
End regexp_facts.

(** ** [domainReg] and the domain-name grammar *)

Section domain_grammar.
Import grammar.
Implicit Types (s l : list ascii) (c : ascii).

Lemma in_class_lower_alnum c :
  in_class [Range "a" "z"; Digit] c = is_lower_alnum c.
Proof. unfold in_class, is_lower_alnum. simpl. by rewrite orb_false_r. Qed.

Lemma in_class_lower_alnum_hyphen c :
  in_class [Range "a" "z"; Digit; Char "-"] c = label_char c.
Proof.
  unfold in_class, label_char, is_lower_alnum, is_hyphen. simpl.
  by rewrite orb_false_r, orb_assoc.
Qed.

Lemma lower_alnum_not_hyphen c : is_lower_alnum c = true → is_hyphen c = false.
Proof.
  unfold is_hyphen. case_bool_decide; [subst|done]. by vm_compute.
Qed.

Lemma lower_alnum_label_char c : is_lower_alnum c = true → label_char c = true.
Proof. unfold label_char. by intros ->. Qed.

Lemma label_char_not_hyphen c :
  label_char c = true → is_hyphen c = false → is_lower_alnum c = true.
Proof. unfold label_char. intros H Hh. by rewrite Hh, orb_false_r in H. Qed.

Lemma forallb_impl {A} (f g : A → bool) (l : list A) :
  (∀ x, f x = true → g x = true) → forallb f l = true → forallb g l = true.
Proof. rewrite !forallb_forall. naive_solver. Qed.

(** A label of [domainReg] is a label of the grammar. *)
Lemma domainReg_label_ok l :
  matches domainReg_label l = true ↔ label_ok l = true.
Proof.
  unfold domainReg_label, lower_alnum, lower_alnum_hyphen, label_ok.
  rewrite matches_Cat. setoid_rewrite matches_Plus_Class.
  setoid_rewrite matches_Alt. setoid_rewrite orb_true_iff.
  setoid_rewrite matches_Star_Class. setoid_rewrite matches_Cat.
  setoid_rewrite matches_Star_Class. setoid_rewrite matches_Class.
  rewrite !andb_true_iff. split.
  - intros (s1 & s2 & -> & [Hne H1] & H2).
    destruct s1 as [|c s1]; [done|].
    assert (forallb label_char (c :: s1) = true) as H1'.
    { eapply forallb_impl; [|exact H1]. intros x.
      rewrite in_class_lower_alnum. apply lower_alnum_label_char. }
    cbn [forallb] in H1. apply andb_true_iff in H1 as [Hc H1].
    rewrite in_class_lower_alnum in Hc.
    destruct H2 as [H2|(s3 & s4 & -> & H3 & d & -> & Hd)].
    + split; [split|].
      * rewrite forallb_app. rewrite H1'. simpl.
        eapply forallb_impl; [|exact H2]. intros x.
        rewrite in_class_lower_alnum. apply lower_alnum_label_char.
      * simpl. by rewrite lower_alnum_not_hyphen.
      * destruct (last ((c :: s1) ++ s2)) as [d|] eqn:Hlast.
        2:{ by apply last_None in Hlast. }
        apply last_Some_elem_of in Hlast.
        assert (is_lower_alnum d = true) as Hd.
        { apply elem_of_app in Hlast as [Hin|Hin].
          - rewrite <-in_class_lower_alnum.
            assert (forallb (in_class [Range "a" "z"; Digit]) (c :: s1) = true) as Hall
              by (cbn [forallb]; by rewrite in_class_lower_alnum, Hc).
            rewrite forallb_forall in Hall. apply Hall. by apply list_elem_of_In.
          - rewrite <-in_class_lower_alnum.
            rewrite forallb_forall in H2. apply H2. by apply list_elem_of_In. }
        by rewrite lower_alnum_not_hyphen.
    + rewrite in_class_lower_alnum in Hd. split; [split|].
      * rewrite !forallb_app. rewrite H1'. simpl.
        rewrite (lower_alnum_label_char d Hd). simpl. rewrite andb_true_r.
        eapply forallb_impl; [|exact H3]. intros x.
        by rewrite in_class_lower_alnum_hyphen.
      * simpl. by rewrite lower_alnum_not_hyphen.
      * rewrite (assoc_L (++)), last_snoc. by rewrite lower_alnum_not_hyphen.
  - intros [[Hall Hfirst] Hlast]. destruct l as [|c t]; [done|].
    simpl in Hall. apply andb_true_iff in Hall as [Hc Hall].
    apply negb_true_iff in Hfirst.
    pose proof (label_char_not_hyphen c Hc Hfirst) as Hc'.
    exists [c], t. split; [done|]. split.
    { split; [done|]. cbn [forallb]. by rewrite in_class_lower_alnum, Hc'. }
    destruct t as [|d t _] using rev_ind.
    + by left.
    + right. rewrite app_comm_cons, last_snoc in Hlast.
      apply negb_true_iff in Hlast.
      rewrite forallb_app in Hall. apply andb_true_iff in Hall as [Ht Hd].
      simpl in Hd. rewrite andb_true_r in Hd.
      exists t, [d]. split; [done|]. split.
      * eapply forallb_impl; [|exact Ht]. intros x.
        by rewrite in_class_lower_alnum_hyphen.
      * exists d. split; [done|]. rewrite in_class_lower_alnum.
        by apply label_char_not_hyphen.
Qed.

Lemma label_ok_no_dot l : label_ok l = true → "."%char ∉ l.
Proof.
  unfold label_ok. rewrite !andb_true_iff. intros [[Hall _] _] Hin.
  rewrite forallb_forall in Hall.
  apply list_elem_of_In, Hall in Hin. by vm_compute in Hin.
Qed.

Lemma labels_no_dot cur s : "."%char ∉ s → labels cur s = [reverse cur ++ s].
Proof.
  revert cur. induction s as [|c s IH]; intros cur Hs; simpl.
  - by rewrite (right_id_L [] (++)).
  - apply not_elem_of_cons in Hs as [Hc Hs].
    rewrite bool_decide_false by done. rewrite IH by done.
    by rewrite reverse_cons, <-(assoc_L (++)).
Qed.

Lemma labels_first_dot cur pre post :
  "."%char ∉ pre →
  labels cur (pre ++ "."%char :: post) = (reverse cur ++ pre) :: labels [] post.
Proof.
  revert cur. induction pre as [|c pre IH]; intros cur Hpre; simpl.
  - by rewrite (right_id_L [] (++)).
  - apply not_elem_of_cons in Hpre as [Hc Hpre].
    rewrite bool_decide_false by done. rewrite IH by done.
    by rewrite reverse_cons, <-(assoc_L (++)).
Qed.

Lemma matches_dot_label s :
  matches dot_label s = true ↔ ∃ l, s = "."%char :: l ∧ label_ok l = true.
Proof.
  unfold dot_label. rewrite matches_Cat. setoid_rewrite matches_Lit.
  setoid_rewrite domainReg_label_ok. split.
  - intros (s1 & s2 & -> & -> & ?). by exists s2.
  - intros (l & -> & ?). by exists ["."%char], l.
Qed.

Lemma dotted_labels_sound s :
  matches dotted_labels s = true → forallb label_ok (labels [] s) = true.
Proof.
  remember (length s) as n eqn:Hn. revert s Hn.
  induction (lt_wf n) as [n _ IH]. intros s -> Hs.
  apply matches_Cat in Hs as (l0 & t & -> & Hl0 & Ht).
  apply domainReg_label_ok in Hl0.
  destruct t as [|c t].
  - rewrite (right_id_L [] (++)).
    rewrite labels_no_dot by (by apply label_ok_no_dot).
    simpl. by rewrite Hl0.
  - apply matches_Star_cons in Ht as (s1 & s2 & -> & Hdl & Hs2).
    apply matches_dot_label in Hdl as (l1 & [= -> ->] & Hl1).
    rewrite labels_first_dot by (by apply label_ok_no_dot).
    cbn [forallb reverse app]. simpl reverse. simpl app. rewrite Hl0. simpl.
    eapply (IH (length (l1 ++ s2))); [|done|].
    + rewrite !length_app. simpl. rewrite length_app. lia.
    + apply matches_Cat. exists l1, s2. split; [done|]. split; [|done].
      by apply domainReg_label_ok.
Qed.

Lemma dotted_labels_complete s :
  forallb label_ok (labels [] s) = true → matches dotted_labels s = true.
Proof.
  remember (length s) as n eqn:Hn. revert s Hn.
  induction (lt_wf n) as [n _ IH]. intros s -> Hs.
  destruct (decide ("."%char ∈ s)) as [Hin|Hnin].
  - apply list_elem_of_split_l in Hin as (pre & post & -> & Hpre).
    rewrite labels_first_dot in Hs by done. simpl in Hs.
    apply andb_true_iff in Hs as [Hpre_ok Hpost].
    apply (IH (length post)) in Hpost; [|rewrite length_app; simpl; lia|done].
    apply matches_Cat in Hpost as (l1 & t & -> & Hl1 & Ht).
    apply matches_Cat. exists pre, ("."%char :: l1 ++ t).
    split; [done|]. split; [by apply domainReg_label_ok|].
    apply (matches_Star_app dot_label ("."%char :: l1) t); [|done].
    apply matches_dot_label. exists l1. split; [done|].
    by apply domainReg_label_ok.
  - rewrite labels_no_dot in Hs by done. simpl in Hs.
    rewrite andb_true_r in Hs.
    apply matches_Cat. exists s, []. split; [by rewrite (right_id_L [] (++))|].
    split; [by apply domainReg_label_ok|done].
Qed.

Lemma dotted_labels_no_leading_dot s :
  matches dotted_labels ("."%char :: s) = false.
Proof.
  apply not_true_is_false. intros H%dotted_labels_sound.
  simpl in H. done.
Qed.

(** [regexp.Match] with [domainReg] decides the grammar. *)
Lemma domainReg_decides_grammar (hostname : string) :
  Match domainReg (list_ascii_of_string hostname) =
    (domain_name hostname, None).
Proof.
  unfold domainReg. rewrite Match_anchored. f_equal.
  unfold domain_name. generalize (list_ascii_of_string hostname) as s. intros s.
  apply Bool.eq_iff_eq_true.
  rewrite matches_Cat. setoid_rewrite matches_Quest.
  setoid_rewrite matches_Lit. split.
  - intros (s1 & s2 & -> & [->| ->] & H2).
    + simpl app. apply dotted_labels_sound.
      destruct s2 as [|c s2]; [done|]. simpl.
      case_bool_decide; [subst|done]. by rewrite dotted_labels_no_leading_dot in H2.
    + simpl. by apply dotted_labels_sound.
  - intros H%dotted_labels_complete. destruct s as [|c s]; simpl in H.
    + by exists [], [].
    + case_bool_decide; subst.
      * exists ["."%char], s. naive_solver.
      * exists [], (c :: s). naive_solver.
Qed.
End domain_grammar.

(** ** The shutdown handshake *)

Section shutdown.
Context `{!Net, !Resolver}.
Variable fl : Flags.
#[local] Open Scope nat_scope.
Abbreviation N := (concurrency fl).

Lemma exited_insert ws i w w' :
  ws !! i = Some w →
  exited (<[i:=w']> ws) + (if decide (pool_pc w = PoolExit) then 1 else 0)
  = exited ws + (if decide (pool_pc w' = PoolExit) then 1 else 0).
Proof.
  unfold exited. revert i. induction ws as [|v ws IH]; intros [|i] Hi; simplify_eq/=.
  - rewrite !filter_cons. simpl. repeat case_decide; simpl; try done; lia.
  - rewrite !filter_cons. specialize (IH i Hi). simpl. repeat case_decide; simpl; try done; lia.
Qed.

Lemma exited_all ws : exited ws = length ws → Forall (λ w, pool_pc w = PoolExit) ws.
Proof.
  unfold exited. induction ws as [|w ws IH]; [constructor|].
  rewrite filter_cons. case_decide; simpl; intros Hlen.
  - constructor; [done|]. apply IH. lia.
  - pose proof (length_filter (λ w, pool_pc w = PoolExit) ws). lia.
Qed.

Lemma invariant_initial pending :
  (0 ≤ flConcurrency fl)%Z → invariant fl (initial fl pending).
Proof.
  intros Hsize. split; simpl; try done.
  - by apply bool_decide_eq_false_2, Z.le_ngt.
  - apply length_replicate.
  - lia.
  - lia.
  - intros (w & Hw & [Hl|Hl])%Exists_exists;
      apply elem_of_replicate in Hw as [-> _]; done.
  - repeat split; try done. apply Forall_replicate. by left.
Qed.

Lemma running_not_leaving w : pool_running w → pool_leaving w → False.
Proof. intros [?|[??]] [?|?]; congruence. Qed.

Lemma all_running_none_leaving ws :
  Forall pool_running ws → Exists pool_leaving ws → False.
Proof.
  intros Hall (w & Hw & Hl)%Exists_exists.
  rewrite Forall_forall in Hall. eapply running_not_leaving; eauto.
Qed.

Lemma all_running_exited ws : Forall pool_running ws → exited ws = 0.
Proof.
  unfold exited. induction 1 as [|w ws Hw _ IH]; [done|].
  rewrite filter_cons_False; [done|]. destruct Hw as [?|[??]]; congruence.
Qed.

Lemma Exists_insert_inv {A} (P : A → Prop) (l : list A) i x :
  Exists P (<[i:=x]> l) → ¬ P x → Exists P l.
Proof.
  revert i. induction l as [|y l IH]; intros i Hex Hx; [done|].
  destruct i as [|i]; simpl in Hex; apply Exists_cons in Hex as [?|?];
    try done; apply Exists_cons; eauto.
Qed.

Lemma all_exited_lookup ws i w :
  exited ws = length ws → ws !! i = Some w → pool_pc w = PoolExit.
Proof.
  intros Hall%exited_all Hi. rewrite Forall_forall in Hall.
  apply Hall. by eapply list_elem_of_lookup_2.
Qed.

Lemma invariant_step a s s' : invariant fl s → step fl a s = Some s' → invariant fl s'.
Proof.
  intros [Hnp Hlen Htc Hrc Hdr Hph] Hstep.
  unfold step in Hstep. rewrite Hnp in Hstep.
  destruct s as [mpc pl gpc g tk rs wr ev pn]. simpl in *. subst pn.
  destruct a as [|i| |keys].
  - (* main *)
    unfold step_main in Hstep. simpl in Hstep.
    destruct mpc as [[|t pending]|k| | |r]; unfold phase in Hph; simpl in Hph.
    + destruct Hph as (Htk & Hrs & -> & Hrun & ->). simplify_eq/=.
      split; simpl; try done.
      * intros ?. by destruct (all_running_none_leaving pl).
      * unfold phase; simpl. repeat split; try done; try lia.
        by apply all_running_exited.
    + destruct Hph as (Htk & Hrs & -> & Hrun & ->). rewrite Htk in Hstep.
      case_decide; simplify_eq/=.
      split; simpl; try done.
      * rewrite length_app. simpl. lia.
      * intros ?. by destruct (all_running_none_leaving pl).
    + destruct Hph as (Htk & Hrs & -> & Hk & Hex & ->).
      case_decide; simplify_eq/=.
      split; simpl; try done.
      unfold phase; simpl. assert (exited pl = N) as -> by lia.
      repeat split; try done.
    + done.
    + done.
    + done.
  - (* pool *)
    unfold step_pool in Hstep. simpl in Hstep.
    destruct (pl !! i) as [[wpc wc]|] eqn:Hi; simpl in Hstep; [|done].
    pose proof (exited_insert pl i _ (mkPool PoolRange wc) Hi) as HexR.
    assert (∀ P : Prop, length pl = exited pl → wpc ≠ PoolExit → P) as Hcontra.
    { intros P Hall Hne. destruct Hne. symmetry in Hall.
      by apply (all_exited_lookup pl i (mkPool wpc wc)) in Hall. }
    destruct wpc as [|result| |].
    + (* at the range over tasks *)
      destruct tk as [[|def queued] tkc]; simpl in *.
      * destruct tkc; simplify_eq/=.
        pose proof (exited_insert pl i _ (mkPool PoolTracker wc) Hi) as Hex.
        simpl in Hex.
        split; simpl; rewrite ?length_insert; try done.
        destruct mpc as [pending|k| | |r]; unfold phase in *; simpl in *.
        -- naive_solver.
        -- destruct Hph as (? & ? & ? & ? & ? & ?). repeat split; try done. lia.
        -- apply (Hcontra _); [naive_solver lia|done].
        -- apply (Hcontra _); [naive_solver lia|done].
        -- apply (Hcontra _); [naive_solver lia|done].
      * destruct (run_task fl wc def) as [[c o] sent] eqn:Hrun. simplify_eq/=.
        set (w' := mkPool (match sent with Some result => PoolSend result | None => PoolRange end) c).
        assert (pool_running w') as Hw'.
        { unfold w'. destruct sent; [right|left]; eauto. }
        pose proof (exited_insert pl i _ w' Hi) as Hex. simpl in Hex.
        assert (pool_pc w' ≠ PoolExit) as Hne by (destruct Hw' as [?|[??]]; congruence).
        rewrite decide_False in Hex by done.
        split; simpl; rewrite ?length_insert; try done.
        -- lia.
        -- intros Hl. apply Exists_insert_inv in Hl.
           ++ by apply Hdr in Hl as [_ ?].
           ++ intros ?. by eapply running_not_leaving.
        -- destruct mpc as [pending|k| | |r]; unfold phase in *; simpl in *.
           ++ destruct Hph as (? & ? & ? & ? & ?). repeat split; try done.
              by apply Forall_insert.
           ++ destruct Hph as (? & ? & ? & ? & ? & ?). repeat split; try done. lia.
           ++ apply (Hcontra _); [naive_solver lia|done].
           ++ apply (Hcontra _); [naive_solver lia|done].
           ++ apply (Hcontra _); [naive_solver lia|done].
    + (* at the send on res *)
      destruct rs as [rbuf rsc]; simpl in *. destruct rsc.
      * destruct mpc as [pending|k| | |r]; unfold phase in *; simpl in *;
          try naive_solver; apply (Hcontra _); try done; naive_solver lia.
      * case_decide; simplify_eq/=. simpl in HexR.
        split; simpl; rewrite ?length_insert; try done.
        -- rewrite length_app. simpl. lia.
        -- intros Hl. apply Exists_insert_inv in Hl; [by apply Hdr|].
           intros ?. eapply running_not_leaving; [|done]. by left.
        -- destruct mpc as [pending|k| | |r]; unfold phase in *; simpl in *;
             try naive_solver.
           ++ destruct Hph as (? & ? & ? & ? & ?). repeat split; try done.
              apply Forall_insert; [done|]. by left.
           ++ destruct Hph as (? & ? & ? & ? & ? & ?). repeat split; try done. lia.
    + (* at the send on tracker *)
      unfold tracker_recv in Hstep. simpl in Hstep.
      pose proof (exited_insert pl i _ (mkPool PoolExit wc) Hi) as Hex.
      simpl in Hex.
      assert (closed tk = true ∧ buf tk = []) as Hdrained.
      { apply Hdr. apply Exists_exists. exists (mkPool PoolTracker wc).
        split; [by eapply list_elem_of_lookup_2|by left]. }
      destruct mpc as [pending|k| | |r]; unfold phase in *; simpl in *; try done.
      * case_decide; simplify_eq/=.
        split; simpl; rewrite ?length_insert; try done.
        unfold phase; simpl.
        destruct Hph as (? & ? & -> & ? & ? & ?). repeat split; try done; try lia.
        simpl. by rewrite replicate_cons_app.
      * simplify_eq/=. apply (Hcontra _); [naive_solver lia|done].
    + done.
  - (* gatherer *)
    unfold step_gatherer in Hstep. simpl in Hstep.
    destruct gpc.
    + destruct rs as [[|result queued] rsc]; simpl in *.
      * destruct rsc; simplify_eq/=.
        split; simpl; try done.
        destruct mpc as [pending|k| | |r]; unfold phase in *; simpl in *;
          naive_solver.
      * destruct (ingest fl result g) as [u g'] eqn:Hing. simplify_eq/=.
        split; simpl; try done; [lia|].
        destruct mpc as [pending|k| | |r]; unfold phase in *; simpl in *;
          naive_solver.
    + unfold tracker_recv in Hstep. simpl in Hstep.
      destruct mpc as [pending|k| | |r]; unfold phase in *; simpl in *; try done.
      * naive_solver.
      * simplify_eq/=. split; simpl; try done.
        unfold phase; simpl.
        destruct Hph as (? & ? & -> & ? & ? & Hbuf).
        repeat split; try done; [|by apply Hbuf].
        simpl. f_equal. by rewrite <-(assoc_L (++)).
    + done.
  - (* main ranges over resMap and sorts *)
    unfold step_collect in Hstep. simpl in Hstep.
    destruct mpc as [pending|k| | |r]; try done.
    case_decide as Hkeys; [|done].
    destruct (Sort_sorted keys) as (results & Hsort & Hperm & Hsorted).
    rewrite Hsort in Hstep. simplify_eq/=.
    split; simpl; try done.
    unfold phase in *; simpl in *.
    destruct Hph as (? & ? & -> & ? & ? & ?).
    repeat split; try done.
    + unfold shutdown_order. simpl. f_equal. by rewrite <-(assoc_L (++)).
    + by rewrite Hperm.
Qed.

Lemma run_invariant schedule s s' :
  invariant fl s → run fl schedule s = Some s' → invariant fl s'.
Proof.
  revert s. induction schedule as [|a schedule IH]; intros s Hs Hrun; simplify_eq/=.
  - done.
  - destruct (step fl a s) as [s1|] eqn:Hstep; simplify_eq/=.
    eapply IH; [|done]. by eapply invariant_step.
Qed.

(** A run either keeps the invariant or has not left the state in which
    the channels could not be made. *)
Lemma reachable_invariant pending s :
  reachable fl pending s →
  invariant fl s ∨ ((flConcurrency fl < 0)%Z ∧ s = initial fl pending).
Proof.
  intros [schedule Hrun].
  destruct (decide (0 ≤ flConcurrency fl)%Z) as [Hsize|Hsize].
  - left. eapply run_invariant; [|done]. by apply invariant_initial.
  - right. split; [lia|].
    destruct schedule as [|a schedule]; simpl in Hrun; [congruence|].
    unfold step in Hrun. simpl in Hrun.
    rewrite bool_decide_eq_true_2 in Hrun by lia. done.
Qed.

Lemma reachable_invariant_output pending s results :
  reachable fl pending s → main_pc s = MainOutput results → invariant fl s.
Proof.
  intros [?|[_ ->]]%reachable_invariant Hpc; done.
Qed.
End shutdown.


(** ** The shutdown completes *)

Section completion.
Context `{!Net, !Resolver}.
Variable fl : Flags.
#[local] Open Scope nat_scope.
Abbreviation N := (concurrency fl).

Lemma run_app sched1 sched2 s :
  run fl (sched1 ++ sched2) s = run fl sched1 s ≫= run fl sched2.
Proof.
  revert s. induction sched1 as [|a sched1 IH]; intros s; simpl; [done|].
  destruct (step fl a s); simpl; [apply IH|done].
Qed.

Lemma reachable_run pending schedule s s' :
  reachable fl pending s → run fl schedule s = Some s' → reachable fl pending s'.
Proof.
  intros [sched0 Hsched0] Hrun. exists (sched0 ++ schedule).
  rewrite run_app, Hsched0. done.
Qed.

Lemma run_task_sent c def :
  (run_task fl c def).2 =
    match ret_err def with None => Some (ret_result def) | Some _ => None end.
Proof.
  unfold run_task. destruct (ret_err def); repeat case_bool_decide; done.
Qed.

Lemma quiet_task def pending s :
  0 < N → quiet fl (def :: pending) s →
  ∃ s', run fl (schedule_task def) s = Some s' ∧ quiet fl pending s'.
Proof.
  intros HN (Hpc & Htk & Hrs & Hpool & Hlen & Hg & Hnp).
  destruct s as [mpc pl gpc g tk rs wr ev pn]. simpl in *. subst.
  destruct pl as [|[wpc wc] pl]; [simpl in Hlen; lia|].
  apply Forall_cons in Hpool as [Hw Hpool]. simpl in Hw. subst wpc.
  unfold schedule_task.
  pose proof (run_task_sent wc def) as Hsent.
  destruct (run_task fl wc def) as [[c o] sent] eqn:Hrun. simpl in Hsent.
  destruct (ret_err def) eqn:Herr; subst sent.
  - cbn -[run_task]. rewrite decide_True by lia. cbn -[run_task].
    rewrite Hrun. cbn. eexists. split; [done|].
    repeat split; simpl; try done. by constructor.
  - cbn -[run_task ingest]. rewrite decide_True by lia. cbn -[run_task ingest].
    rewrite Hrun. cbn -[ingest]. rewrite decide_True by lia. cbn -[ingest].
    destruct (ingest fl (ret_result def) g) as [u g'].
    eexists. split; [done|].
    repeat split; simpl; try done. by constructor.
Qed.

Lemma quiet_tasks pending s :
  0 < N → quiet fl pending s →
  ∃ s', run fl (concat (schedule_task <$> pending)) s = Some s' ∧ quiet fl [] s'.
Proof.
  intros HN. revert s. induction pending as [|def pending IH]; intros s Hs.
  - by exists s.
  - destruct (quiet_task def pending s HN Hs) as (s1 & Hrun1 & Hs1).
    destruct (IH s1 Hs1) as (s2 & Hrun2 & Hs2).
    exists s2. split; [|done]. rewrite fmap_cons. cbn [concat].
    by rewrite run_app, Hrun1.
Qed.

Lemma quiet_close s :
  quiet fl [] s → ∃ s', run fl [Main] s = Some s' ∧ draining fl 0 s'.
Proof.
  intros (Hpc & Htk & Hrs & Hpool & Hlen & Hg & Hnp).
  destruct s as [mpc pl gpc g tk rs wr ev pn]. simpl in *. subst.
  eexists. split; [done|]. repeat split; simpl; try done.
  intros i w _ Hi. rewrite Forall_forall in Hpool. apply Hpool.
  by eapply list_elem_of_lookup_2.
Qed.

Lemma draining_step k s :
  k < N → draining fl k s →
  ∃ s', run fl [Pool k; Pool k] s = Some s' ∧ draining fl (S k) s'.
Proof.
  intros Hk (Hpc & Htk & Hrs & Hpool & Hlen & Hg & Hnp).
  destruct s as [mpc pl gpc g tk rs wr ev pn]. simpl in *. subst.
  destruct (lookup_lt_is_Some_2 pl k) as [[wpc wc] Hw]; [lia|].
  pose proof (Hpool k _ (le_n _) Hw) as Hwpc. simpl in Hwpc. subst wpc.
  cbn -[lookup]. unfold step_pool at 1. cbn -[lookup]. rewrite Hw. cbn -[lookup].
  unfold step_pool. cbn -[lookup].
  rewrite list_lookup_insert_eq by lia. cbn -[lookup].
  rewrite decide_True by lia. cbn -[lookup].
  eexists. split; [done|]. repeat split; simpl; try done.
  - intros i w Hi. rewrite !list_lookup_insert_ne by lia. apply Hpool. lia.
  - by rewrite !length_insert.
Qed.

Lemma draining_all k s :
  k ≤ N → draining fl k s →
  ∃ s', run fl (concat ((λ i, [Pool i; Pool i]) <$> seq k (N - k))) s = Some s'
        ∧ draining fl N s'.
Proof.
  intros Hk. remember (N - k) as d eqn:Hd. revert k s Hk Hd.
  induction d as [|d IH]; intros k s Hk Hd Hs.
  - exists s. split; [done|]. by replace N with k by lia.
  - destruct (draining_step k s) as (s1 & Hrun1 & Hs1); [lia|done|].
    destruct (IH (S k) s1) as (s2 & Hrun2 & Hs2); [lia|lia|done|].
    exists s2. split; [|done].
    cbn [seq]. rewrite fmap_cons. cbn [concat]. by rewrite run_app, Hrun1.
Qed.

Lemma draining_collect s :
  draining fl N s →
  ∃ s' results,
    run fl [Main; Gatherer; Gatherer;
            Collect (map_to_list (resMap (gathered s))).*1] s = Some s'
    ∧ main_pc s' = MainOutput results.
Proof.
  intros (Hpc & Htk & Hrs & Hpool & Hlen & Hg & Hnp).
  destruct s as [mpc pl gpc g tk rs wr ev pn]. simpl in *. subst.
  cbn -[sort.Sort]. rewrite decide_False by lia. cbn -[sort.Sort].
  rewrite decide_True by done.
  destruct (Sort_sorted (map_to_list (resMap g)).*1) as (results & Hsort & _).
  rewrite Hsort. cbn. by eexists _, results.
Qed.

Lemma initial_quiet pending : 0 < N → quiet fl pending (initial fl pending).
Proof.
  intros HN. unfold concurrency in HN.
  repeat split; simpl; try done; [..|apply bool_decide_eq_false_2; lia].
  - by apply Forall_replicate.
  - apply length_replicate.
Qed.

(** With at least one pool goroutine, every list of tasks can be run to
    the end. *)
Lemma shutdown_completes pending :
  0 < N → ∃ s results, reachable fl pending s ∧ main_pc s = MainOutput results.
Proof.
  intros HN.
  destruct (quiet_tasks pending _ HN (initial_quiet pending HN)) as (s1 & Hrun1 & Hs1).
  destruct (quiet_close s1 Hs1) as (s2 & Hrun2 & Hs2).
  destruct (draining_all 0 s2) as (s3 & Hrun3 & Hs3); [lia|done|].
  destruct (draining_collect s3 Hs3) as (s4 & results & Hrun4 & Hpc).
  exists s4, results. split; [|done].
  eapply reachable_run; [|exact Hrun4].
  eapply reachable_run; [|exact Hrun3].
  eapply reachable_run; [|exact Hrun2].
  by eexists.
Qed.
End completion.

(** ** The gatherer without confirmation *)

Section plain.
Context `{!Net, !Resolver}.
Variable fl : Flags.
#[local] Open Scope nat_scope.

Lemma accept_kept r g :
  accept fl r g =
    ((), if kept fl r then mkGathered (<[r:=true]> (resMap g)) (asked g) else g).
Proof.
  unfold accept, kept. destruct (flValidate fl); [|done].
  rewrite domainReg_decides_grammar.
  rewrite bool_decide_false by (by intros []).
  by destruct (grammar.domain_name (Hostname r)).
Qed.

Lemma for_range_accept result g :
  for_range result (accept fl) g =
    ((), mkGathered (store_all (filter (λ r, kept fl r = true) result) (resMap g))
                    (asked g)).
Proof.
  revert g. induction result as [|r result IH]; intros g.
  - by destruct g.
  - cbn [for_range]. unfold mbind, Gather_bind. rewrite accept_kept.
    rewrite IH. rewrite filter_cons.
    destruct (kept fl r); simpl; by rewrite ?decide_True, ?decide_False by done.
Qed.

Lemma ingest_plain result g :
  flFcrdns fl = false →
  ingest fl result g =
    ((), mkGathered (store_all (filter (λ r, kept fl r = true) result) (resMap g))
                    (asked g)).
Proof.
  intros Hplain. unfold ingest. rewrite Hplain.
  case_bool_decide as Hlen; [|apply for_range_accept].
  destruct result; [|simpl in Hlen; lia]. by destruct g.
Qed.

Lemma dom_store_all rs (m : gmap Result bool) :
  dom (store_all rs m) = dom m ∪ list_to_set rs.
Proof.
  revert m. induction rs as [|r rs IH]; intros m; simpl.
  - set_solver.
  - unfold store_all in *. simpl. rewrite IH, dom_insert_L. set_solver.
Qed.


Lemma union_list_insert {A} (f : A → gset Result) (l : list A) i x y :
  l !! i = Some x →
  ⋃ (f <$> <[i:=y]> l) ∪ f x = ⋃ (f <$> l) ∪ f y.
Proof.
  revert i. induction l as [|z l IH]; intros [|i] Hi; simplify_eq/=.
  - set_solver.
  - specialize (IH i Hi). set_solver.
Qed.

Lemma conserved_initial pending : conserved fl pending (initial fl pending).
Proof.
  unfold conserved, in_flight. simpl. rewrite dom_empty_L.
  assert (⋃ (pool_yield fl <$> replicate (concurrency fl) (mkPool PoolRange 0%Z)) = ∅) as ->.
  { rewrite fmap_replicate. unfold pool_yield. simpl.
    induction (concurrency fl) as [|n IH]; [done|]. simpl. rewrite IH. set_solver. }
  set_solver.
Qed.

Lemma conserved_step pending a s s' :
  flFcrdns fl = false →
  conserved fl pending s → step fl a s = Some s' → conserved fl pending s'.
Proof.
  intros Hplain Hc Hstep. unfold step in Hstep.
  destruct (panicked s) eqn:Hnp; [done|].
  destruct s as [mpc pl gpc g tk rs wr ev pn]. simpl in *. subst pn.
  unfold conserved, in_flight in *. simpl in *.
  destruct a as [|i| |keys].
  - unfold step_main in Hstep. simpl in Hstep.
    destruct mpc as [[|t pending']|k| | |r]; try done.
    + simplify_eq/=. done.
    + destruct (closed tk); [by simplify_eq/=|].
      case_decide; simplify_eq/=. rewrite <-Hc, fmap_app, union_list_app_L.
      simpl. set_solver.
    + case_decide; simplify_eq/=. done.
  - unfold step_pool in Hstep. simpl in Hstep.
    destruct (pl !! i) as [[wpc wc]|] eqn:Hi; simpl in Hstep; [|done].
    destruct wpc as [|result| |].
    + destruct tk as [[|def queued] tkc]; simpl in *.
      * destruct tkc; simplify_eq/=.
        pose proof (union_list_insert (pool_yield fl) pl i _
                      (mkPool PoolTracker wc) Hi) as Hu.
        unfold pool_yield at 2 4 in Hu. simpl in Hu. set_solver.
      * pose proof (run_task_sent fl wc def) as Hsent.
        destruct (run_task fl wc def) as [[c o] sent] eqn:Hrun. simplify_eq/=.
        pose proof (union_list_insert (pool_yield fl) pl i _
          (mkPool (match ret_err def with
                   | Some _ => PoolRange | None => PoolSend (ret_result def) end) c)
          Hi) as Hu.
        unfold pool_yield at 2 4 in Hu. simpl in Hu.
        unfold task_yield at 2 in Hc.
        destruct (ret_err def); simpl in *; set_solver.
    + destruct (closed rs); [by simplify_eq/=|].
      case_decide; simplify_eq/=.
      pose proof (union_list_insert (pool_yield fl) pl i _
                    (mkPool PoolRange wc) Hi) as Hu.
      unfold pool_yield at 2 4 in Hu. simpl in Hu.
      rewrite fmap_app, union_list_app_L. simpl. set_solver.
    + unfold tracker_recv in Hstep. simpl in Hstep.
      pose proof (union_list_insert (pool_yield fl) pl i _
                    (mkPool PoolExit wc) Hi) as Hu.
      unfold pool_yield at 2 4 in Hu. simpl in Hu.
      destruct mpc as [pending'|k| | |r]; try done.
      * case_decide; simplify_eq/=. set_solver.
      * simplify_eq/=. set_solver.
    + done.
  - unfold step_gatherer in Hstep. simpl in Hstep. destruct gpc.
    + destruct rs as [[|result queued] rsc]; simpl in *.
      * destruct rsc; simplify_eq/=. done.
      * rewrite ingest_plain in Hstep by done. simplify_eq/=.
        rewrite dom_store_all. fold (yield fl result). set_solver.
    + unfold tracker_recv in Hstep. simpl in Hstep.
      destruct mpc as [pending'|k| | |r]; try done.
      * case_decide; simplify_eq/=. done.
      * simplify_eq/=. done.
    + done.
  - unfold step_collect in Hstep. simpl in Hstep.
    destruct mpc as [pending'|k| | |r]; try done.
    case_decide; [|done].
    destruct (sort.Sort keys); simplify_eq/=; done.
Qed.
End plain.

(** ** The gatherer with confirmation *)

Section confirmation.
Context `{!Resolver}.
Variable fl : Flags.
#[local] Open Scope nat_scope.

Ltac run_confirm :=
  unfold confirm, LookupName, LookupCname, LookupName6, lookup_call,
    store, skip, mbind, Gather_bind, mret, Gather_ret; simpl.

Ltac confirm_paths r g :=
  destruct g as [m0 h0]; run_confirm;
  destruct (found (answer h0 (QLookupName (Hostname r) (flServerAddr fl)))) eqn:H1;
    simpl;
    [|destruct (found (answer (h0 ++ [QLookupName (Hostname r) (flServerAddr fl)])
                         (QLookupCname (Hostname r) (flServerAddr fl)))) eqn:Hc;
      simpl;
      [destruct (found (answer
           ((h0 ++ [QLookupName (Hostname r) (flServerAddr fl)])
               ++ [QLookupCname (Hostname r) (flServerAddr fl)])
           (QLookupName
              (answer (h0 ++ [QLookupName (Hostname r) (flServerAddr fl)])
                 (QLookupCname (Hostname r) (flServerAddr fl))).1
              (flServerAddr fl)))) eqn:H2; simpl|]];
    match goal with
    | |- context [found (answer ?hist (QLookupName6 ?h ?srv))] =>
        destruct (found (answer hist (QLookupName6 h srv))) eqn:H6; simpl
    end.

Lemma resolves_direct hist h :
  found (answer hist (QLookupName h (flServerAddr fl))) = true →
  resolves fl hist h (answer hist (QLookupName h (flServerAddr fl))).1.
Proof. intros ?. by left. Qed.

Lemma resolves_cname hist h :
  let srv := flServerAddr fl in
  let c := answer (hist ++ [QLookupName h srv]) (QLookupCname h srv) in
  let a2 := answer ((hist ++ [QLookupName h srv]) ++ [QLookupCname h srv])
              (QLookupName c.1 srv) in
  found (answer hist (QLookupName h srv)) = false →
  found c = true → found a2 = true → resolves fl hist h a2.1.
Proof.
  intros srv c a2 ???. right; left. unfold a2, c in *.
  rewrite <-(assoc_L (++)) in *. done.
Qed.

Lemma resolves_v6 hist later h :
  hist `prefix_of` later →
  found (answer later (QLookupName6 h (flServerAddr fl))) = true →
  resolves fl hist h (answer later (QLookupName6 h (flServerAddr fl))).1.
Proof. intros ??. right; right. by exists later. Qed.

(** Every entry that [confirm] adds carries the source "fcrdns", the
    hostname of the record, and an address that forward resolution of
    the hostname yields. *)
Lemma confirm_adds_resolved r g k :
  k ∈ dom (resMap (confirm fl r g).2) →
  k ∈ dom (resMap g) ∨
  (Source k = "fcrdns"%string ∧ Hostname k = Hostname r ∧
   resolves fl (asked g) (Hostname r) (IP k)).
Proof.
  confirm_paths r g; rewrite ?dom_insert_L, ?elem_of_union, ?elem_of_singleton;
    intros Hk; destruct_or?; subst; simpl; auto; right; repeat split;
    first [ by apply resolves_direct
          | by apply resolves_cname
          | apply resolves_v6; [|done];
            rewrite <-?(assoc_L (++)); by apply prefix_app_r ].
Qed.

(** Where no forward resolution of the hostname yields anything,
    [confirm] leaves [resMap] as it is. *)
Lemma confirm_drops_unresolved r g :
  (∀ ip, ¬ resolves fl (asked g) (Hostname r) ip) →
  resMap (confirm fl r g).2 = resMap g.
Proof.
  confirm_paths r g; intros Hnone; try done; exfalso;
    first [ by eapply Hnone, resolves_direct
          | by eapply Hnone, resolves_cname
          | eapply Hnone, resolves_v6; [|done];
            rewrite <-?(assoc_L (++)); by apply prefix_app_r ].
Qed.

(** The lookup of the AAAA record is the last lookup of every pass, and
    its address is stored when it finds one. *)
Lemma confirm_asks_v6 r g :
  let q6 := QLookupName6 (Hostname r) (flServerAddr fl) in
  ∃ hist,
    asked g `prefix_of` hist ∧
    asked (confirm fl r g).2 = hist ++ [q6] ∧
    (found (answer hist q6) = true →
     resMap (confirm fl r g).2 !! mkResult "fcrdns" (answer hist q6).1 (Hostname r)
       = Some true).
Proof.
  confirm_paths r g; eexists; (split; [|split; [reflexivity|]]);
    lazymatch goal with
    | |- _ `prefix_of` _ => rewrite <-?(assoc_L (++)); by apply prefix_app_r
    | |- _ => intros; try congruence; by rewrite lookup_insert_eq
    end.
Qed.

(** The A record of the name, or else of its CNAME, is stored when found. *)
Lemma confirm_stores_v4 r g ip :
  let srv := flServerAddr fl in
  let q1 := QLookupName (Hostname r) srv in
  let qc := QLookupCname (Hostname r) srv in
  let a1 := answer (asked g) q1 in
  let c := answer (asked g ++ [q1]) qc in
  let a2 := answer (asked g ++ [q1; qc]) (QLookupName c.1 srv) in
  (found a1 = true ∧ ip = a1.1)
  ∨ (found a1 = false ∧ found c = true ∧ found a2 = true ∧ ip = a2.1) →
  mkResult "fcrdns" ip (Hostname r) ∈ dom (resMap (confirm fl r g).2).
Proof.
  intros srv q1 qc a1 c a2 Hres. subst srv q1 qc a1 c a2. revert Hres.
  confirm_paths r g; rewrite <-?(assoc_L (++)) in *; simpl in *;
    rewrite ?dom_insert_L; intros [[? ->]|(? & ? & ? & ->)];
    try congruence; set_solver.
Qed.

Lemma confirm_sources r g :
  (∀ k, k ∈ dom (resMap g) → Source k = "fcrdns"%string) →
  ∀ k, k ∈ dom (resMap (confirm fl r g).2) → Source k = "fcrdns"%string.
Proof.
  intros Hg k Hk. apply confirm_adds_resolved in Hk as [?|(? & _)]; auto.
Qed.

Lemma for_range_confirm_sources result g :
  (∀ k, k ∈ dom (resMap g) → Source k = "fcrdns"%string) →
  ∀ k, k ∈ dom (resMap (for_range result (confirm fl) g).2) →
       Source k = "fcrdns"%string.
Proof.
  revert g. induction result as [|r result IH]; intros g Hg; [done|].
  cbn [for_range]. unfold mbind, Gather_bind.
  pose proof (confirm_sources r g Hg) as Hg'.
  destruct (confirm fl r g) as [u g'] eqn:Hc. simpl in Hg'. by apply IH.
Qed.

Lemma ingest_confirm result g :
  flFcrdns fl = true → ingest fl result g = for_range result (confirm fl) g.
Proof.
  intros Hf. unfold ingest. rewrite Hf. case_bool_decide as Hlen; [|done].
  destruct result; [done|simpl in Hlen; lia].
Qed.
End confirmation.

(** ** Runs of the program *)

Section runs.
Context `{!Net, !Resolver}.
Variable fl : Flags.
#[local] Open Scope nat_scope.

(** Induction over the states that a run reaches. *)
Lemma reachable_ind (P : State → Prop) pending :
  P (initial fl pending) →
  (∀ a s s', P s → step fl a s = Some s' → P s') →
  ∀ s, reachable fl pending s → P s.
Proof.
  intros Hinit Hstep s [schedule Hrun]. revert Hrun Hinit.
  generalize (initial fl pending) as s0. revert s.
  induction schedule as [|a schedule IH]; intros s s0 Hrun Hs0; simplify_eq/=.
  - done.
  - destruct (step fl a s0) as [s1|] eqn:Ha; simplify_eq/=. eauto.
Qed.

(** Only the gatherer touches what it owns, and only through [ingest]. *)
Lemma step_gathered a s s' :
  step fl a s = Some s' →
  gathered s' = gathered s ∨
  ∃ result, gathered s' = (ingest fl result (gathered s)).2.
Proof.
  unfold step. destruct (panicked s); [done|]. destruct a as [|i| |keys].
  - unfold step_main. intros Hstep.
    repeat (case_match; simplify_eq/=); by left.
  - unfold step_pool, tracker_recv. intros Hstep.
    destruct (pool s !! i) as [w|]; simplify_eq/=.
    repeat (case_match; simplify_eq/=); by left.
  - unfold step_gatherer, tracker_recv. intros Hstep.
    destruct (gatherer_pc s); [|repeat (case_match; simplify_eq/=); by left|done].
    destruct (buf (res s)) as [|result queued].
    + destruct (closed (res s)); simplify_eq/=. by left.
    + destruct (ingest fl result (gathered s)) as [u g'] eqn:Hing. simplify_eq/=.
      right. exists result. by rewrite Hing.
  - unfold step_collect. intros Hstep.
    repeat (case_match; simplify_eq/=); by left.
Qed.

Lemma reachable_gathered (P : Gathered → Prop) pending :
  P (mkGathered ∅ []) →
  (∀ result g, P g → P (ingest fl result g).2) →
  ∀ s, reachable fl pending s → P (gathered s).
Proof.
  intros Hinit Hingest. apply reachable_ind; [done|].
  intros a s s' Hs [->|[result ->]]%step_gathered; auto.
Qed.

Lemma reachable_conserved pending s :
  flFcrdns fl = false → reachable fl pending s → conserved fl pending s.
Proof.
  intros Hplain. revert s. apply reachable_ind.
  - apply conserved_initial.
  - intros a s s' Hs Hstep. by eapply conserved_step.
Qed.

Lemma keys_dom (m : gmap Result bool) :
  list_to_set (map_to_list m).*1 = dom m.
Proof.
  apply set_eq. intros k. rewrite elem_of_list_to_set, elem_of_dom.
  rewrite list_elem_of_fmap. split.
  - intros ([k' v] & -> & Hkv). apply elem_of_map_to_list in Hkv. by eexists.
  - intros [v Hv]. exists (k, v). split; [done|]. by apply elem_of_map_to_list.
Qed.

Lemma all_exited_no_yield ws :
  Forall (λ w, pool_pc w = PoolExit) ws → ⋃ (pool_yield fl <$> ws) = ∅.
Proof.
  induction 1 as [|w ws Hw _ IH]; [done|].
  rewrite fmap_cons, union_list_cons, IH.
  unfold pool_yield. rewrite Hw. set_solver.
Qed.

(** At the output, everything that was in flight has arrived. *)
Lemma output_quiescent pending s results :
  reachable fl pending s → main_pc s = MainOutput results →
  Forall (λ w, pool_pc w = PoolExit) (pool s) ∧
  buf (tasks s) = [] ∧ buf (res s) = [] ∧
  results ≡ₚ (map_to_list (resMap (gathered s))).*1.
Proof.
  intros Hs Hpc.
  destruct (reachable_invariant_output fl pending s results Hs Hpc)
    as [Hnp Hlen Htc Hrc Hdr Hph].
  unfold phase in Hph. rewrite Hpc in Hph.
  destruct Hph as (? & ? & ? & Hex & ? & ? & ? & ?).
  assert (Forall (λ w, pool_pc w = PoolExit) (pool s)) as Hall.
  { apply exited_all. congruence. }
  repeat split; try done.
  destruct (pool s) as [|w ws] eqn:Hpool.
  - simpl in Hlen. destruct (buf (tasks s)); [done|]. simpl in Htc. lia.
  - apply Hdr. apply Exists_cons. left. right.
    by apply Forall_cons in Hall as [? _].
Qed.

Lemma output_plain pending s results :
  flFcrdns fl = false →
  reachable fl pending s → main_pc s = MainOutput results →
  list_to_set results = ⋃ (task_yield fl <$> pending).
Proof.
  intros Hplain Hs Hpc.
  pose proof (reachable_conserved pending s Hplain Hs) as Hc.
  destruct (output_quiescent pending s results Hs Hpc) as (Hall & Htk & Hrs & Hperm).
  unfold conserved, in_flight in Hc.
  rewrite Hpc, Htk, Hrs, all_exited_no_yield in Hc by done. simpl in Hc.
  rewrite <-Hc, <-keys_dom.
  rewrite (list_to_set_perm_L _ _ Hperm). set_solver.
Qed.

Lemma output_NoDup pending s results :
  reachable fl pending s → main_pc s = MainOutput results → NoDup results.
Proof.
  intros Hs Hpc.
  destruct (output_quiescent pending s results Hs Hpc) as (_ & _ & _ & Hperm).
  rewrite Hperm. apply NoDup_fst_map_to_list.
Qed.
End runs.

(** ** Counting, and the steps of a pool goroutine *)

Lemma filter_eq_absent {A} `{EqDecision A} (l : list A) (x : A) :
  x ∉ l → filter (λ y, y = x) l = [].
Proof.
  induction l as [|y l IH]; intros Hx; [done|].
  apply not_elem_of_cons in Hx as [Hne Hx].
  rewrite filter_cons, decide_False by done. by apply IH.
Qed.

Lemma NoDup_count_one {A} `{EqDecision A} (l : list A) (x : A) :
  NoDup l → x ∈ l → length (filter (λ y, y = x) l) = 1%nat.
Proof.
  induction 1 as [|y l Hy Hl IH]; [by intros ?%elem_of_nil|].
  rewrite filter_cons. intros [->|Hx]%elem_of_cons.
  - rewrite decide_True by done. simpl. by rewrite filter_eq_absent.
  - rewrite decide_False; [by apply IH|]. intros ->. done.
Qed.

Lemma elem_of_task_yield fl pending r :
  r ∈ ⋃ (task_yield fl <$> pending) ↔
  ∃ def, def ∈ pending ∧ ret_err def = None ∧ r ∈ ret_result def ∧ kept fl r = true.
Proof.
  rewrite elem_of_union_list. setoid_rewrite list_elem_of_fmap. split.
  - intros (X & (def & -> & Hdef) & Hr). exists def. split; [done|].
    unfold task_yield, yield in Hr. destruct (ret_err def); [set_solver|].
    rewrite elem_of_list_to_set, list_elem_of_filter in Hr. naive_solver.
  - intros (def & Hdef & Herr & Hr & Hk). exists (task_yield fl def).
    split; [by exists def|]. unfold task_yield, yield. rewrite Herr.
    rewrite elem_of_list_to_set, list_elem_of_filter. done.
Qed.

Section handshake.
Context `{!Net, !Resolver}.
Variable fl : Flags.
#[local] Open Scope nat_scope.

Lemma replicate_prefix {A} (x : A) i n l :
  i ≤ n → replicate i x `prefix_of` replicate n x ++ l.
Proof.
  intros Hi. exists (replicate (n - i) x ++ l).
  rewrite (assoc_L (++)), <-replicate_add. do 2 f_equal. lia.
Qed.

Lemma phase_events_prefix s : phase fl s → events s `prefix_of` shutdown_order fl.
Proof.
  unfold phase, shutdown_order.
  destruct (main_pc s) as [pending|i| | |results].
  - intros (_ & _ & -> & _). apply prefix_nil.
  - intros (_ & _ & -> & Hi & _). simpl. apply prefix_cons.
    by apply replicate_prefix.
  - intros (_ & _ & -> & _). simpl. apply prefix_cons, prefix_app.
    by exists [TrackerRecv FromGatherer; ReadResMap].
  - intros (_ & _ & -> & _). simpl. apply prefix_cons, prefix_app.
    by exists [ReadResMap].
  - by intros (_ & _ & -> & _).
Qed.

Lemma phase_read s :
  phase fl s → ReadResMap ∈ events s → ∃ results, main_pc s = MainOutput results.
Proof.
  unfold phase. destruct (main_pc s) as [pending|i| | |results]; [..|by eauto].
  - intros (_ & _ & -> & _) ?%elem_of_nil. done.
  - intros (_ & _ & -> & _) [?|[? _]%elem_of_replicate]%elem_of_cons; done.
  - intros (_ & _ & -> & _) [?|Hin]%elem_of_cons; [done|].
    apply elem_of_app in Hin as [[? _]%elem_of_replicate|Hin]; [done|].
    set_solver.
  - intros (_ & _ & -> & _) [?|Hin]%elem_of_cons; [done|].
    apply elem_of_app in Hin as [[? _]%elem_of_replicate|Hin]; [done|].
    set_solver.
Qed.
End handshake.


Section pool_steps.
Context `{!Net, !Resolver}.
Variable fl : Flags.

Lemma run_task_success c label result :
  ∃ c' o, run_task fl c (mkTask label result None) = (c', o, Some result).
Proof. unfold run_task. simpl. repeat case_match; simplify_eq; eauto. Qed.

Lemma run_task_failure c label result e :
  ∃ c' progress,
    run_task fl c (mkTask label result (Some e)) =
      (c', progress ++ (if flDebug fl then [LogPrint (label ++ ": " ++ e)] else []),
       None) ∧
    Forall is_progress progress ∧
    (flDebug fl = true → progress = []).
Proof.
  unfold run_task. simpl. destruct (flDebug fl); simpl.
  - by eexists _, [].
  - case_bool_decide; simpl; eexists _, [_]; (split; [reflexivity|]);
      (split; [|done]); (apply Forall_singleton; unfold is_progress; auto).
Qed.
End pool_steps.


Section pool_step_facts.
Context `{!Net, !Resolver}.
Variable fl : Flags.

Lemma ingest_empty g : ingest fl [] g = ((), g).
Proof. done. Qed.

Lemma step_pool_receive s i w def queued :
  panicked s = false → pool s !! i = Some w → pool_pc w = PoolRange →
  buf (tasks s) = def :: queued →
  step fl (Pool i) s =
    let '(c, o, sent) := run_task fl (pool_c w) def in
    let pc := match sent with Some result => PoolSend result | None => PoolRange end in
    Some (write o (set_pool i (mkPool pc c)
            (set_tasks (mkChan queued (closed (tasks s))) s))).
Proof.
  intros Hnp Hw Hpc Htk. unfold step, step_pool.
  rewrite Hnp, Hw. simpl. by rewrite Hpc, Htk.
Qed.
End pool_step_facts.


(** ** Examples *)

Example sort_mixed :
  @sort.Sort dotted.net sample.mixed =
    Some [ mkResult "dict" "2001:db8::1" "v6a.example.com";
           mkResult "dict" "2001:db8::2" "v6b.example.com";
           sample.dns_google; sample.ns1;
           mkResult "tls" "10.0.0.2" "b.example.com" ].
Proof. reflexivity. Qed.

(** Two entries without an IPv4 form leave the sort in the reverse of the
    order in which they entered it. *)
Example sort_two_v6 :
  @sort.Sort dotted.net sample.two_v6_entries = Some (reverse sample.two_v6_entries).
Proof. reflexivity. Qed.

(** A slice that [pdqsort] partitions before it sorts the parts. *)
Example sort_scrambled :
  @sort.choosePivot dotted.net sample.scrambled 0 16 = Some (4%nat, sort.unknownHint) ∧
  fmap (M:=list) IP <$> @sort.Sort dotted.net sample.scrambled =
    Some ["2001:db8::2"; "2001:db8::1"; "8.8.8.8"; "9.9.9.9"; "10.0.0.1";
          "10.0.0.2"; "10.0.0.3"; "10.0.0.5"; "10.0.0.7"; "10.0.0.8";
          "10.0.0.9"; "10.0.0.11"; "10.0.0.12"; "10.0.0.14"; "172.16.0.4";
          "192.168.1.1"].
Proof. by vm_compute. Qed.

Example domainReg_examples :
  (Match domainReg (list_ascii_of_string "sub.example.com")).1 = true ∧
  (Match domainReg (list_ascii_of_string ".example.com")).1 = true ∧
  (Match domainReg (list_ascii_of_string "a-b.example-1.com")).1 = true ∧
  (Match domainReg (list_ascii_of_string "bad_host!")).1 = false ∧
  (Match domainReg (list_ascii_of_string "-a.example.com")).1 = false ∧
  (Match domainReg (list_ascii_of_string "a-.example.com")).1 = false ∧
  (Match domainReg (list_ascii_of_string "a..example.com")).1 = false ∧
  (Match domainReg (list_ascii_of_string "Example.com")).1 = false ∧
  (Match domainReg (list_ascii_of_string "example.com.")).1 = false ∧
  (Match domainReg (list_ascii_of_string "")).1 = false.
Proof. by vm_compute. Qed.

Example run_task_examples :
  run_task sample.flags 0 sample.failed_task
    = (3%Z, [StderrWrite (cr ++ "Working \")], None) ∧
  run_task sample.flags 3 sample.failed_task
    = (2%Z, [StderrWrite (cr ++ "Working /")], None) ∧
  run_task (with_debug true sample.flags) 0 sample.failed_task
    = (0%Z, [LogPrint "axfr: transfer refused"], None) ∧
  run_task (with_debug true sample.flags) 0 sample.ns_task
    = (0%Z, [LogPrint ("ns: ns1.example.com 9.9.9.9: task completed successfully" ++ nl)],
       Some [sample.ns1]) ∧
  run_task (with_debug true sample.flags) 0 sample.empty_task = (0%Z, [], Some []).
Proof. by vm_compute. Qed.

Example confirm_examples :
  let fc := with_fcrdns true sample.flags in
  let start := mkGathered ∅ [] in
  map_to_list (resMap (@ingest sample.no_records fc [sample.ns1] start).2) = [] ∧
  map_to_list (resMap (@ingest sample.a_records fc [sample.dns_google] start).2)
    = [(mkResult "fcrdns" "9.9.9.9" "dns.google", true)] ∧
  asked (@ingest sample.no_records fc [sample.ns1] start).2
    = [QLookupName "ns1.example.com" "8.8.8.8";
       QLookupCname "ns1.example.com" "8.8.8.8";
       QLookupName6 "ns1.example.com" "8.8.8.8"].
Proof. by vm_compute. Qed.

Example validate_examples :
  let validating := with_validate true sample.flags in
  map_to_list (resMap (@ingest sample.no_records validating
                         [sample.bad_host; sample.ns1; sample.bad_host]
                         (mkGathered ∅ [])).2)
    = [(sample.ns1, true)].
Proof. by vm_compute. Qed.

Lemma NoDup_singleton_set (l : Results) (x : Result) :
  NoDup l → list_to_set l = ({[x]} : gset Result) → l = [x].
Proof.
  intros Hnd Hset.
  assert (∀ y, y ∈ l ↔ y = x) as Hin.
  { intros y. rewrite <-(elem_of_list_to_set (C:=gset Result)), Hset.
    apply elem_of_singleton. }
  destruct l as [|y l]; [by specialize (Hin x) as [_ ?%elem_of_nil]|].
  assert (y = x) as -> by (apply Hin; by left).
  destruct l as [|z l]; [done|].
  assert (z = x) as -> by (apply Hin; right; by left).
  apply NoDup_cons in Hnd as [Hx _]. destruct Hx. by left.
Qed.

(** One task that returns one record: the output of every run is that
    record. *)
Example single_probe `{!Net, !Resolver} s results :
  reachable sample.flags [sample.reverse_task] s →
  main_pc s = MainOutput results →
  results = [sample.dns_google].
Proof.
  intros Hs Hpc. apply NoDup_singleton_set.
  - by eapply output_NoDup.
  - rewrite (output_plain sample.flags [sample.reverse_task] s results) by done.
    unfold task_yield, yield. simpl. set_solver.
Qed.

(** Two tasks that return the same record: the output of every run holds
    it once. *)
Example duplicate_probes `{!Net, !Resolver} s results :
  reachable sample.flags [sample.ns_task; sample.ns_task] s →
  main_pc s = MainOutput results →
  results = [sample.ns1].
Proof.
  intros Hs Hpc. apply NoDup_singleton_set.
  - by eapply output_NoDup.
  - rewrite (output_plain sample.flags [sample.ns_task; sample.ns_task] s results)
      by done.
    unfold task_yield, yield. simpl. set_solver.
Qed.
(** ** The list of addresses *)

Lemma byte_to_of_Z z : byte_to_Z (net.byte_of_Z z) = z mod 256.
Proof.
  unfold net.byte_of_Z, byte_to_Z.
  pose proof (Z.mod_pos_bound z 256 ltac:(lia)) as Hz.
  destruct (Byte.of_N (Z.to_N (z mod 256))) eqn:E; simpl.
  - apply Byte.to_of_N in E. rewrite E. lia.
  - apply Byte.of_N_None_iff in E. lia.
Qed.

Lemma byte_of_to_Z b : net.byte_of_Z (byte_to_Z b) = b.
Proof.
  unfold net.byte_of_Z. rewrite Z.mod_small by apply byte_to_Z_range.
  unfold byte_to_Z. by rewrite N2Z.id, Byte.of_to_N.
Qed.

Lemma byte_to_Z_inj a b : byte_to_Z a = byte_to_Z b → a = b.
Proof. intros Hab. by rewrite <-(byte_of_to_Z a), <-(byte_of_to_Z b), Hab. Qed.

Lemma IP_value_snoc l b : IP_value (l ++ [b]) = IP_value l * 256 + byte_to_Z b.
Proof. unfold IP_value. by rewrite foldl_snoc. Qed.

Lemma IP_value_range l : 0 ≤ IP_value l < 256 ^ Z.of_nat (length l).
Proof.
  induction l as [|b l IH] using rev_ind; [done|].
  rewrite IP_value_snoc, length_app, Nat2Z.inj_add, Z.pow_add_r by lia.
  pose proof (byte_to_Z_range b). simpl. lia.
Qed.

Lemma increase_from_app n l r :
  (n ≤ length l)%nat → increase_from n (l ++ r) = increase_from n l ++ r.
Proof.
  revert l. induction n as [|j IH]; intros l Hn; [done|].
  simpl. rewrite lookup_app_l by lia.
  destruct (l !! j) as [b|] eqn:Hb; [|done].
  rewrite insert_app_l by lia.
  case_bool_decide; [done|]. apply IH. rewrite length_insert. lia.
Qed.

Lemma increaseIP_snoc l b :
  increaseIP (l ++ [b]) =
    if bool_decide (0 < byte_to_Z (net.byte_inc b)) then l ++ [net.byte_inc b]
    else increaseIP l ++ [net.byte_inc b].
Proof.
  unfold increaseIP. rewrite length_app. simpl.
  replace (length l + 1)%nat with (S (length l)) by lia. simpl.
  rewrite list_lookup_middle by done.
  rewrite (insert_app_r_alt l) by lia.
  replace (length l - length l)%nat with 0%nat by lia. simpl.
  case_bool_decide; [done|]. by rewrite increase_from_app.
Qed.

Lemma increaseIP_length ip : length (increaseIP ip) = length ip.
Proof.
  induction ip as [|b l IH] using rev_ind; [done|].
  rewrite increaseIP_snoc. case_bool_decide; rewrite !length_app; simpl; lia.
Qed.

Lemma increaseIP_value ip :
  IP_value (increaseIP ip) = (IP_value ip + 1) mod 256 ^ Z.of_nat (length ip).
Proof.
  induction ip as [|b l IH] using rev_ind; [done|].
  rewrite increaseIP_snoc, length_app, Nat2Z.inj_add, Z.pow_add_r by lia.
  pose proof (byte_to_Z_range b) as Hb. pose proof (IP_value_range l) as Hl.
  unfold net.byte_inc. rewrite byte_to_of_Z.
  change (256 ^ Z.of_nat (length [b])) with 256.
  destruct (decide (byte_to_Z b = 255)) as [Hff|Hlow].
  - rewrite Hff. change ((255 + 1) mod 256) with 0.
    rewrite bool_decide_eq_false_2 by lia.
    rewrite !IP_value_snoc, IH, byte_to_of_Z, Hff.
    change ((255 + 1) mod 256) with 0.
    replace (IP_value l * 256 + 255 + 1) with ((IP_value l + 1) * 256) by lia.
    rewrite Z.mul_mod_distr_r by lia. lia.
  - rewrite (Z.mod_small (byte_to_Z b + 1)) by lia.
    rewrite bool_decide_eq_true_2 by lia.
    rewrite !IP_value_snoc, byte_to_of_Z, (Z.mod_small (byte_to_Z b + 1)) by lia.
    rewrite Z.mod_small; [lia|]. nia.
Qed.

Lemma land_land_ones u v k :
  Z.land (Z.land u v) (Z.ones k) = Z.land (Z.land u (Z.ones k)) (Z.land v (Z.ones k)).
Proof.
  apply Z.bits_inj'. intros i Hi. rewrite !Z.land_spec.
  destruct (Z.testbit u i), (Z.testbit v i), (Z.testbit (Z.ones k) i); done.
Qed.

Lemma land_split k u v :
  0 ≤ k →
  Z.land u v = Z.land (u / 2 ^ k) (v / 2 ^ k) * 2 ^ k + Z.land (u mod 2 ^ k) (v mod 2 ^ k).
Proof.
  intros Hk. rewrite (Z.div_mod (Z.land u v) (2 ^ k)) at 1 by lia.
  rewrite <-!Z.shiftr_div_pow2, Z.shiftr_land by done.
  rewrite <-!Z.land_ones, land_land_ones by done. lia.
Qed.

Lemma byte_and_value a b : byte_to_Z (net.byte_and a b) = Z.land (byte_to_Z a) (byte_to_Z b).
Proof.
  unfold net.byte_and. rewrite byte_to_of_Z.
  change 256 with (2 ^ 8). rewrite <-Z.land_ones, <-Z.land_assoc by lia.
  rewrite (Z.land_ones (byte_to_Z b)) by lia.
  by rewrite (Z.mod_small (byte_to_Z b)) by apply byte_to_Z_range.
Qed.

Lemma IP_value_and a m :
  length a = length m →
  IP_value (zip_with net.byte_and a m) = Z.land (IP_value a) (IP_value m).
Proof.
  revert m. induction a as [|b a IH] using rev_ind; intros m Hlen.
  { by destruct m. }
  destruct m as [|c m _] using rev_ind.
  { rewrite length_app in Hlen. simpl in Hlen. lia. }
  rewrite !length_app in Hlen. simpl in Hlen.
  rewrite zip_with_app by lia. simpl.
  rewrite !IP_value_snoc, IH, byte_and_value by lia.
  pose proof (byte_to_Z_range b). pose proof (byte_to_Z_range c).
  rewrite (land_split 8 (IP_value a * 256 + byte_to_Z b)) by lia.
  change (2 ^ 8) with 256.
  rewrite !Z.div_add_l, !Z.div_small, !Z.add_0_r by lia.
  rewrite !(Z.add_comm (_ * 256)), !Z.mod_add, !Z.mod_small by lia. done.
Qed.

Lemma IP_value_inj a b : length a = length b → IP_value a = IP_value b → a = b.
Proof.
  revert b. induction a as [|x a IH] using rev_ind; intros b Hlen Hval.
  { by destruct b. }
  destruct b as [|y b _] using rev_ind.
  { rewrite length_app in Hlen. simpl in Hlen. lia. }
  rewrite !length_app in Hlen. simpl in Hlen.
  rewrite !IP_value_snoc in Hval.
  pose proof (byte_to_Z_range x). pose proof (byte_to_Z_range y).
  assert (IP_value a = IP_value b ∧ byte_to_Z x = byte_to_Z y) as [Hv Hb] by lia.
  f_equal; [apply IH; [lia|done]|]. f_equal. by apply byte_to_Z_inj.
Qed.

Lemma same_network_spec nn m ip :
  length nn = length m → length ip = length m →
  net.same_network nn m ip = true ↔
  zip_with net.byte_and nn m = zip_with net.byte_and ip m.
Proof.
  revert m ip. induction nn as [|n nn IH]; intros [|x m] [|i ip] ??; simplify_eq/=;
    try done.
  case_decide as Hne.
  - split; [done|]. intros [= ? _]. done.
  - rewrite IH by lia. split; [by intros ->; rewrite Hne|].
    by intros [= _ ?].
Qed.

Lemma land_prefix_mask k X :
  0 ≤ k ≤ 32 → 0 ≤ X < 2 ^ 32 → Z.land X (2 ^ 32 - 2 ^ k) = X - X mod 2 ^ k.
Proof.
  intros Hk HX. rewrite (land_split k) by lia.
  assert (2 ^ 32 = 2 ^ (32 - k) * 2 ^ k) as Hpow by (rewrite <-Z.pow_add_r by lia; f_equal; lia).
  assert (0 < 2 ^ k) by (apply Z.pow_pos_nonneg; lia).
  assert (0 < 2 ^ (32 - k)) by (apply Z.pow_pos_nonneg; lia).
  replace (2 ^ 32 - 2 ^ k) with ((2 ^ (32 - k) - 1) * 2 ^ k) by lia.
  rewrite Z.div_mul, Z.mod_mul, Z.land_0_r by lia.
  replace (2 ^ (32 - k) - 1) with (Z.ones (32 - k)) by (rewrite Z.ones_equiv; lia).
  rewrite Z.land_ones by lia.
  rewrite Z.mod_small.
  - pose proof (Z.div_mod X (2 ^ k)). lia.
  - split; [apply Z.div_pos; lia|]. apply Z.div_lt_upper_bound; lia.
Qed.

Lemma iter_increaseIP_length j ip : length (Nat.iter j increaseIP ip) = length ip.
Proof. induction j as [|j IH]; [done|]. simpl. by rewrite increaseIP_length. Qed.

Lemma iter_increaseIP_value j ip :
  IP_value (Nat.iter j increaseIP ip) =
    (IP_value ip + Z.of_nat j) mod 256 ^ Z.of_nat (length ip).
Proof.
  pose proof (IP_value_range ip) as Hr.
  induction j as [|j IH]; simpl.
  - rewrite Z.add_0_r, Z.mod_small; [done|lia].
  - rewrite increaseIP_value, iter_increaseIP_length, IH.
    rewrite Z.add_mod_idemp_l by lia. f_equal. lia.
Qed.

Lemma iter_increaseIP_shift j ip :
  Nat.iter j increaseIP (increaseIP ip) = Nat.iter (S j) increaseIP ip.
Proof. induction j as [|j IH]; [done|]. simpl in *. by rewrite IH. Qed.

Section lines.
Context `{!NetText}.

Lemma cidr_loop_counts n fuel network ip acc :
  (∀ j, (j < n)%nat → net.Contains network (Nat.iter j increaseIP ip) = true) →
  net.Contains network (Nat.iter n increaseIP ip) = false →
  (n < fuel)%nat →
  cidr_loop fuel network ip acc =
    Some (acc ++ ((λ j, IP_String (Nat.iter j increaseIP ip)) <$> seq 0 n)).
Proof.
  revert fuel ip acc. induction n as [|n IH]; intros [|fuel] ip acc Hin Hout Hfuel;
    try lia; simpl in *.
  - rewrite Hout. by rewrite app_nil_r.
  - pose proof (Hin 0%nat ltac:(lia)) as H0. simpl in H0. rewrite H0.
    rewrite (IH fuel); [| | |lia].
    + rewrite <-(assoc_L (++)). simpl. do 3 f_equal.
      rewrite <-fmap_S_seq, <-list_fmap_compose. apply list_fmap_ext.
      intros _ j _. simpl. f_equal. apply iter_increaseIP_shift.
    + intros j Hj. rewrite iter_increaseIP_shift. apply Hin. lia.
    + by rewrite iter_increaseIP_shift.
Qed.


Lemma cidr_loop_acc fuel network ip acc :
  cidr_loop fuel network ip acc = (acc ++.) <$> cidr_loop fuel network ip [].
Proof.
  revert ip acc. induction fuel as [|fuel IH]; intros ip acc; [done|].
  simpl. destruct (net.Contains network ip); [|simpl; by rewrite app_nil_r].
  rewrite (IH _ (acc ++ _)), (IH _ [_]).
  destruct (cidr_loop fuel network (increaseIP ip) []); simpl; [|done].
  by rewrite <-(assoc_L (++)).
Qed.

Lemma lines_loop_acc fuel lines acc :
  lines_loop fuel lines acc =
    (λ r, (acc ++ r.1, r.2)) <$> lines_loop fuel lines [].
Proof.
  revert acc. induction lines as [|line lines IH]; intros acc.
  { simpl. by rewrite app_nil_r. }
  simpl. destruct (ParseIP line).
  { rewrite (IH (acc ++ _)), (IH [_]).
    destruct (lines_loop fuel lines []) as [[ips e]|]; simpl; [|done].
    by rewrite <-(assoc_L (++)). }
  destruct (ParseCIDR line) as [[ip network]|]; simpl; [|by rewrite app_nil_r].
  rewrite cidr_loop_acc.
  destruct (cidr_loop fuel network _ []) as [ips|]; simpl; [|done].
  rewrite (IH (acc ++ _)), (IH ips).
  destruct (lines_loop fuel lines []) as [[ips' e]|]; simpl; [|done].
  by rewrite (assoc_L (++)).
Qed.

Lemma lines_loop_app fuel l1 l2 acc :
  lines_loop fuel (l1 ++ l2) acc =
    match lines_loop fuel l1 acc with
    | Some (ips, None) => lines_loop fuel l2 ips
    | r => r
    end.
Proof.
  revert acc. induction l1 as [|line l1 IH]; intros acc; [done|].
  simpl. destruct (ParseIP line); [apply IH|].
  destruct (ParseCIDR line) as [[ip network]|]; [|done].
  destruct (cidr_loop fuel network _ acc); simpl; [apply IH|done].
Qed.

Lemma lines_loop_valid fuel lines acc :
  Forall (λ line, is_Some (ParseIP line)) lines →
  lines_loop fuel lines acc = Some (acc ++ lines, None).
Proof.
  intros Hall. revert acc. induction Hall as [|line lines [ip Hip] _ IH]; intros acc.
  { simpl. by rewrite app_nil_r. }
  simpl. rewrite Hip, IH. by rewrite <-(assoc_L (++)).
Qed.
End lines.

(** IPv4 *)
Lemma Mask_ipv4 ip a m :
  ip = a ∨ ip = net.v4InV6Prefix ++ a → length a = 4%nat → length m = 4%nat →
  net.Mask ip m = zip_with net.byte_and a m.
Proof.
  intros Hip Ha Hm. unfold net.Mask.
  rewrite (bool_decide_eq_false_2 (length m = 16%nat)) by lia. simpl.
  rewrite (bool_decide_eq_true_2 (length m = 4%nat)) by done. simpl.
  destruct Hip as [->| ->].
  - rewrite (bool_decide_eq_false_2 (length a = 16%nat)) by lia. simpl.
    case_decide; [congruence|done].
  - rewrite (bool_decide_eq_true_2 (length (net.v4InV6Prefix ++ a) = 16%nat))
      by (rewrite length_app; simpl; lia).
    rewrite (bool_decide_eq_true_2 (take 12 _ = _)) by done. cbn [andb].
    change (drop 12 (net.v4InV6Prefix ++ a)) with a.
    case_decide; [congruence|done].
Qed.

Lemma To4_ipv4 a : length a = 4%nat → net.To4 a = Some a.
Proof. intros Ha. unfold net.To4. by rewrite decide_True. Qed.

Lemma Contains_ipv4 nip m x :
  length nip = 4%nat → length m = 4%nat → length x = 4%nat →
  net.Contains (net.mkIPNet nip m) x = true ↔
  Z.land (IP_value nip) (IP_value m) = Z.land (IP_value x) (IP_value m).
Proof.
  intros Hn Hm Hx. unfold net.Contains, net.networkNumberAndMask. simpl.
  rewrite !To4_ipv4 by done.
  rewrite (decide_True (P:=length m = 4%nat)) by done.
  destruct (decide (length nip ≠ 4%nat)); [lia|].
  destruct (decide (length x ≠ length nip)); [lia|].
  rewrite same_network_spec by lia.
  rewrite <-!IP_value_and by lia. split; [by intros ->|].
  apply IP_value_inj. rewrite !length_zip_with. lia.
Qed.

(** What [ParseCIDR] returns for an IPv4 network of the prefix length
    [32 - k]: the loop starts at the network's first address, and an
    address of four bytes is in the network when it shares that start. *)
Lemma ipv4_network ip a network k :
  ip = a ∨ ip = net.v4InV6Prefix ++ a → length a = 4%nat →
  length (net.IPNet_Mask network) = 4%nat →
  IP_value (net.IPNet_Mask network) = 2 ^ 32 - 2 ^ k → 0 ≤ k ≤ 32 →
  net.IPNet_IP network = net.Mask ip (net.IPNet_Mask network) →
  let start := net.Mask ip (net.IPNet_Mask network) in
  let base := IP_value a - IP_value a mod 2 ^ k in
  length start = 4%nat ∧ IP_value start = base ∧ base mod 2 ^ k = 0 ∧
  0 ≤ base ∧ base + 2 ^ k ≤ 2 ^ 32 ∧
  ∀ x, length x = 4%nat →
       net.Contains network x = true ↔ IP_value x - IP_value x mod 2 ^ k = base.
Proof.
  intros Hip Ha Hm Hmask Hk Hnet start base.
  destruct network as [nip m]. simpl in *. subst nip.
  pose proof (IP_value_range a) as Hra. rewrite Ha in Hra.
  change (256 ^ Z.of_nat 4) with (2 ^ 32) in Hra.
  assert (0 < 2 ^ k) as Hpos by (apply Z.pow_pos_nonneg; lia).
  assert (start = zip_with net.byte_and a m) as Hstart by (by apply Mask_ipv4).
  assert (length start = 4%nat) as Hlen by (rewrite Hstart, length_zip_with; lia).
  assert (IP_value start = base) as Hbase.
  { rewrite Hstart, IP_value_and, Hmask by lia. by apply land_prefix_mask. }
  pose proof (Z.div_mod (IP_value a) (2 ^ k) ltac:(lia)) as Hdiv.
  pose proof (Z.mod_pos_bound (IP_value a) (2 ^ k) Hpos) as Hmod.
  assert (base = 2 ^ k * (IP_value a / 2 ^ k)) as Hmult by (unfold base; lia).
  assert (base mod 2 ^ k = 0) as Hzero.
  { rewrite Hmult, Z.mul_comm. apply Z.mod_mul. lia. }
  assert (0 ≤ IP_value a / 2 ^ k) as Hq by (apply Z.div_pos; lia).
  split; [done|]. split; [done|]. split; [done|]. split; [nia|].
  split.
  { assert (2 ^ 32 = 2 ^ (32 - k) * 2 ^ k) as Hpow
      by (rewrite <-Z.pow_add_r by lia; f_equal; lia).
    assert (IP_value a / 2 ^ k < 2 ^ (32 - k))
      by (apply Z.div_lt_upper_bound; lia).
    nia. }
  intros x Hx. fold start. rewrite Contains_ipv4 by done.
  pose proof (IP_value_range x) as Hrx. rewrite Hx in Hrx.
  change (256 ^ Z.of_nat 4) with (2 ^ 32) in Hrx.
  rewrite Hmask, Hbase, !land_prefix_mask by (done || unfold base; lia).
  rewrite Hzero. split; lia.
Qed.

(** ** The output *)

Lemma append_split c (s1 s2 t1 t2 : string) :
  free_of c s1 → free_of c s2 →
  (s1 ++ String c t1 = s2 ++ String c t2)%string → s1 = s2 ∧ t1 = t2.
Proof.
  unfold free_of. revert s2. induction s1 as [|a s1 IH]; intros [|b s2] H1 H2 Heq;
    rewrite ?string_app_cons, ?string_app_nil_l in Heq; simpl in *.
  - by simplify_eq.
  - simplify_eq. exfalso. apply H2. by left.
  - simplify_eq. exfalso. apply H1. by left.
  - injection Heq as -> Heq. destruct (IH s2) as [-> ->]; [| |done|done].
    + intros ?. apply H1. by right.
    + intros ?. apply H2. by right.
Qed.

Lemma string_app_cons a (s t : string) :
  (String a s ++ t)%string = String a (s ++ t)%string.
Proof. reflexivity. Qed.

Lemma string_app_nil_l (s : string) : ("" ++ s)%string = s.
Proof. reflexivity. Qed.

Lemma string_app_assoc (s1 s2 s3 : string) :
  ((s1 ++ s2) ++ s3 = s1 ++ s2 ++ s3)%string.
Proof.
  induction s1 as [|a s1 IH]; [done|]. by rewrite !string_app_cons, IH.
Qed.

Lemma string_app_nil_r (s : string) : (s ++ "")%string = s.
Proof. induction s as [|a s IH]; [done|]. by rewrite string_app_cons, IH. Qed.

Lemma csv_line_inj r1 r2 rest1 rest2 :
  csv_safe r1 → csv_safe r2 →
  (csv_line r1 ++ rest1 = csv_line r2 ++ rest2)%string → r1 = r2 ∧ rest1 = rest2.
Proof.
  intros (Hh1 & Hi1 & Hs1) (Hh2 & Hi2 & Hs2). unfold csv_line.
  destruct r1 as [s1 i1 h1], r2 as [s2 i2 h2]. simpl in *.
  rewrite !string_app_assoc, !string_app_cons, !string_app_nil_l.
  intros [-> Heq]%append_split; [|done..].
  apply append_split in Heq as [-> Heq]; [|done..].
  apply append_split in Heq as [-> Heq]; [|done..]. done.
Qed.

Lemma csv_lines_inj l1 l2 :
  Forall csv_safe l1 → Forall csv_safe l2 →
  String.concat "" (csv_line <$> l1) = String.concat "" (csv_line <$> l2) → l1 = l2.
Proof.
  intros H1. revert l2. induction H1 as [|r1 l1 Hr1 _ IH]; intros l2 H2 Heq.
  - destruct H2 as [|r2 l2 _ _]; [done|]. exfalso.
    destruct l2; simpl in Heq; unfold csv_line in Heq; by destruct (Hostname r2).
  - destruct H2 as [|r2 l2 Hr2 H2].
    { exfalso. destruct l1; simpl in Heq; unfold csv_line in Heq; by destruct (Hostname r1). }
    assert (∀ r l, String.concat "" (csv_line <$> r :: l)
                   = (csv_line r ++ String.concat "" (csv_line <$> l))%string) as Hcons.
    { intros r [|r' l]; simpl; [by rewrite string_app_nil_r|done]. }
    rewrite !Hcons in Heq.
    apply csv_line_inj in Heq as [-> Heq]; [|done..]. f_equal. by apply IH.
Qed.

Lemma cleanSet_snoc l r :
  cleanSet (l ++ [r]) =
    <[IP r:=default [] (cleanSet l !! IP r) ++ [Hostname r]]> (cleanSet l).
Proof. unfold cleanSet. by rewrite foldl_snoc. Qed.

Lemma cleanSet_lookup results k :
  cleanSet results !! k =
    if bool_decide (k ∈ IP <$> results)
    then Some (Hostname <$> filter (λ r, IP r = k) results)
    else None.
Proof.
  induction results as [|r l IH] using rev_ind.
  { rewrite bool_decide_eq_false_2 by apply not_elem_of_nil. apply lookup_empty. }
  rewrite cleanSet_snoc, fmap_app, filter_app, fmap_app. simpl.
  destruct (decide (IP r = k)) as [<-|Hne].
  - rewrite lookup_insert_eq, IH.
    rewrite (bool_decide_eq_true_2 (IP r ∈ _ ++ _)) by set_solver.
    rewrite filter_cons_True by done. rewrite filter_nil. simpl.
    case_bool_decide as Hin; simpl; [done|].
    f_equal. destruct (filter (λ r0, IP r0 = IP r) l) as [|x ?] eqn:Hf; [done|].
    exfalso. apply Hin. assert (x ∈ filter (λ r0, IP r0 = IP r) l) as Hx
      by (rewrite Hf; left).
    apply list_elem_of_filter in Hx as [<- Hx]. by apply list_elem_of_fmap_2.
  - rewrite lookup_insert_ne, IH by done.
    rewrite filter_cons_False, filter_nil, app_nil_r by done.
    apply option_eq. intros x. repeat case_bool_decide; set_solver.
Qed.

Lemma cleanSet_keys results :
  (map_to_list (cleanSet results)).*1 ≡ₚ remove_dups (IP <$> results).
Proof.
  apply NoDup_Permutation.
  - apply NoDup_fst_map_to_list.
  - apply NoDup_remove_dups.
  - intros k. rewrite elem_of_remove_dups.
    rewrite list_elem_of_fmap. split.
    + intros ([k' v] & -> & Hkv). simpl.
      apply elem_of_map_to_list in Hkv. rewrite cleanSet_lookup in Hkv.
      case_bool_decide; [done|congruence].
    + intros Hk. exists (k, Hostname <$> filter (λ r, IP r = k) results).
      split; [done|]. apply elem_of_map_to_list. rewrite cleanSet_lookup.
      by rewrite bool_decide_eq_true_2.
Qed.


Section independent.
Context `{!Net, !Resolver}.

Lemma yield_perm fl (p1 p2 : list task) :
  p1 ≡ₚ p2 → ⋃ (task_yield fl <$> p1) = ⋃ (task_yield fl <$> p2).
Proof.
  induction 1 as [|x l l' _ IH|x y l|l l' l'' _ IH1 _ IH2]; csimpl.
  - done.
  - by rewrite IH.
  - set_solver.
  - congruence.
Qed.

End independent.

(** ** Every run ends *)

Section ends.
Context `{!Net, !Resolver}.
Variable fl : Flags.
#[local] Open Scope nat_scope.

Lemma pool_work_insert ws i w w' :
  ws !! i = Some w →
  pool_work (<[i:=w']> ws) + pool_weight w = pool_work ws + pool_weight w'.
Proof.
  unfold pool_work.
  revert i. induction ws as [|v ws IH]; intros [|i] Hi; simplify_eq; csimpl.
  - simpl in Hi. simplify_eq. lia.
  - simpl in Hi. specialize (IH i Hi). lia.
Qed.

Lemma all_exited_weight ws :
  Forall (λ w, pool_pc w = PoolExit) ws → pool_work ws = 0.
Proof.
  unfold pool_work. induction 1 as [|w ws Hw _ IH]; [done|]. csimpl. unfold pool_weight at 1.
  by rewrite Hw, IH.
Qed.

(** Every step takes work away. *)
Lemma step_work_left a s s' :
  invariant fl s → step fl a s = Some s' → work_left s' < work_left s.
Proof.
  intros [Hnp Hlen Htc Hrc Hdr Hph] Hstep.
  unfold step in Hstep. rewrite Hnp in Hstep.
  destruct s as [mpc pl gpc g tk rs wr ev pn]. simpl in *. subst pn.
  unfold work_left. destruct a as [|i| |keys].
  - unfold step_main in Hstep. simpl in Hstep.
    destruct mpc as [[|t pending]|k| | |r]; unfold phase in Hph; simpl in Hph;
      try done.
    + simplify_eq/=. lia.
    + destruct Hph as (Htk & _). rewrite Htk in Hstep.
      case_decide; simplify_eq/=. rewrite length_app. simpl. lia.
    + case_decide; simplify_eq/=. lia.
  - unfold step_pool in Hstep. simpl in Hstep.
    destruct (pl !! i) as [[wpc wc]|] eqn:Hi; simpl in Hstep; [|done].
    destruct wpc as [|result| |]; simpl in Hstep.
    + destruct tk as [[|def queued] tkc]; simpl in *.
      * destruct tkc; simplify_eq/=.
        pose proof (pool_work_insert pl i _ (mkPool PoolTracker wc) Hi) as Hw.
        unfold pool_weight in Hw. cbn [pool_pc] in Hw. lia.
      * destruct (run_task fl wc def) as [[c o] sent] eqn:Hrun. simplify_eq/=.
        match goal with
        | |- context [<[i:=?w']> pl] =>
            pose proof (pool_work_insert pl i _ w' Hi) as Hw
        end.
        unfold pool_weight in Hw. cbn [pool_pc] in Hw. destruct sent; simpl in Hw; lia.
    + destruct rs as [rbuf rsc]; simpl in *. destruct rsc.
      * exfalso.
        assert (∀ P : Prop, length pl = exited pl → P) as Hcontra.
        { intros P Hall. symmetry in Hall.
          by apply (all_exited_lookup pl i (mkPool (PoolSend result) wc)) in Hall. }
        destruct mpc as [pending|k| | |r]; unfold phase in *; simpl in *;
          try naive_solver; apply (Hcontra _); naive_solver lia.
      * case_decide; simplify_eq/=.
        pose proof (pool_work_insert pl i _ (mkPool PoolRange wc) Hi) as Hw.
        unfold pool_weight in Hw. cbn [pool_pc] in Hw.
        rewrite length_app. simpl. lia.
    + unfold tracker_recv in Hstep. simpl in Hstep.
      pose proof (pool_work_insert pl i _ (mkPool PoolExit wc) Hi) as Hw.
      unfold pool_weight in Hw. cbn [pool_pc] in Hw.
      destruct mpc as [pending|k| | |r]; simpl in *; try done.
      * case_decide; simplify_eq/=. lia.
      * simplify_eq/=. lia.
    + done.
  - unfold step_gatherer in Hstep. simpl in Hstep.
    destruct gpc; simpl in Hstep.
    + destruct rs as [[|result queued] rsc]; simpl in *.
      * destruct rsc; simplify_eq/=. lia.
      * destruct (ingest fl result g) as [u g'] eqn:Hg. simplify_eq/=. lia.
    + unfold tracker_recv in Hstep. simpl in Hstep.
      destruct mpc as [pending|k| | |r]; simpl in *; try done.
      * case_decide; simplify_eq/=.
        exfalso. unfold phase in Hph. simpl in Hph. naive_solver.
      * simplify_eq/=. lia.
    + done.
  - unfold step_collect in Hstep. simpl in Hstep.
    destruct mpc as [pending|k| | |r]; simpl in *; try done.
    case_decide; [|done].
    destruct (Sort_sorted keys) as (out & Hout & _). rewrite Hout in Hstep.
    simplify_eq/=. lia.
Qed.
End ends.

Section progress.
Context `{!Net, !Resolver}.
Variable fl : Flags.
#[local] Open Scope nat_scope.

Lemma not_all_exited ws i w :
  ws !! i = Some w → pool_pc w ≠ PoolExit → exited ws < length ws.
Proof.
  intros Hi Hne.
  pose proof (length_filter (λ w, pool_pc w = PoolExit) ws) as Hle.
  fold (exited ws) in Hle.
  destruct (decide (exited ws = length ws)) as [Hall|]; [|lia].
  destruct Hne. by eapply all_exited_lookup.
Qed.

Lemma exited_full ws :
  Forall (λ w, ¬ pool_pc w ≠ PoolExit) ws → exited ws = length ws.
Proof.
  unfold exited. induction 1 as [|w ws Hw _ IH]; [done|].
  rewrite filter_cons_True by (by destruct (decide (pool_pc w = PoolExit))).
  simpl. by rewrite IH.
Qed.

(** A state before the output in which the goroutines have not panicked
    has a goroutine that can move. *)
Lemma some_goroutine_moves s :
  0 < concurrency fl → invariant fl s →
  (∃ results, main_pc s = MainOutput results) ∨ ∃ a s', step fl a s = Some s'.
Proof.
  intros HN [Hnp Hlen Htc Hrc Hdr Hph].
  unfold step. rewrite Hnp.
  destruct s as [mpc pl gpc g tk rs wr ev pn]. simpl in *. subst pn.
  assert (∀ i w result, pl !! i = Some w → pool_pc w = PoolSend result →
            closed rs = false → buf rs = [] →
            ∃ s', step_pool fl i (mkState mpc pl gpc g tk rs wr ev false) = Some s')
    as Hsend.
  { intros i [wpc wc] result Hi Hpc Hopen Hempty. simpl in Hpc. subst wpc.
    unfold step_pool. simpl. rewrite Hi. simpl. rewrite Hopen, Hempty. simpl.
    rewrite decide_True by done. by eexists. }
  assert (∀ i w, pl !! i = Some w → pool_pc w = PoolRange →
            (buf tk ≠ [] ∨ closed tk = true) →
            ∃ s', step_pool fl i (mkState mpc pl gpc g tk rs wr ev false) = Some s')
    as Hrange.
  { intros i [wpc wc] Hi Hpc Htk. simpl in Hpc. subst wpc.
    unfold step_pool. simpl. rewrite Hi. simpl.
    destruct (buf tk) as [|def queued].
    - destruct Htk as [? | ->]; [done|]. by eexists.
    - destruct (run_task fl wc def) as [[c o] sent]. by eexists. }
  assert (buf rs ≠ [] → gpc = GatherRange →
            ∃ s', step_gatherer fl (mkState mpc pl gpc g tk rs wr ev false) = Some s')
    as Hgather.
  { intros Hbuf ->. unfold step_gatherer. simpl.
    destruct (buf rs) as [|result queued]; [done|].
    destruct (ingest fl result g). by eexists. }
  unfold phase in Hph. simpl in Hph.
  destruct mpc as [pending|k| | |results].
  - (* main sends *)
    destruct Hph as (Htk & Hrs & _ & Hrun & ->). right.
    destruct (decide (buf rs = [])) as [Hempty|Hfull].
    2:{ destruct (Hgather Hfull eq_refl) as [s' Hs']. by exists Gatherer, s'. }
    destruct (list_find at_send pl) as [[i w]|] eqn:Hfind.
    { apply list_find_Some in Hfind as (Hi & [result Hw] & _).
      destruct (Hsend i w result Hi Hw Hrs Hempty) as [s' Hs']. by exists (Pool i), s'. }
    apply list_find_None in Hfind.
    destruct (decide (buf tk = [])) as [Hidle|Hqueued].
    + exists Main. unfold step_main. simpl.
      destruct pending as [|t pending]; [by eexists|].
      rewrite Htk, Hidle. simpl. rewrite decide_True by done. by eexists.
    + destruct (lookup_lt_is_Some_2 pl 0) as [w Hw]; [lia|].
      destruct (Hrange 0 w Hw) as [s' Hs']; [|by left|by exists (Pool 0), s'].
      rewrite Forall_forall in Hrun, Hfind.
      destruct (Hrun w) as [?|Hs]; [by eapply list_elem_of_lookup_2|done|].
      destruct (Hfind w); [by eapply list_elem_of_lookup_2|done].
  - (* main waits for the pool *)
    destruct Hph as (Htk & Hrs & _ & Hk & Hex & ->). right.
    destruct (decide (buf rs = [])) as [Hempty|Hfull].
    2:{ destruct (Hgather Hfull eq_refl) as [s' Hs']. by exists Gatherer, s'. }
    destruct (list_find (λ w, pool_pc w ≠ PoolExit) pl) as [[i w]|] eqn:Hfind.
    + apply list_find_Some in Hfind as (Hi & Hw & _).
      pose proof (not_all_exited pl i w Hi Hw) as Hlt.
      destruct w as [wpc wc]. simpl in Hw.
      destruct wpc as [|result| |]; [| | |done].
      * destruct (Hrange i _ Hi eq_refl) as [s' Hs']; [by right|].
        by exists (Pool i), s'.
      * destruct (Hsend i _ result Hi eq_refl Hrs Hempty) as [s' Hs'].
        by exists (Pool i), s'.
      * exists (Pool i). unfold step_pool, tracker_recv. simpl. rewrite Hi. simpl.
        rewrite decide_True by lia. by eexists.
    + apply list_find_None in Hfind.
      assert (exited pl = length pl) as Hall.
      { by apply exited_full. }
      exists Main. unfold step_main. simpl. rewrite decide_False by lia. by eexists.
  - (* main waits for the gatherer *)
    destruct Hph as (Htk & Hrs & _ & Hex & Hg & Hbuf). right.
    exists Gatherer. unfold step_gatherer, tracker_recv. simpl.
    destruct gpc; [| |done].
    + destruct (buf rs) as [|result queued].
      * rewrite Hrs. by eexists.
      * destruct (ingest fl result g). by eexists.
    + by eexists.
  - (* main reads resMap *)
    right. exists (Collect (map_to_list (resMap g)).*1).
    unfold step_collect. simpl. rewrite decide_True by done.
    destruct (Sort_sorted (map_to_list (resMap g)).*1) as (out & -> & _).
    by eexists.
  - left. by exists results.
Qed.
End progress.

Section runs.
Context `{!Net, !Resolver}.
Variable fl : Flags.
#[local] Open Scope nat_scope.

Lemma run_work_left schedule s s' :
  invariant fl s → run fl schedule s = Some s' →
  length schedule + work_left s' ≤ work_left s.
Proof.
  revert s. induction schedule as [|a schedule IH]; intros s Hinv Hrun; simpl in *.
  { simplify_eq. lia. }
  destruct (step fl a s) as [s1|] eqn:Hstep; simpl in Hrun; [|done].
  pose proof (step_work_left fl a s s1 Hinv Hstep).
  pose proof (IH s1 (invariant_step fl a s s1 Hinv Hstep) Hrun). lia.
Qed.

Lemma pool_work_replicate n c : pool_work (replicate n (mkPool PoolRange c)) = 2 * n.
Proof. unfold pool_work. induction n as [|n IH]; [done|]. csimpl in *. rewrite IH. cbn. lia. Qed.

Lemma work_left_initial pending :
  work_left (initial fl pending) = 4 * length pending + 2 * concurrency fl + 5.
Proof. unfold work_left. simpl. rewrite pool_work_replicate. lia. Qed.

Lemma panicked_run schedule s s' :
  panicked s = true → run fl schedule s = Some s' → schedule = [] ∧ s' = s.
Proof.
  intros Hp. destruct schedule as [|a schedule]; simpl; [by intros [= ->]|].
  unfold step. by rewrite Hp.
Qed.

Lemma run_bounded pending schedule s :
  run fl schedule (initial fl pending) = Some s →
  length schedule + work_left s ≤ 4 * length pending + 2 * concurrency fl + 5.
Proof.
  intros Hrun. rewrite <-work_left_initial.
  destruct (decide (0 ≤ flConcurrency fl)%Z) as [Hn|Hn].
  - apply run_work_left; [by apply invariant_initial|done].
  - apply panicked_run in Hrun as [-> ->]; [simpl; lia|].
    simpl. apply bool_decide_eq_true_2. lia.
Qed.

Lemma invariant_finishes s :
  0 < concurrency fl → invariant fl s →
  ∃ schedule s' results, run fl schedule s = Some s' ∧ main_pc s' = MainOutput results.
Proof.
  intros HN. remember (work_left s) as n eqn:Hn. revert s Hn.
  induction n as [n IH] using lt_wf_ind. intros s -> Hinv.
  destruct (some_goroutine_moves fl s HN Hinv) as [[results Hout]|(a & s1 & Hstep)].
  { by exists [], s, results. }
  destruct (IH (work_left s1) (step_work_left fl a s s1 Hinv Hstep) s1 eq_refl
              (invariant_step fl a s s1 Hinv Hstep))
    as (schedule & s' & results & Hrun & Hout).
  exists (a :: schedule), s', results. split; [|done]. simpl. by rewrite Hstep.
Qed.

Lemma no_pool_stuck t pending a :
  flConcurrency fl = 0%Z → step fl a (initial fl (t :: pending)) = None.
Proof.
  intros HN. assert (concurrency fl = 0) as HN' by (unfold concurrency; by rewrite HN).
  unfold step, initial. simpl. rewrite HN, HN'. simpl.
  destruct a as [|i| |keys]; try done.
  unfold step_main. simpl. by rewrite HN'.
Qed.

Lemma task_yield_validate fl' def :
  flValidate fl' = flValidate fl → task_yield fl' def = task_yield fl def.
Proof.
  intros Hv. unfold task_yield, yield. destruct (ret_err def); [done|].
  f_equal. apply list_filter_iff. intros r. unfold kept. by rewrite Hv.
Qed.
End runs.

(** ** More on the gatherer, the pool and the comparator *)

Section gather.
Context `{!Resolver}.
Variable fl : Flags.
#[local] Open Scope nat_scope.

Ltac run_gather :=
  unfold confirm, accept, LookupName, LookupCname, LookupName6, lookup_call,
    store, skip, mbind, Gather_bind, mret, Gather_ret; simpl.

Lemma for_range_app (a b : Results) body g :
  for_range (a ++ b) body g = for_range b body (for_range a body g).2.
Proof.
  revert g. induction a as [|r a IH]; intros g; [done|].
  simpl. unfold mbind, Gather_bind. destruct (body r g) as [u g']. apply IH.
Qed.

Lemma ingest_app (a b : Results) g :
  ingest fl (a ++ b) g = ingest fl b (ingest fl a g).2.
Proof.
  destruct a as [|r a]; [done|].
  destruct b as [|r' b].
  { rewrite app_nil_r. unfold ingest at 2. simpl.
    by destruct (ingest fl (r :: a) g) as [[] ?]. }
  unfold ingest. rewrite !bool_decide_eq_false_2 by (rewrite ?length_app; simpl; lia).
  destruct (flFcrdns fl); apply for_range_app.
Qed.

Lemma store_all_lookup rs (m : gmap Result bool) k :
  store_all rs m !! k = if bool_decide (k ∈ rs) then Some true else m !! k.
Proof.
  revert m. induction rs as [|r rs IH]; intros m.
  { rewrite bool_decide_eq_false_2 by apply not_elem_of_nil. done. }
  cbn [store_all foldl]. fold (store_all rs (<[r:=true]> m)). rewrite IH. destruct (decide (k = r)) as [->|Hne].
  - rewrite lookup_insert_eq, (bool_decide_eq_true_2 (r ∈ r :: rs)) by left.
    by case_bool_decide.
  - rewrite lookup_insert_ne by done.
    repeat case_bool_decide; set_solver.
Qed.

Lemma confirm_asked r g :
  asked (confirm fl r g).2 = asked g ++ lookups_for fl (asked g) (Hostname r).
Proof.
  destruct g as [m0 h0]. unfold lookups_for. run_gather.
  destruct (found (answer h0 _)) eqn:H1; simpl.
  - destruct (found (answer (h0 ++ [_]) (QLookupName6 _ _))); simpl;
      by rewrite <-(assoc_L (++)).
  - destruct (found (answer (h0 ++ [_]) (QLookupCname _ _))) eqn:Hc; simpl.
    + destruct (found (answer ((h0 ++ [_]) ++ [_]) (QLookupName _ _))); simpl;
        destruct (found (answer _ (QLookupName6 _ _))); simpl;
        by rewrite <-!(assoc_L (++)).
    + destruct (found (answer _ (QLookupName6 _ _))); simpl;
        by rewrite <-!(assoc_L (++)).
Qed.

Lemma confirm_grows r g k v :
  resMap g !! k = Some v →
  (∀ k v, resMap g !! k = Some v → v = true) →
  resMap (confirm fl r g).2 !! k = Some v.
Proof.
  intros Hk Htrue. pose proof (Htrue k v Hk) as ->.
  destruct g as [m0 h0]. run_gather. simpl in *.
  repeat match goal with
         | |- context [found ?x] => destruct (found x); simpl
         end;
    repeat match goal with
           | |- <[?i:=true]> _ !! k = Some true =>
               destruct (decide (i = k)) as [->|];
               [by rewrite lookup_insert_eq|rewrite lookup_insert_ne by done]
           end; done.
Qed.
End gather.

Section gather_more.
Context `{!Resolver}.
Variable fl : Flags.
#[local] Open Scope nat_scope.

Ltac run_gather :=
  unfold confirm, accept, LookupName, LookupCname, LookupName6, lookup_call,
    store, skip, mbind, Gather_bind, mret, Gather_ret; simpl.

Lemma size_dom_insert (m : gmap Result bool) k v :
  size (dom (<[k:=v]> m)) ≤ S (size (dom m)).
Proof.
  rewrite dom_insert, size_union_alt, size_singleton.
  pose proof (subseteq_size (dom m ∖ {[k]}) (dom m) ltac:(set_solver)). lia.
Qed.

Lemma store_keeps (m : gmap Result bool) r k v :
  m !! k = Some v → (∀ k v, m !! k = Some v → v = true) →
  <[r:=true]> m !! k = Some v.
Proof.
  intros Hk Htrue. destruct (decide (r = k)) as [->|].
  - rewrite lookup_insert_eq. f_equal. symmetry. by eapply Htrue.
  - by rewrite lookup_insert_ne.
Qed.

Lemma store_true (m : gmap Result bool) r :
  (∀ k v, m !! k = Some v → v = true) →
  ∀ k v, <[r:=true]> m !! k = Some v → v = true.
Proof.
  intros Htrue k v. destruct (decide (r = k)) as [->|].
  - rewrite lookup_insert_eq. congruence.
  - rewrite lookup_insert_ne by done. apply Htrue.
Qed.


Lemma adds_at_most_refl n g : adds_at_most n g g.
Proof. split; [done|]. split; [done|]. lia. Qed.

Lemma adds_at_most_trans n1 n2 g1 g2 g3 :
  adds_at_most n1 g1 g2 → adds_at_most n2 g2 g3 → adds_at_most (n1 + n2) g1 g3.
Proof.
  intros (Ht1 & Hk1 & Hs1) (Ht2 & Hk2 & Hs2). split; [auto|]. split; [auto|]. lia.
Qed.

Lemma adds_at_most_mono n n' g g' : n ≤ n' → adds_at_most n g g' → adds_at_most n' g g'.
Proof. intros Hn (Ht & Hk & Hs). split; [done|]. split; [done|]. lia. Qed.

Lemma adds_store r m h h' :
  adds_at_most 1 (mkGathered m h) (mkGathered (<[r:=true]> m) h').
Proof.
  unfold adds_at_most, all_true. simpl. split; [|split].
  - intros Ht. by apply store_true.
  - intros Ht k v Hk. by apply store_keeps.
  - pose proof (size_dom_insert m r true). lia.
Qed.

Lemma adds_asked m h h' : adds_at_most 0 (mkGathered m h) (mkGathered m h').
Proof. split; [done|]. split; [done|]. simpl. lia. Qed.

Lemma confirm_adds r g : adds_at_most 2 g (confirm fl r g).2.
Proof.
  destruct g as [m0 h0]. run_gather.
  repeat match goal with
         | |- context [found ?x] => destruct (found x); simpl
         end;
    first [ eapply (adds_at_most_trans 1 1 _ (mkGathered (<[_:=true]> m0) h0));
              [|apply adds_store]; apply adds_store
          | eapply (adds_at_most_mono 1); [lia|apply adds_store]
          | eapply (adds_at_most_mono 0); [lia|apply adds_asked] ].
Qed.

Lemma accept_adds r g : adds_at_most 1 g (accept fl r g).2.
Proof.
  rewrite accept_kept. destruct (kept fl r); simpl; [|apply adds_at_most_refl].
  destruct g. apply adds_store.
Qed.

Lemma for_range_adds n body result g :
  (∀ r g, adds_at_most n g (body r g).2) →
  adds_at_most (n * length result) g (for_range result body g).2.
Proof.
  intros Hbody. revert g. induction result as [|r result IH]; intros g; simpl.
  { rewrite Nat.mul_0_r. apply adds_at_most_refl. }
  unfold mbind, Gather_bind. destruct (body r g) as [u g'] eqn:Hg.
  replace (n * S (length result)) with (n + n * length result) by lia.
  eapply adds_at_most_trans; [|apply IH].
  specialize (Hbody r g). by rewrite Hg in Hbody.
Qed.

Lemma ingest_adds result g :
  adds_at_most ((if flFcrdns fl then 2 else 1) * length result) g (ingest fl result g).2.
Proof.
  unfold ingest. case_bool_decide.
  { eapply (adds_at_most_mono 0); [lia|apply adds_at_most_refl]. }
  destruct (flFcrdns fl).
  - apply for_range_adds, confirm_adds.
  - apply for_range_adds, accept_adds.
Qed.

Lemma run_task_quiet c def :
  flDebug fl = false →
  run_task fl c def =
    (if bool_decide (Z.rem c 2 = 0)%Z then 3%Z else 2%Z,
     [if bool_decide (Z.rem c 2 = 0)%Z then mark_back else mark_forward],
     match ret_err def with None => Some (ret_result def) | Some _ => None end).
Proof.
  intros Hd. unfold run_task. rewrite Hd. simpl.
  destruct (ret_err def); case_bool_decide; simpl; try done;
    by destruct (ret_result def).
Qed.

Lemma run_task_debug c def :
  flDebug fl = true →
  ∃ o, run_task fl c def =
         (c, o, match ret_err def with None => Some (ret_result def) | Some _ => None end) ∧
       Forall (λ x, ∃ text, x = LogPrint text) o.
Proof.
  intros Hd. unfold run_task. rewrite Hd. simpl.
  destruct (ret_err def); [|destruct (ret_result def)];
    eexists; (split; [done|]); repeat constructor; by eexists.
Qed.

Lemma pool_loop_marks c k0 defs :
  flDebug fl = false →
  ((Z.rem c 2 = 0)%Z ↔ Nat.even k0 = true) →
  pool_loop fl c defs =
    ((λ k, if Nat.even k then mark_back else mark_forward) <$> seq k0 (length defs),
     ret_result <$> filter (λ def, ret_err def = None) defs).
Proof.
  intros Hd. revert c k0. induction defs as [|def defs IH]; intros c k0 Hc; [done|].
  cbn [pool_loop]. rewrite run_task_quiet by done.
  rewrite (IH _ (S k0)).
  - simpl. rewrite filter_cons.
    f_equal; [|by destruct (ret_err def); simpl].
    f_equal. destruct (Nat.even k0); case_bool_decide; try done; naive_solver.
  - rewrite Nat.even_succ, <-Nat.negb_even.
    destruct (Nat.even k0); case_bool_decide; simpl; naive_solver.
Qed.
End gather_more.

Section written.
Context `{!Net, !Resolver}.
Variable fl : Flags.
#[local] Open Scope nat_scope.

Lemma is_progress_mark (b : bool) : is_progress (if b then mark_back else mark_forward).
Proof. destruct b; [by left|by right]. Qed.

Lemma marks_written_step pending a s s' :
  flDebug fl = false → invariant fl s →
  marks_written pending s → step fl a s = Some s' → marks_written pending s'.
Proof.
  intros Hd [Hnp Hlen Htc Hrc Hdr Hph] (marks & Hw & Hmarks & Hcount) Hstep.
  unfold step in Hstep. rewrite Hnp in Hstep.
  destruct s as [mpc pl gpc g tk rs wr ev pn]. simpl in *. subst pn.
  unfold marks_written. destruct a as [|i| |keys].
  - unfold step_main in Hstep. simpl in Hstep.
    destruct mpc as [[|t pending']|k| | |r]; unfold phase in Hph; simpl in *; try done.
    + simplify_eq/=. exists marks. by rewrite app_nil_r in *.
    + destruct Hph as (Htk & _). rewrite Htk in Hstep.
      case_decide; simplify_eq/=. exists marks.
      split; [done|]. split; [done|]. rewrite length_app. simpl. lia.
    + case_decide; simplify_eq/=. by exists marks.
  - unfold step_pool in Hstep. simpl in Hstep.
    destruct (pl !! i) as [[wpc wc]|] eqn:Hi; simpl in Hstep; [|done].
    assert (∀ P : Prop, length pl = exited pl → wpc ≠ PoolExit → P) as Hcontra.
    { intros P Hall Hne. destruct Hne. symmetry in Hall.
      by apply (all_exited_lookup pl i (mkPool wpc wc)) in Hall. }
    destruct wpc as [|result| |]; simpl in Hstep.
    + destruct tk as [[|def queued] tkc]; simpl in *.
      * destruct tkc; simplify_eq/=. by exists marks.
      * rewrite run_task_quiet in Hstep by done. simplify_eq/=.
        assert (closing mpc = []) as Hclosing.
        { destruct mpc; try done. unfold phase in Hph. simpl in Hph.
          apply (Hcontra _); [naive_solver lia|done]. }
        rewrite Hclosing in *. rewrite !app_nil_r in *.
        eexists (marks ++ [_]). split; [by rewrite app_nil_r|]. split.
        -- apply Forall_app. split; [done|]. constructor; [|done].
           apply is_progress_mark.
        -- rewrite length_app. simpl. lia.
    + destruct rs as [rbuf rsc]; simpl in *. destruct rsc; [|].
      * simplify_eq/=. by exists marks.
      * case_decide; simplify_eq/=. by exists marks.
    + unfold tracker_recv in Hstep. simpl in Hstep.
      destruct mpc as [pending'|k| | |r]; simpl in *; try done.
      * case_decide; simplify_eq/=. by exists marks.
      * simplify_eq/=. by exists marks.
    + done.
  - unfold step_gatherer in Hstep. simpl in Hstep.
    destruct gpc; simpl in Hstep.
    + destruct rs as [[|result queued] rsc]; simpl in *.
      * destruct rsc; simplify_eq/=. by exists marks.
      * destruct (ingest fl result g) as [u g'] eqn:Hg. simplify_eq/=. by exists marks.
    + unfold tracker_recv in Hstep. simpl in Hstep.
      destruct mpc as [pending'|k| | |r]; simpl in *; try done.
      * case_decide; simplify_eq/=. by exists marks.
      * simplify_eq/=. by exists marks.
    + done.
  - unfold step_collect in Hstep. simpl in Hstep.
    destruct mpc as [pending'|k| | |r]; simpl in *; try done.
    case_decide; [|done].
    destruct (Sort_sorted keys) as (out & Hout & _). rewrite Hout in Hstep.
    simplify_eq/=. exists marks. rewrite ?app_nil_r. repeat split; try done.
Qed.

Lemma marks_written_initial pending : marks_written pending (initial fl pending).
Proof. exists []. simpl. split; [done|]. split; [done|]. lia. Qed.

Lemma marks_written_run pending schedule s s' :
  flDebug fl = false → invariant fl s →
  marks_written pending s → run fl schedule s = Some s' → marks_written pending s'.
Proof.
  intros Hd. revert s. induction schedule as [|a schedule IH]; intros s Hinv Hm Hrun;
    simpl in *; [by simplify_eq|].
  destruct (step fl a s) as [s1|] eqn:Hstep; simpl in Hrun; [|done].
  eapply (IH s1); [by eapply invariant_step|by eapply marks_written_step|done].
Qed.

Lemma reachable_marks_written pending s :
  flDebug fl = false → reachable fl pending s → marks_written pending s.
Proof.
  intros Hd [schedule Hrun].
  destruct (decide (0 ≤ flConcurrency fl)%Z) as [Hn|Hn].
  - eapply marks_written_run; [done|by apply invariant_initial| |done].
    apply marks_written_initial.
  - apply panicked_run in Hrun as [_ ->]; [apply marks_written_initial|].
    simpl. apply bool_decide_eq_true_2. lia.
Qed.

Lemma reachable_no_lookups pending s :
  flFcrdns fl = false → reachable fl pending s → asked (gathered s) = [].
Proof.
  intros Hplain. apply (reachable_gathered fl (λ g, asked g = [])); [done|].
  intros result g Hg. by rewrite ingest_plain.
Qed.

Lemma reachable_all_true pending s :
  reachable fl pending s → all_true (gathered s).
Proof.
  apply (reachable_gathered fl all_true).
  - intros k v. simpl. by rewrite lookup_empty.
  - intros result g Hg. by apply (ingest_adds fl result g).
Qed.
End written.

Lemma lor_shiftl_add x y k :
  0 ≤ k → 0 ≤ x < 2 ^ k → Z.lor x (Z.shiftl y k) = x + y * 2 ^ k.
Proof.
  intros Hk Hx. rewrite Z.shiftl_mul_pow2 by done.
  symmetry. apply Z.add_nocarry_lor.
  apply Z.bits_inj'. intros n Hn. rewrite Z.land_spec, Z.bits_0.
  destruct (decide (n < k)) as [Hlt|Hge].
  - rewrite Z.mul_pow2_bits_low by done. apply andb_false_r.
  - rewrite <-(Z.mod_small x (2 ^ k)) by done.
    rewrite Z.mod_pow2_bits_high by lia. done.
Qed.

Lemma BigEndian_Uint32_value a :
  BigEndian_Uint32 a = IP_value [b0 a; b1 a; b2 a; b3 a].
Proof.
  unfold BigEndian_Uint32, IP_value. simpl.
  pose proof (byte_to_Z_range (b0 a)). pose proof (byte_to_Z_range (b1 a)).
  pose proof (byte_to_Z_range (b2 a)). pose proof (byte_to_Z_range (b3 a)).
  rewrite (lor_shiftl_add _ _ 8) by lia.
  rewrite (lor_shiftl_add _ _ 16) by lia.
  rewrite (lor_shiftl_add _ _ 24) by lia. lia.
Qed.

Lemma BigEndian_Uint32_inj a b : BigEndian_Uint32 a = BigEndian_Uint32 b → a = b.
Proof.
  rewrite !BigEndian_Uint32_value. intros Heq%IP_value_inj; [|done].
  destruct a, b. by simplify_eq/=.
Qed.

Section less.
Context `{!Net}.

Lemma less_entries_trans x y z :
  less_entries x y = true → less_entries y z = true → less_entries x z = true.
Proof.
  unfold less_entries.
  destruct (ParseIP_To4 (IP x)), (ParseIP_To4 (IP y)), (ParseIP_To4 (IP z));
    try done.
  rewrite !Z.ltb_lt. lia.
Qed.

Lemma Swap_None (r : Results) i j :
  Swap r i j = None ↔ (length r ≤ i ∨ length r ≤ j)%nat.
Proof.
  unfold Swap. destruct (r !! i) as [x|] eqn:Hi; simpl.
  - destruct (r !! j) as [y|] eqn:Hj; simpl.
    + apply lookup_lt_Some in Hi, Hj. split; [done|lia].
    + apply lookup_ge_None in Hj. split; [by right|done].
  - apply lookup_ge_None in Hi. split; [by left|done].
Qed.

Lemma Swap_twice (r r' : Results) i j :
  Swap r i j = Some r' → Swap r' i j = Some r.
Proof.
  unfold Swap. destruct (r !! i) as [x|] eqn:Hi; simpl; [|done].
  destruct (r !! j) as [y|] eqn:Hj; simpl; [|done]. intros [= <-].
  assert (i < length r)%nat by (by eapply lookup_lt_Some).
  assert (j < length r)%nat by (by eapply lookup_lt_Some).
  assert (<[j:=x]> (<[i:=y]> r) !! j = Some x) as ->.
  { apply list_lookup_insert_eq. by rewrite length_insert. }
  destruct (decide (i = j)) as [->|Hij].
  - assert (x = y) as -> by congruence.
    rewrite list_lookup_insert_eq by (by rewrite length_insert). simpl.
    f_equal. rewrite !list_insert_insert_eq. by apply list_insert_id.
  - rewrite list_lookup_insert_ne by done.
    rewrite list_lookup_insert_eq by done. simpl. f_equal.
    apply list_eq. intros k.
    destruct (decide (k = j)) as [->|Hkj].
    + rewrite list_lookup_insert_eq by (by rewrite !length_insert). done.
    + rewrite list_lookup_insert_ne by done.
      destruct (decide (k = i)) as [->|Hki].
      * rewrite list_lookup_insert_eq by (by rewrite !length_insert). done.
      * by rewrite !list_lookup_insert_ne by done.
Qed.
End less.

Section hostname_shape.
Import grammar.

Lemma labels_nonempty cur s : labels cur s ≠ [].
Proof.
  revert cur. induction s as [|c s IH]; intros cur; simpl; [done|].
  case_bool_decide; [done|apply IH].
Qed.

Lemma labels_chars cur s c :
  c ∈ cur ∨ c ∈ s → c = "."%char ∨ ∃ l, l ∈ labels cur s ∧ c ∈ l.
Proof.
  revert cur. induction s as [|d s IH]; intros cur Hc; simpl.
  - destruct Hc as [Hc|Hc]; [|by apply elem_of_nil in Hc].
    right. exists (reverse cur). split; [by left|]. by apply elem_of_reverse.
  - case_bool_decide as Hd; subst.
    + destruct Hc as [Hc|[->|Hc]%elem_of_cons]; [|by left|].
      * right. exists (reverse cur). split; [by left|]. by apply elem_of_reverse.
      * destruct (IH [] (or_intror Hc)) as [->|(l & Hl & Hcl)]; [by left|right].
        exists l. split; [by right|done].
    + apply IH. destruct Hc as [Hc|[->|Hc]%elem_of_cons].
      * left. by right.
      * left. by left.
      * by right.
Qed.

Lemma labels_last cur s l :
  last (labels cur s) = Some l → l ≠ [] → last (reverse cur ++ s) = last l.
Proof.
  revert cur. induction s as [|d s IH]; intros cur Hl Hne; simpl in Hl.
  - simplify_eq. by rewrite app_nil_r.
  - case_bool_decide as Hd; subst.
    + destruct (labels [] s) as [|l0 ls] eqn:Hls; [by apply labels_nonempty in Hls|].
      rewrite last_cons in Hl. rewrite <-Hls in Hl.
      assert (last (labels [] s) = Some l) as Hl'.
      { destruct (last (labels [] s)) eqn:E; [done|].
        apply last_None in E. by apply labels_nonempty in E. }
      pose proof (IH [] Hl' Hne) as Hlast. simpl in Hlast.
      destruct s as [|e s]; [simpl in Hl'; by simplify_eq|].
      rewrite <-Hlast, last_app, (last_cons "."%char (e :: s)).
      destruct (last (e :: s)) eqn:E2; [done|]. by apply last_None in E2.
    + rewrite <-(IH (d :: cur) Hl Hne). rewrite reverse_cons, <-(assoc_L (++)). done.
Qed.

Lemma labels_app_dot cur a b :
  labels cur (a ++ "."%char :: b) = labels cur a ++ labels [] b.
Proof.
  revert cur. induction a as [|c a IH]; intros cur; simpl.
  - done.
  - case_bool_decide; [|apply IH]. by rewrite IH.
Qed.

Lemma label_ok_chars l c : label_ok l = true → c ∈ l → label_char c = true.
Proof.
  unfold label_ok. rewrite !andb_true_iff. intros [[Hall _] _] Hc.
  rewrite forallb_forall in Hall. by apply Hall, list_elem_of_In.
Qed.

Lemma label_ok_last l :
  label_ok l = true → ∃ c, last l = Some c ∧ is_lower_alnum c = true.
Proof.
  intros Hok. pose proof Hok as Hok'.
  unfold label_ok in Hok. rewrite !andb_true_iff in Hok.
  destruct Hok as [[_ _] Hlast].
  destruct (last l) as [c|] eqn:E; [|done].
  exists c. split; [done|]. apply label_char_not_hyphen.
  - apply (label_ok_chars l); [done|]. by apply last_Some_elem_of.
  - by destruct (is_hyphen c).
Qed.

Lemma domain_name_chars (cs : list ascii) c :
  forallb label_ok (labels [] (drop_leading_dot cs)) = true →
  c ∈ cs → c = "."%char ∨ label_char c = true.
Proof.
  intros Hok Hc.
  assert (c = "."%char ∨ c ∈ drop_leading_dot cs) as [->|Hc'].
  { destruct cs as [|d cs]; [by apply elem_of_nil in Hc|]. simpl.
    case_bool_decide; subst; apply elem_of_cons in Hc as [->|Hc]; auto.
    - right. by left.
    - right. by right. }
  { by left. }
  destruct (labels_chars [] _ c (or_intror Hc')) as [->|(l & Hl & Hcl)]; [by left|].
  right. apply (label_ok_chars l); [|done].
  rewrite forallb_forall in Hok. by apply Hok, list_elem_of_In.
Qed.

Lemma domain_name_last (cs : list ascii) :
  forallb label_ok (labels [] (drop_leading_dot cs)) = true →
  ∃ c, last cs = Some c ∧ is_lower_alnum c = true.
Proof.
  intros Hok.
  destruct (last (labels [] (drop_leading_dot cs))) as [l|] eqn:E.
  2:{ apply last_None in E. by apply labels_nonempty in E. }
  assert (label_ok l = true) as Hl.
  { rewrite forallb_forall in Hok. by apply Hok, list_elem_of_In, last_Some_elem_of. }
  destruct (label_ok_last l Hl) as (c & Hc & Halnum).
  assert (l ≠ []) as Hne by (by intros ->).
  pose proof (labels_last [] _ l E Hne) as Hlast. simpl in Hlast.
  exists c. split; [|done]. rewrite <-Hc, <-Hlast.
  destruct cs as [|d cs]; [done|]. simpl. case_bool_decide as Hd; [|done].
  subst d. destruct cs as [|e cs]; [|done].
  simpl in Hlast. by rewrite Hc in Hlast.
Qed.
End hostname_shape.

Section asks.
Context `{!Resolver}.
Variable fl : Flags.
#[local] Open Scope nat_scope.

Lemma lookups_for_shape hist h :
  2 ≤ length (lookups_for fl hist h) ≤ 4 ∧
  Forall (λ q, query_server q = flServerAddr fl) (lookups_for fl hist h).
Proof.
  unfold lookups_for.
  repeat case_match; simpl; (split; [lia|]); repeat constructor.
Qed.

Lemma for_range_confirm_asks result g :
  ∃ qs, asked (for_range result (confirm fl) g).2 = asked g ++ qs ∧
        2 * length result ≤ length qs ≤ 4 * length result ∧
        Forall (λ q, query_server q = flServerAddr fl) qs.
Proof.
  revert g. induction result as [|r result IH]; intros g.
  - exists []. simpl. by rewrite app_nil_r.
  - change (r :: result) with ([r] ++ result). rewrite for_range_app.
    destruct (IH (for_range [r] (confirm fl) g).2) as (qs & Hqs & Hlen & Hall).
    assert ((for_range [r] (confirm fl) g).2 = (confirm fl r g).2) as Hone.
    { unfold for_range. unfold mbind, Gather_bind. by destruct (confirm fl r g) as [[] ?]. }
    rewrite Hone in Hqs. rewrite Hone, Hqs, confirm_asked.
    destruct (lookups_for_shape (asked g) (Hostname r)) as [Hl Hs].
    exists (lookups_for fl (asked g) (Hostname r) ++ qs).
    rewrite <-(assoc_L (++)). split; [done|]. rewrite !length_app. simpl length.
    split; [lia|]. by apply Forall_app.
Qed.

End asks.

Section joined_names.
Import grammar.

Lemma list_ascii_of_string_app (a b : string) :
  list_ascii_of_string (a ++ b)%string = list_ascii_of_string a ++ list_ascii_of_string b.
Proof. induction a as [|c a IH]; [done|]. simpl. by rewrite <-IH. Qed.

Lemma domain_name_join (a b : string) :
  domain_name a = true → domain_name b = true →
  (∀ b', b ≠ String "." b') →
  domain_name (a ++ "." ++ b)%string = true.
Proof.
  unfold domain_name. intros Ha Hb Hdot.
  rewrite !list_ascii_of_string_app.
  change (list_ascii_of_string ".") with ["."%char].
  change (["."%char] ++ list_ascii_of_string b) with ("."%char :: list_ascii_of_string b).
  destruct (domain_name_last _ Ha) as (c & Hc & _).
  assert (drop_leading_dot (list_ascii_of_string b) = list_ascii_of_string b) as Hb'.
  { destruct b as [|d b]; [done|]. simpl. case_bool_decide; [|done].
    subst. by destruct (Hdot b). }
  rewrite Hb' in Hb.
  assert (drop_leading_dot (list_ascii_of_string a ++ "."%char :: list_ascii_of_string b)
          = drop_leading_dot (list_ascii_of_string a) ++ "."%char :: list_ascii_of_string b)
    as ->.
  { destruct (list_ascii_of_string a) as [|d ca]; [done|]. simpl.
    by case_bool_decide. }
  rewrite labels_app_dot, forallb_app, Ha, Hb. done.
Qed.
End joined_names.


(* ===================================================================== *)
(** * Part III: the claims of the specification *)
(* ===================================================================== *)

(** C1: in every run, the slice that [main] builds from [resMap] and sorts
    has no entry twice; it holds exactly the keys of [resMap]; storing a
    record that is stored already changes nothing; and without
    confirmation, a record that one or several of the tasks returned, and
    that the gatherer keeps, is in the slice exactly once. *)
Theorem output_has_no_duplicates `{!Net, !Resolver}
    (fl : Flags) (pending : list task) (s : State) (results : Results) :
  reachable fl pending s → main_pc s = MainOutput results →
  NoDup results ∧
  (∀ r, r ∈ results ↔ r ∈ dom (resMap (gathered s))) ∧
  (∀ r g, (store r (store r g).2).2 = (store r g).2) ∧
  (flFcrdns fl = false →
   ∀ def r, def ∈ pending → ret_err def = None → r ∈ ret_result def →
            kept fl r = true →
            length (filter (λ x, x = r) results) = 1%nat).
Proof.
  intros Hs Hpc.
  pose proof (output_NoDup fl pending s results Hs Hpc) as Hnd.
  destruct (output_quiescent fl pending s results Hs Hpc) as (_ & _ & _ & Hperm).
  split; [done|]. split; [|split].
  - intros r. rewrite <-keys_dom, elem_of_list_to_set. by rewrite Hperm.
  - intros r [m h]. unfold store. simpl. by rewrite insert_insert_eq.
  - intros Hplain def r Hdef Herr Hr Hk. apply NoDup_count_one; [done|].
    apply (elem_of_list_to_set (C:=gset Result)).
    rewrite (output_plain fl pending s results) by done.
    apply elem_of_task_yield. by exists def.
Qed.

Lemma output_has_no_duplicates_witness :
  NoDup [sample.ns1] ∧
  (∀ r, r ∈ [sample.ns1] ↔ r ∈ dom (resMap (gathered sample.final))) ∧
  (∀ r g, (store r (store r g).2).2 = (store r g).2) ∧
  (flFcrdns sample.flags = false →
   ∀ def r, def ∈ [sample.ns_task; sample.ns_task] → ret_err def = None →
            r ∈ ret_result def → kept sample.flags r = true →
            length (filter (λ x, x = r) [sample.ns1]) = 1%nat).
Proof.
  apply (@output_has_no_duplicates dotted.net sample.no_records sample.flags
           [sample.ns_task; sample.ns_task] sample.final [sample.ns1]).
  - exists sample.schedule. vm_compute. reflexivity.
  - vm_compute. reflexivity.
Defined.

(** C2: with at least one pool goroutine and any list of tasks, [main]
    closes [tasks], then receives from [tracker] once per pool goroutine,
    each time from a pool goroutine, then closes [res], then receives from
    [tracker] once more, from the gatherer, and only then ranges over
    [resMap]: what [main] has done of the shutdown is at every moment a
    prefix of that sequence, no goroutine panics, and when [main] reads
    [resMap] every pool goroutine and the gatherer have returned and both
    channels are closed and empty.  Such a run to the end exists. *)
Theorem shutdown_handshake_order `{!Net, !Resolver}
    (fl : Flags) (pending : list task) :
  (1 ≤ flConcurrency fl)%Z →
  shutdown_order fl =
    [CloseTasks] ++ replicate (Z.to_nat (flConcurrency fl)) (TrackerRecv FromPool)
    ++ [CloseRes; TrackerRecv FromGatherer; ReadResMap] ∧
  (∀ s, reachable fl pending s →
     panicked s = false ∧
     events s `prefix_of` shutdown_order fl ∧
     (ReadResMap ∈ events s →
        events s = shutdown_order fl ∧
        Forall (λ w, pool_pc w = PoolExit) (pool s) ∧
        length (pool s) = Z.to_nat (flConcurrency fl) ∧
        gatherer_pc s = GatherExit ∧
        tasks s = mkChan [] true ∧ res s = mkChan [] true)) ∧
  (∃ s results,
     reachable fl pending s ∧ main_pc s = MainOutput results ∧
     events s = shutdown_order fl).
Proof.
  intros HN. split; [done|]. split.
  - intros s Hs.
    destruct (reachable_invariant fl pending s Hs)
      as [[Hnp Hlen Htc Hrc Hdr Hph]|[? _]]; [|lia].
    split; [done|]. split; [by apply phase_events_prefix|].
    intros Hread. destruct (phase_read fl s Hph Hread) as [results Hpc].
    destruct (output_quiescent fl pending s results Hs Hpc) as (Hall & Htk & Hrs & _).
    unfold phase in Hph. rewrite Hpc in Hph.
    destruct Hph as (Hct & Hcr & Hev & _ & Hg & _).
    repeat split; try done.
    + destruct (tasks s); simpl in *; by subst.
    + destruct (res s); simpl in *; by subst.
  - destruct (shutdown_completes fl pending) as (s & results & Hs & Hpc).
    { unfold concurrency. lia. }
    exists s, results. split; [done|]. split; [done|].
    pose proof (reachable_invariant_output fl pending s results Hs Hpc)
      as [_ _ _ _ _ Hph].
    unfold phase in Hph. rewrite Hpc in Hph. by destruct Hph as (_ & _ & -> & _).
Qed.

Lemma shutdown_handshake_order_witness :
  shutdown_order sample.flags =
    [CloseTasks; TrackerRecv FromPool; TrackerRecv FromPool;
     CloseRes; TrackerRecv FromGatherer; ReadResMap] ∧
  (∀ s, @reachable dotted.net sample.no_records sample.flags
          [sample.ns_task; sample.ns_task] s →
     panicked s = false ∧
     events s `prefix_of` shutdown_order sample.flags ∧
     (ReadResMap ∈ events s →
        events s = shutdown_order sample.flags ∧
        Forall (λ w, pool_pc w = PoolExit) (pool s) ∧
        length (pool s) = 2%nat ∧
        gatherer_pc s = GatherExit ∧
        tasks s = mkChan [] true ∧ res s = mkChan [] true)) ∧
  (∃ s results,
     @reachable dotted.net sample.no_records sample.flags
       [sample.ns_task; sample.ns_task] s ∧
     main_pc s = MainOutput results ∧
     events s = shutdown_order sample.flags).
Proof.
  apply (@shutdown_handshake_order dotted.net sample.no_records sample.flags
           [sample.ns_task; sample.ns_task]).
  vm_compute. discriminate.
Defined.

(** C3: with [-fcrdns], the gatherer runs every record of every slice
    through [confirm] and stores nothing else.  An entry that [confirm]
    adds has the source "fcrdns", the hostname of the record and an
    address that forward resolution of that hostname yielded: the A record
    of the name, else the A record of its CNAME, or the AAAA record of the
    name.  A record for whose hostname no resolution yields an address
    leaves [resMap] as it was; the A record of the name, or else of its
    CNAME, is stored when it is found.  So in every run every key of [resMap], and
    every entry of the output, has the source "fcrdns". *)
Theorem forward_confirmation_filters `{!Net, !Resolver} (fl : Flags) :
  let fc := with_fcrdns true fl in
  (∀ result g, ingest fc result g = for_range result (confirm fc) g) ∧
  (∀ r g k,
     k ∈ dom (resMap (confirm fc r g).2) →
     k ∈ dom (resMap g) ∨
     (Source k = "fcrdns"%string ∧ Hostname k = Hostname r ∧
      resolves fc (asked g) (Hostname r) (IP k))) ∧
  (∀ r g,
     (∀ ip, ¬ resolves fc (asked g) (Hostname r) ip) →
     resMap (confirm fc r g).2 = resMap g) ∧
  (∀ r g,
     let srv := flServerAddr fc in
     let q1 := QLookupName (Hostname r) srv in
     let qc := QLookupCname (Hostname r) srv in
     let a1 := answer (asked g) q1 in
     let c := answer (asked g ++ [q1]) qc in
     let a2 := answer (asked g ++ [q1; qc]) (QLookupName c.1 srv) in
     (found a1 = true →
      mkResult "fcrdns" a1.1 (Hostname r) ∈ dom (resMap (confirm fc r g).2)) ∧
     (found a1 = false → found c = true → found a2 = true →
      mkResult "fcrdns" a2.1 (Hostname r) ∈ dom (resMap (confirm fc r g).2))) ∧
  (∀ pending s,
     reachable fc pending s →
     (∀ k, k ∈ dom (resMap (gathered s)) → Source k = "fcrdns"%string) ∧
     (∀ results k, main_pc s = MainOutput results → k ∈ results →
                   Source k = "fcrdns"%string)).
Proof.
  intros fc. split; [|split; [|split; [|split]]].
  - intros result g. by apply ingest_confirm.
  - intros r g k. apply confirm_adds_resolved.
  - intros r g. apply confirm_drops_unresolved.
  - intros r g srv q1 qc a1 c a2. split.
    + intros Ha1. apply (confirm_stores_v4 fc r g). by left.
    + intros Ha1 Hc Ha2. apply (confirm_stores_v4 fc r g). by right.
  - intros pending s Hs.
    assert (∀ k, k ∈ dom (resMap (gathered s)) → Source k = "fcrdns"%string) as Hsrc.
    { revert s Hs. apply (reachable_gathered fc
        (λ g, ∀ k, k ∈ dom (resMap g) → Source k = "fcrdns"%string)).
      - intros k. simpl. by rewrite dom_empty_L.
      - intros result g Hg. rewrite ingest_confirm by done.
        by apply for_range_confirm_sources. }
    split; [done|]. intros results k Hpc Hk. apply Hsrc.
    destruct (output_quiescent fc pending s results Hs Hpc) as (_ & _ & _ & Hperm).
    rewrite <-keys_dom, elem_of_list_to_set. by rewrite <-Hperm.
Qed.

(** C4, as the code has it: the gatherer does not read [-ipv6].  With
    [-fcrdns], the lookup of the AAAA record of the hostname is the last
    lookup made for every record, whatever [-ipv6] is, and when it finds
    an address the entry with the source "fcrdns", that address and the
    hostname of the record is stored. *)
Theorem ipv6_lookup_whatever_the_flag `{!Resolver}
    (fl : Flags) (b : bool) (r : Result) (result : Results) (g : Gathered) :
  let q6 := QLookupName6 (Hostname r) (flServerAddr fl) in
  confirm (with_ipv6 b fl) r g = confirm fl r g ∧
  ingest (with_ipv6 b fl) result g = ingest fl result g ∧
  ∃ hist,
    asked g `prefix_of` hist ∧
    asked (confirm fl r g).2 = hist ++ [q6] ∧
    (found (answer hist q6) = true →
     resMap (confirm fl r g).2 !! mkResult "fcrdns" (answer hist q6).1 (Hostname r)
       = Some true).
Proof.
  intros q6. split; [done|]. split; [done|]. apply confirm_asks_v6.
Qed.

(** C4 as stated fails: without [-ipv6] and with [-fcrdns], the lookup of
    the AAAA record is made and its address is stored. *)
Lemma ipv6_lookup_made_without_ipv6_flag :
  let fl := with_fcrdns true sample.flags in
  let g := (@ingest sample.aaaa_records fl [sample.ns1] (mkGathered ∅ [])).2 in
  flipv6 fl = false ∧ flFcrdns fl = true ∧
  QLookupName6 "ns1.example.com" "8.8.8.8" ∈ asked g ∧
  resMap g !! mkResult "fcrdns" "2001:db8::1" "ns1.example.com" = Some true.
Proof.
  split; [reflexivity|]. split; [reflexivity|]. split.
  - vm_compute. set_solver.
  - vm_compute. reflexivity.
Qed.

(** C5: without [-fcrdns] and with [-validate], the gatherer stores
    exactly the records of a slice whose hostname is a domain name of the
    grammar, which is what [regexp.Match] with [domainReg] decides, and
    drops the others: "bad_host!" is dropped and "sub.example.com" is
    kept.  With [-fcrdns], [-validate] changes nothing. *)
Theorem validation_filter `{!Resolver}
    (fl : Flags) (result : Results) (g : Gathered) :
  let validating := with_fcrdns false (with_validate true fl) in
  (∀ hostname,
     regexp.Match domainReg (list_ascii_of_string hostname)
       = (grammar.domain_name hostname, None)) ∧
  (∀ r, accept validating r g =
          if grammar.domain_name (Hostname r) then store r g else skip g) ∧
  ingest validating result g =
    ((), mkGathered
           (store_all (filter (λ r, grammar.domain_name (Hostname r) = true) result)
                      (resMap g))
           (asked g)) ∧
  (∀ r, r ∈ dom (resMap (ingest validating result g).2) ↔
        r ∈ dom (resMap g) ∨ (r ∈ result ∧ grammar.domain_name (Hostname r) = true)) ∧
  grammar.domain_name "bad_host!" = false ∧
  grammar.domain_name "sub.example.com" = true ∧
  ingest (with_fcrdns true (with_validate true fl)) result g
    = ingest (with_fcrdns true (with_validate false fl)) result g.
Proof.
  intros validating.
  assert (ingest validating result g =
    ((), mkGathered
           (store_all (filter (λ r, grammar.domain_name (Hostname r) = true) result)
                      (resMap g))
           (asked g))) as Hingest.
  { rewrite ingest_plain by done. done. }
  split; [apply domainReg_decides_grammar|]. split; [|split; [done|split]].
  - intros r. rewrite accept_kept. unfold kept. simpl.
    by destruct (grammar.domain_name (Hostname r)).
  - intros r. rewrite Hingest. simpl.
    rewrite dom_store_all, elem_of_union, elem_of_list_to_set, list_elem_of_filter.
    naive_solver.
  - split; [by vm_compute|]. split; [by vm_compute|].
    rewrite !ingest_confirm by done. done.
Qed.

(** C6: [sort.Sort] returns on every slice, with a rearrangement of it in
    which every entry whose IP field has no IPv4 form stands before every
    entry whose IP field has one, and in which any two adjacent entries that
    both have an IPv4 form carry their 32-bit values in ascending order; the
    output of every run of [main] is in that order.  Nothing is said of the
    order of the entries without an IPv4 form among themselves. *)
Theorem sort_partitions_and_ascends `{!Net} (results : Results) :
  (∃ sorted : Results,
     sort.Sort results = Some sorted ∧
     sorted ≡ₚ results ∧
     (∀ i j x y,
         sorted !! i = Some x → sorted !! j = Some y →
         ParseIP_To4 (IP x) = None → is_Some (ParseIP_To4 (IP y)) →
         (i < j)%nat) ∧
     (∀ i x y a b,
         sorted !! i = Some x → sorted !! S i = Some y →
         ParseIP_To4 (IP x) = Some a → ParseIP_To4 (IP y) = Some b →
         0 ≤ BigEndian_Uint32 a ≤ BigEndian_Uint32 b ∧ BigEndian_Uint32 b < 2 ^ 32)) ∧
  (∀ (dns : Resolver) fl pending s output,
     reachable fl pending s → main_pc s = MainOutput output → ipv4_order output).
Proof.
  split.
  - destruct (Sort_sorted results) as (sorted & Hrun & Hperm & Hsorted).
    exists sorted. split; [done|]. split; [done|].
    by apply sorted_ipv4_order.
  - intros dns fl pending s output Hs Hpc.
    pose proof (reachable_invariant_output fl pending s output Hs Hpc)
      as [_ _ _ _ _ Hph].
    unfold phase in Hph. rewrite Hpc in Hph.
    apply sorted_ipv4_order. by destruct Hph as (_ & _ & _ & _ & _ & _ & _ & ?).
Qed.

(** C7, as the code has it: without [-timeout] on the command line, the
    timeout that [main] passes to the tasks is 600, not 500. *)
Theorem default_timeout_is_600
    (c : option Z) (d v i f : option bool) (srv : option string) :
  let fl := flag_Parse (mkCommandLine None c d v i srv f) in
  flTimeout fl = 600%Z ∧ timeout_for_calls fl = 600%Z ∧ timeout_for_calls fl ≠ 500%Z.
Proof. by vm_compute. Qed.

(** C8, as the code has it: a pool goroutine that has received a task
    which returns no error goes on to send the slice of results on [res],
    whether the slice is empty or not, and the send appends it to the
    channel when the channel is open and has room; it is the gatherer that
    skips an empty slice, leaving what it owns untouched. *)
Theorem pool_sends_every_successful_result `{!Net, !Resolver}
    (fl : Flags) (s : State) (i : nat) (w : PoolState)
    (def : task) (queued : list task) :
  panicked s = false → pool s !! i = Some w → pool_pc w = PoolRange →
  buf (tasks s) = def :: queued → ret_err def = None →
  (∃ s1,
     step fl (Pool i) s = Some s1 ∧
     pool_pc <$> pool s1 !! i = Some (PoolSend (ret_result def)) ∧
     res s1 = res s ∧ panicked s1 = false ∧
     (closed (res s) = false → (length (buf (res s)) < concurrency fl)%nat →
      ∃ s2, step fl (Pool i) s1 = Some s2 ∧
            res s2 = mkChan (buf (res s) ++ [ret_result def]) false ∧
            pool_pc <$> pool s2 !! i = Some PoolRange)) ∧
  (∀ g, ingest fl [] g = ((), g)).
Proof.
  intros Hnp Hw Hpc Htk Herr. split; [|done].
  rewrite (step_pool_receive fl s i w def queued) by done.
  destruct def as [label result err]. simpl in Herr. subst err.
  destruct (run_task_success fl (pool_c w) label result) as (c & o & ->).
  eexists. split; [done|]. simpl.
  assert (i < length (pool s))%nat by (by eapply lookup_lt_Some).
  rewrite list_lookup_insert_eq by done. repeat split; try done.
  intros Hopen Hroom. unfold step, step_pool. simpl. rewrite Hnp.
  rewrite list_lookup_insert_eq by done. simpl.
  rewrite Hopen, decide_True by done.
  eexists. split; [done|]. simpl.
  by rewrite list_lookup_insert_eq by (by rewrite length_insert).
Qed.

Lemma pool_sends_every_successful_result_witness :
  let s := sample.after_send sample.empty_task in
  (∃ s1,
     @step dotted.net sample.no_records sample.flags (Pool 0) s = Some s1 ∧
     pool_pc <$> pool s1 !! 0%nat = Some (PoolSend []) ∧
     res s1 = res s ∧ panicked s1 = false ∧
     (closed (res s) = false → (length (buf (res s)) < concurrency sample.flags)%nat →
      ∃ s2, @step dotted.net sample.no_records sample.flags (Pool 0) s1 = Some s2 ∧
            res s2 = mkChan (buf (res s) ++ [[]]) false ∧
            pool_pc <$> pool s2 !! 0%nat = Some PoolRange)) ∧
  (∀ g, @ingest sample.no_records sample.flags [] g = ((), g)).
Proof.
  apply (@pool_sends_every_successful_result dotted.net sample.no_records
           sample.flags (sample.after_send sample.empty_task) 0
           (mkPool PoolRange 0) sample.empty_task []); reflexivity.
Defined.

(** C8 as stated fails: the task returns no error and no record, and the
    pool goroutine sends its empty slice on [res]. *)
Lemma empty_result_is_sent_on_res :
  ret_err sample.empty_task = None ∧ ret_result sample.empty_task = [] ∧
  (buf ∘ res) <$>
    @run dotted.net sample.no_records sample.flags [Main; Pool 0; Pool 0]
      (initial sample.flags [sample.empty_task])
  = Some [[]].
Proof. by vm_compute. Qed.

(** C9: a pool goroutine that receives a task which returns an error
    sends nothing on [res] and leaves what the gatherer owns untouched;
    the task is gone from [tasks] and is not queued again, and the
    goroutine is back at its range; no other goroutine is affected; the
    error is written, after the label of the task, by [log.Printf] with
    [-debug] and not at all without it, when only the progress mark goes
    to standard error.  So, without confirmation, every entry of the
    output comes from a task that returned no error. *)
Theorem failed_task_is_dropped `{!Net, !Resolver}
    (fl : Flags) (s : State) (i : nat) (w : PoolState)
    (def : task) (queued : list task) (e : string) :
  panicked s = false → pool s !! i = Some w → pool_pc w = PoolRange →
  buf (tasks s) = def :: queued → ret_err def = Some e →
  (∃ s' progress,
     step fl (Pool i) s = Some s' ∧
     res s' = res s ∧ gathered s' = gathered s ∧
     tasks s' = mkChan queued (closed (tasks s)) ∧
     pool_pc <$> pool s' !! i = Some PoolRange ∧
     (∀ j, j ≠ i → pool s' !! j = pool s !! j) ∧
     main_pc s' = main_pc s ∧ gatherer_pc s' = gatherer_pc s ∧
     events s' = events s ∧ panicked s' = false ∧
     written s' =
       written s ++ progress
       ++ (if flDebug fl then [LogPrint (ret_task def ++ ": " ++ e)] else []) ∧
     Forall is_progress progress ∧ (flDebug fl = true → progress = [])) ∧
  (flFcrdns fl = false →
   ∀ pending final results r,
     reachable fl pending final → main_pc final = MainOutput results →
     r ∈ results →
     ∃ ok, ok ∈ pending ∧ ret_err ok = None ∧ r ∈ ret_result ok).
Proof.
  intros Hnp Hw Hpc Htk Herr. split.
  - rewrite (step_pool_receive fl s i w def queued) by done.
    destruct def as [label result err]. simpl in Herr. subst err.
    destruct (run_task_failure fl (pool_c w) label result e)
      as (c & progress & -> & Hprogress & Hdebug).
    eexists _, progress. split; [done|]. simpl.
    assert (i < length (pool s))%nat by (by eapply lookup_lt_Some).
    rewrite list_lookup_insert_eq by done. repeat split; try done.
    intros j Hj. by rewrite list_lookup_insert_ne.
  - intros Hplain pending final results r Hfinal Hpc' Hr.
    apply (elem_of_list_to_set (C:=gset Result)) in Hr.
    rewrite (output_plain fl pending final results) in Hr by done.
    apply elem_of_task_yield in Hr as (ok & ? & ? & ? & _). by exists ok.
Qed.

Lemma failed_task_is_dropped_witness :
  let s := sample.after_send sample.failed_task in
  (∃ s' progress,
     @step dotted.net sample.no_records sample.flags (Pool 0) s = Some s' ∧
     res s' = res s ∧ gathered s' = gathered s ∧
     tasks s' = mkChan [] (closed (tasks s)) ∧
     pool_pc <$> pool s' !! 0%nat = Some PoolRange ∧
     (∀ j, j ≠ 0%nat → pool s' !! j = pool s !! j) ∧
     main_pc s' = main_pc s ∧ gatherer_pc s' = gatherer_pc s ∧
     events s' = events s ∧ panicked s' = false ∧
     written s' =
       written s ++ progress
       ++ (if flDebug sample.flags
           then [LogPrint ("axfr" ++ ": " ++ "transfer refused")] else []) ∧
     Forall is_progress progress ∧ (flDebug sample.flags = true → progress = [])) ∧
  (flFcrdns sample.flags = false →
   ∀ pending final results r,
     @reachable dotted.net sample.no_records sample.flags pending final →
     main_pc final = MainOutput results →
     r ∈ results →
     ∃ ok, ok ∈ pending ∧ ret_err ok = None ∧ r ∈ ret_result ok).
Proof.
  apply (@failed_task_is_dropped dotted.net sample.no_records
           sample.flags (sample.after_send sample.failed_task) 0
           (mkPool PoolRange 0) sample.failed_task [] "transfer refused");
    reflexivity.
Defined.

(** C10: on two entries whose IP fields both have no IPv4 form, [Less]
    answers true in both directions, and true for an entry against itself,
    so on such entries it is neither irreflexive nor asymmetric. *)
Theorem Less_true_both_ways_without_ipv4 `{!Net}
    (r : Results) (i j : nat) (ri rj : Result) :
  r !! i = Some ri → r !! j = Some rj →
  ParseIP_To4 (IP ri) = None → ParseIP_To4 (IP rj) = None →
  Less r i j = Some true ∧ Less r j i = Some true ∧ Less r i i = Some true.
Proof.
  intros Hi Hj Hni Hnj.
  rewrite (Less_lookup r i j ri rj), (Less_lookup r j i rj ri),
    (Less_lookup r i i ri ri) by done.
  unfold less_entries. by rewrite Hni, Hnj.
Qed.

Lemma Less_true_both_ways_without_ipv4_witness :
  @Less dotted.net sample.two_v6_entries 0 1 = Some true ∧
  @Less dotted.net sample.two_v6_entries 1 0 = Some true ∧
  @Less dotted.net sample.two_v6_entries 0 0 = Some true.
Proof.
  apply (@Less_true_both_ways_without_ipv4 dotted.net sample.two_v6_entries 0 1
           (mkResult "ns" "2001:db8::1" "ns1.example.com")
           (mkResult "mx" "not-an-address" "mail.example.com"));
    reflexivity.
Defined.
(* ===================================================================== *)
(** * Part IV: further properties of the code *)
(* ===================================================================== *)

Section address_list.
Context `{!NetText}.

(** X1: [increaseIP] adds one to the number that the bytes of the
    address write, most significant byte first, modulo 256 to the number
    of bytes: the slice keeps its length, the address of all 255s becomes
    the address of all zeros, and two different addresses of the same
    length are increased to different addresses. *)
Theorem increaseIP_adds_one (ip ip' : net.IP) :
  length (increaseIP ip) = length ip ∧
  IP_value (increaseIP ip) = (IP_value ip + 1) mod 256 ^ Z.of_nat (length ip) ∧
  (Forall (λ b, byte_to_Z b = 255) ip →
   Forall (λ b, byte_to_Z b = 0) (increaseIP ip)) ∧
  (length ip = length ip' → increaseIP ip = increaseIP ip' → ip = ip').
Proof.
  split; [apply increaseIP_length|]. split; [apply increaseIP_value|]. split.
  - induction ip as [|b l IH] using rev_ind; [done|].
    intros [Hl [Hb _]%Forall_cons]%Forall_app. rewrite increaseIP_snoc.
    unfold net.byte_inc. rewrite byte_to_of_Z, Hb.
    change ((255 + 1) mod 256) with 0. rewrite bool_decide_eq_false_2 by lia.
    apply Forall_app. split; [by apply IH|].
    constructor; [|done]. by rewrite byte_to_of_Z.
  - intros Hlen Heq. apply IP_value_inj; [done|].
    apply (f_equal IP_value) in Heq. rewrite !increaseIP_value, <-Hlen in Heq.
    pose proof (IP_value_range ip) as Hr. pose proof (IP_value_range ip') as Hr'.
    rewrite <-Hlen in Hr'.
    set (N := 256 ^ Z.of_nat (length ip)) in *.
    destruct (decide (IP_value ip + 1 = N)) as [Hw|Hw];
      destruct (decide (IP_value ip' + 1 = N)) as [Hw'|Hw']; [lia| | |].
    + rewrite Hw, Z.mod_same, Z.mod_small in Heq by lia. lia.
    + rewrite Hw', Z.mod_same, Z.mod_small in Heq by lia. lia.
    + rewrite !Z.mod_small in Heq by lia. lia.
Qed.

(** X2: lines that [net.ParseIP] accepts are returned as they are
    written, in their order and as often as they occur, with no error. *)
Theorem linesToIPList_keeps_addresses (fuel : nat) (lines : list string) :
  Forall (λ line, is_Some (ParseIP line)) lines →
  linesToIPList fuel lines = Some (lines, None).
Proof. intros Hall. unfold linesToIPList. by rewrite lines_loop_valid. Qed.

(** X3: at the first line that is neither an address nor a network,
    [linesToIPList] stops and returns the addresses of the lines before
    it with the error that quotes the line; the lines after it are not
    read. *)
Theorem linesToIPList_stops_at_bad_line
    (fuel : nat) (pre rest ips : list string) (bad : string) :
  ParseIP bad = None → ParseCIDR bad = None →
  linesToIPList fuel pre = Some (ips, None) →
  linesToIPList fuel (pre ++ bad :: rest) =
    Some (ips, Some (quote ++ bad ++ quote ++ " is not an IP Address or CIDR Network")%string).
Proof.
  intros Hip Hcidr Hpre. unfold linesToIPList in *.
  rewrite lines_loop_app, Hpre. simpl. by rewrite Hip, Hcidr.
Qed.

(** X4: the addresses of two lists of lines one after the other are
    the addresses of the first list followed by those of the second,
    with the error of the second, when the first list has none; [main]
    builds [ipAddrList] from the command line and from the [-input] file
    in this way. *)
Theorem linesToIPList_of_two_lists
    (fuel : nat) (l1 l2 ips1 ips2 : list string) (e : option string) :
  linesToIPList fuel l1 = Some (ips1, None) →
  linesToIPList fuel l2 = Some (ips2, e) →
  linesToIPList fuel (l1 ++ l2) = Some (ips1 ++ ips2, e).
Proof.
  unfold linesToIPList. intros H1 H2.
  rewrite lines_loop_app, H1, lines_loop_acc, H2. done.
Qed.

(** X5: for a line that [net.ParseCIDR] reads as an IPv4 network with
    a prefix of [n] bits, [1 <= n <= 32], the loop over the network ends
    and [linesToIPList] returns the [2 ^ (32 - n)] addresses of the
    network, one each, in ascending order from the network's first
    address, the address in the line with its host bits cleared. *)
Theorem linesToIPList_lists_ipv4_network
    (fuel : nat) (line : string) (ip a : net.IP) (network : net.IPNet) (n : Z) :
  ParseIP line = None →
  ParseCIDR line = Some (ip, network) →
  ip = a ∨ ip = net.v4InV6Prefix ++ a → length a = 4%nat →
  length (net.IPNet_Mask network) = 4%nat →
  IP_value (net.IPNet_Mask network) = 2 ^ 32 - 2 ^ (32 - n) → 1 ≤ n ≤ 32 →
  net.IPNet_IP network = net.Mask ip (net.IPNet_Mask network) →
  (Z.to_nat (2 ^ (32 - n)) < fuel)%nat →
  ∃ ips : list net.IP,
    linesToIPList fuel [line] = Some (IP_String <$> ips, None) ∧
    length ips = Z.to_nat (2 ^ (32 - n)) ∧
    ∀ j x, ips !! j = Some x →
           length x = 4%nat ∧
           IP_value x = IP_value a - IP_value a mod 2 ^ (32 - n) + Z.of_nat j.
Proof.
  intros Hip Hcidr Hform Ha Hm Hmask Hn Hnet Hfuel.
  destruct (ipv4_network ip a network (32 - n))
    as (Hlen & Hbase & Hzero & Hb0 & Hb1 & Hin); [done|done|done|done|lia|done|].
  set (start := net.Mask ip (net.IPNet_Mask network)) in *.
  set (base := IP_value a - IP_value a mod 2 ^ (32 - n)) in *.
  set (k := 32 - n) in *.
  assert (0 < 2 ^ k) as Hpos by (apply Z.pow_pos_nonneg; lia).
  assert (2 ^ k < 2 ^ 32) as Hlt by (apply Z.pow_lt_mono_r; lia).
  assert (∀ j, length (Nat.iter j increaseIP start) = 4%nat) as Hlenj
    by (intros j; by rewrite iter_increaseIP_length).
  assert (∀ j, IP_value (Nat.iter j increaseIP start) = (base + Z.of_nat j) mod 2 ^ 32)
    as Hvalj.
  { intros j. rewrite iter_increaseIP_value, Hlen, Hbase. done. }
  exists ((λ j, Nat.iter j increaseIP start) <$> seq 0 (Z.to_nat (2 ^ k))).
  split; [|split].
  - unfold linesToIPList. simpl. rewrite Hip, Hcidr. fold start.
    rewrite (cidr_loop_counts (Z.to_nat (2 ^ k))); [|..|done].
    + simpl. by rewrite <-list_fmap_compose.
    + intros j Hj. apply Hin; [done|]. rewrite Hvalj.
      rewrite Z.mod_small by lia.
      replace (base + Z.of_nat j) with (Z.of_nat j + (base / 2 ^ k) * 2 ^ k).
      2:{ pose proof (Z.div_mod base (2 ^ k)). lia. }
      rewrite Z.mod_add, Z.mod_small by lia.
      pose proof (Z.div_mod base (2 ^ k)). lia.
    + apply not_true_iff_false. rewrite Hin by done. rewrite Hvalj, Z2Nat.id by lia.
      destruct (decide (base + 2 ^ k = 2 ^ 32)) as [Hw|Hw].
      * rewrite Hw, Z.mod_same by lia. rewrite Z.mod_0_l by lia. lia.
      * rewrite Z.mod_small by lia.
        replace (base + 2 ^ k) with (0 + (base / 2 ^ k + 1) * 2 ^ k).
        2:{ pose proof (Z.div_mod base (2 ^ k)). lia. }
        rewrite Z.mod_add, Z.mod_0_l by lia.
        pose proof (Z.div_mod base (2 ^ k)). lia.
  - by rewrite length_fmap, length_seq.
  - intros j x Hx. apply list_lookup_fmap_Some in Hx as (i & -> & Hi).
    apply lookup_seq in Hi as [-> Hi]. simpl.
    split; [done|]. rewrite Hvalj, Z.mod_small; [done|lia].
Qed.

End address_list.


Lemma linesToIPList_keeps_addresses_witness :
  @linesToIPList quad.text 0 ["8.8.8.8"; "10.0.0.1"; "8.8.8.8"]%string
    = Some (["8.8.8.8"; "10.0.0.1"; "8.8.8.8"]%string, None).
Proof.
  apply (@linesToIPList_keeps_addresses quad.text 0).
  repeat constructor; by eexists.
Defined.

Lemma linesToIPList_stops_at_bad_line_witness :
  @linesToIPList quad.text 0 ["8.8.8.8"; "8.8.8"; "1.1.1.1"]%string
    = Some (["8.8.8.8"]%string,
            Some (quote ++ "8.8.8" ++ quote ++ " is not an IP Address or CIDR Network")%string).
Proof.
  apply (@linesToIPList_stops_at_bad_line quad.text 0
           ["8.8.8.8"%string] ["1.1.1.1"%string] ["8.8.8.8"%string] "8.8.8");
    reflexivity.
Defined.

Lemma linesToIPList_of_two_lists_witness :
  @linesToIPList quad.text 3 ["10.0.0.8/31"; "8.8.8.8"; "bad"]%string
    = Some (["10.0.0.8"; "10.0.0.9"; "8.8.8.8"]%string,
            Some (quote ++ "bad" ++ quote ++ " is not an IP Address or CIDR Network")%string).
Proof.
  apply (@linesToIPList_of_two_lists quad.text 3
           ["10.0.0.8/31"%string] ["8.8.8.8"; "bad"]%string
           ["10.0.0.8"; "10.0.0.9"]%string ["8.8.8.8"%string]);
    reflexivity.
Defined.

Lemma linesToIPList_lists_ipv4_network_witness :
  ∃ ips : list net.IP,
    @linesToIPList quad.text 5 ["10.0.0.5/30"%string]
      = Some (@IP_String quad.text <$> ips, None) ∧
    length ips = Z.to_nat (2 ^ (32 - 30)) ∧
    ∀ j x, ips !! j = Some x →
           length x = 4%nat ∧
           IP_value x
           = IP_value sample.ten_0_0_5 - IP_value sample.ten_0_0_5 mod 2 ^ (32 - 30) + Z.of_nat j.
Proof.
  apply (@linesToIPList_lists_ipv4_network quad.text 5 "10.0.0.5/30"
           (net.v4InV6Prefix ++ sample.ten_0_0_5) sample.ten_0_0_5 sample.slash_30 30).
  - reflexivity.
  - reflexivity.
  - by right.
  - reflexivity.
  - reflexivity.
  - reflexivity.
  - lia.
  - reflexivity.
  - vm_compute. lia.
Defined.



(** X7: [Less] is transitive on the entries of a slice, whatever their IP
    fields hold. *)
Theorem Less_is_transitive `{!Net} (r : Results) (i j k : nat) :
  Less r i j = Some true → Less r j k = Some true → Less r i k = Some true.
Proof.
  unfold Less.
  destruct (r !! i) as [ri|]; [|done]. destruct (r !! j) as [rj|]; [|done].
  destruct (r !! k) as [rk|]; [|done]. simpl.
  intros [= Hij] [= Hjk]. f_equal. by eapply less_entries_trans.
Qed.

Lemma Less_is_transitive_witness :
  @Less dotted.net sample.mixed 2 0 = Some true.
Proof.
  apply (@Less_is_transitive dotted.net sample.mixed 2 4 0); reflexivity.
Defined.

(** X8: on two entries whose IP fields both have an IPv4 form, [Less] is
    the strict order of the 32-bit values: false for an entry against
    itself, never true in both directions, true exactly when the first
    value is the smaller, and false in both directions only when the two
    addresses have the same four bytes. *)
Theorem Less_is_strict_on_ipv4 `{!Net}
    (r : Results) (i j : nat) (ri rj : Result) (a b : IPv4) :
  r !! i = Some ri → r !! j = Some rj →
  ParseIP_To4 (IP ri) = Some a → ParseIP_To4 (IP rj) = Some b →
  Less r i i = Some false ∧
  (Less r i j = Some true ↔ BigEndian_Uint32 a < BigEndian_Uint32 b) ∧
  (Less r i j = Some true → Less r j i = Some false) ∧
  (Less r i j = Some false → Less r j i = Some false → a = b).
Proof.
  intros Hi Hj Ha Hb.
  rewrite (Less_lookup r i i ri ri), (Less_lookup r i j ri rj),
    (Less_lookup r j i rj ri) by done.
  unfold less_entries. rewrite Ha, Hb.
  split; [by rewrite Z.ltb_irrefl|]. split; [|split].
  - split; [intros [= Hlt%Z.ltb_lt]; done|]. intros Hlt%Z.ltb_lt. by rewrite Hlt.
  - intros [= Hlt%Z.ltb_lt]. f_equal. apply Z.ltb_ge. lia.
  - intros [= H1%Z.ltb_ge] [= H2%Z.ltb_ge]. apply BigEndian_Uint32_inj. lia.
Qed.

Lemma Less_is_strict_on_ipv4_witness :
  @Less dotted.net sample.mixed 0 0 = Some false ∧
  (@Less dotted.net sample.mixed 0 2 = Some true ↔
   BigEndian_Uint32 (mkIPv4 Byte.x0a Byte.x00 Byte.x00 Byte.x02)
   < BigEndian_Uint32 (mkIPv4 Byte.x08 Byte.x08 Byte.x08 Byte.x08)) ∧
  (@Less dotted.net sample.mixed 0 2 = Some true →
   @Less dotted.net sample.mixed 2 0 = Some false) ∧
  (@Less dotted.net sample.mixed 0 2 = Some false →
   @Less dotted.net sample.mixed 2 0 = Some false →
   mkIPv4 Byte.x0a Byte.x00 Byte.x00 Byte.x02
   = mkIPv4 Byte.x08 Byte.x08 Byte.x08 Byte.x08).
Proof.
  apply (@Less_is_strict_on_ipv4 dotted.net sample.mixed 0 2
           (mkResult "tls" "10.0.0.2" "b.example.com") sample.dns_google);
    reflexivity.
Defined.

(** X9: [Swap] panics exactly when one of the two indices is out of
    range; otherwise it exchanges the two entries and leaves every other
    entry where it was, so that the slice is rearranged and a second
    [Swap] of the same indices restores it. *)
Theorem Swap_exchanges (r : Results) (i j : nat) :
  (Swap r i j = None ↔ (length r ≤ i ∨ length r ≤ j)%nat) ∧
  ∀ r', Swap r i j = Some r' →
    Swap r' i j = Some r ∧ r' ≡ₚ r ∧
    r' !! i = r !! j ∧ r' !! j = r !! i ∧
    ∀ k, k ≠ i → k ≠ j → r' !! k = r !! k.
Proof.
  split; [apply Swap_None|]. intros r' Hswap.
  split; [by apply Swap_twice|].
  unfold Swap in Hswap.
  destruct (r !! i) as [x|] eqn:Hi; simpl in Hswap; [|done].
  destruct (r !! j) as [y|] eqn:Hj; simpl in Hswap; [|done].
  injection Hswap as <-.
  split; [by apply swapped_perm|].
  rewrite !(swapped_lookup r i j x y) by done.
  split; [|split].
  - repeat case_decide; congruence.
  - by rewrite decide_True.
  - intros k Hki Hkj. rewrite (swapped_lookup r i j x y) by done.
    by rewrite !decide_False.
Qed.



Section runs.
Context `{!Net, !Resolver}.

(** X11: every run is finite: from the moment [main] is about to send
    the first task, the goroutines make at most
    [4 * tasks + 2 * concurrency + 5] steps, under every schedule. *)
Theorem every_run_is_bounded
    (fl : Flags) (pending : list task) (schedule : list Action) (s : State) :
  run fl schedule (initial fl pending) = Some s →
  (length schedule ≤ 4 * length pending + 2 * concurrency fl + 5)%nat.
Proof.
  intros Hrun. pose proof (run_bounded fl pending schedule s Hrun). lia.
Qed.

(** X12: with at least one pool goroutine the program cannot deadlock:
    in every state that a run reaches, either [main] is at [output] or
    some goroutine can move, and the run can be continued until [main]
    is at [output]. *)
Theorem no_deadlock (fl : Flags) (pending : list task) (s : State) :
  (1 ≤ flConcurrency fl)%Z → reachable fl pending s →
  ((∃ results, main_pc s = MainOutput results) ∨ ∃ a s', step fl a s = Some s') ∧
  ∃ schedule s' results,
    run fl schedule s = Some s' ∧ main_pc s' = MainOutput results.
Proof.
  intros HN Hs.
  assert (0 < concurrency fl)%nat as HN' by (unfold concurrency; lia).
  assert (invariant fl s) as Hinv.
  { destruct (reachable_invariant fl pending s Hs) as [?|[? _]]; [done|lia]. }
  split; [by apply some_goroutine_moves|by apply invariant_finishes].
Qed.

(** X13: with [-concurrency 0] and a task to send, nothing ever moves:
    [main] blocks at its first send on [tasks], which has no buffer and
    no receiver, and the gatherer blocks on [res]; with a negative
    [-concurrency] the program has panicked at [make]. *)
Theorem no_pool_no_progress (fl : Flags) (t : task) (pending : list task) :
  (flConcurrency fl ≤ 0)%Z →
  (∀ a, step fl a (initial fl (t :: pending)) = None) ∧
  (∀ schedule s, run fl schedule (initial fl (t :: pending)) = Some s → schedule = []).
Proof.
  intros HN.
  assert (∀ a, step fl a (initial fl (t :: pending)) = None) as Hstuck.
  { intros a. destruct (decide (flConcurrency fl = 0)%Z) as [Hzero|Hneg].
    - by apply no_pool_stuck.
    - unfold step. simpl. by rewrite bool_decide_eq_true_2 by lia. }
  split; [done|]. intros [|a schedule] s Hrun; [done|].
  simpl in Hrun. by rewrite Hstuck in Hrun.
Qed.

(** X14: without [-fcrdns], the records that [main] hands to [output] do
    not depend on the order in which the goroutines move, on
    [-concurrency], on [-debug] or on the order of the tasks: two runs
    to the end over the same tasks, under flags that agree on
    [-validate], end with rearrangements of the same slice. *)
Theorem plain_output_independent_of_schedule
    (fl1 fl2 : Flags) (p1 p2 : list task) (s1 s2 : State) (r1 r2 : Results) :
  flFcrdns fl1 = false → flFcrdns fl2 = false →
  flValidate fl1 = flValidate fl2 → p1 ≡ₚ p2 →
  reachable fl1 p1 s1 → main_pc s1 = MainOutput r1 →
  reachable fl2 p2 s2 → main_pc s2 = MainOutput r2 →
  r1 ≡ₚ r2.
Proof.
  intros Hf1 Hf2 Hv Hp Hs1 Hpc1 Hs2 Hpc2.
  pose proof (output_plain fl1 p1 s1 r1 Hf1 Hs1 Hpc1) as H1.
  pose proof (output_plain fl2 p2 s2 r2 Hf2 Hs2 Hpc2) as H2.
  apply NoDup_Permutation.
  - exact (output_NoDup fl1 p1 s1 r1 Hs1 Hpc1).
  - exact (output_NoDup fl2 p2 s2 r2 Hs2 Hpc2).
  - intros x.
    rewrite <-(elem_of_list_to_set (C:=gset Result) x r1).
    rewrite <-(elem_of_list_to_set (C:=gset Result) x r2).
    rewrite H1, H2, (yield_perm fl1 p1 p2 Hp).
    assert (task_yield fl1 <$> p2 = task_yield fl2 <$> p2) as ->; [|done].
    apply list_fmap_ext. intros _ def _. by apply task_yield_validate.
Qed.

(** X15: in every state of every run, [resMap] holds no value but
    [true], and without [-fcrdns] the gatherer has made no lookup. *)
Theorem gatherer_state_in_every_run (fl : Flags) (pending : list task) (s : State) :
  reachable fl pending s →
  (∀ k v, resMap (gathered s) !! k = Some v → v = true) ∧
  (flFcrdns fl = false → asked (gathered s) = []).
Proof.
  intros Hs. split.
  - by apply (reachable_all_true fl pending).
  - intros Hplain. by apply (reachable_no_lookups fl pending).
Qed.

(** X16: without [-debug], what the program has written since the pool
    started is, in every state of every run, one progress mark for each
    task that a pool goroutine has taken from [tasks] so far, followed
    once [main] is at [output] by the carriage return and "All tasks
    completed": a failed task leaves no other trace. *)
Theorem progress_marks_count_the_tasks (fl : Flags) (pending : list task) (s : State) :
  flDebug fl = false → reachable fl pending s →
  ∃ marks,
    written s = marks ++ closing (main_pc s) ∧
    Forall is_progress marks ∧
    (length marks + length (buf (tasks s)) + length (pending_of (main_pc s))
     = length pending)%nat.
Proof. intros Hd Hs. by apply (reachable_marks_written fl pending). Qed.
End runs.

Lemma every_run_is_bounded_witness :
  (length sample.schedule
   ≤ 4 * length [sample.ns_task; sample.ns_task] + 2 * concurrency sample.flags + 5)%nat.
Proof.
  apply (@every_run_is_bounded dotted.net sample.no_records sample.flags
           [sample.ns_task; sample.ns_task] sample.schedule sample.final).
  vm_compute. reflexivity.
Defined.

Lemma no_deadlock_witness :
  ((∃ results, main_pc (sample.after_send sample.ns_task) = MainOutput results) ∨
   ∃ a s', @step dotted.net sample.no_records sample.flags a
             (sample.after_send sample.ns_task) = Some s') ∧
  ∃ schedule s' results,
    @run dotted.net sample.no_records sample.flags schedule
      (sample.after_send sample.ns_task) = Some s' ∧
    main_pc s' = MainOutput results.
Proof.
  apply (@no_deadlock dotted.net sample.no_records sample.flags [sample.ns_task]).
  - vm_compute. discriminate.
  - exists [Main]. vm_compute. reflexivity.
Defined.

Lemma no_pool_no_progress_witness :
  (∀ a, @step dotted.net sample.no_records sample.no_pool a
          (initial sample.no_pool (sample.ns_task :: [])) = None) ∧
  (∀ schedule s,
     @run dotted.net sample.no_records sample.no_pool schedule
       (initial sample.no_pool (sample.ns_task :: [])) = Some s → schedule = []).
Proof.
  apply (@no_pool_no_progress dotted.net sample.no_records sample.no_pool sample.ns_task []).
  vm_compute. discriminate.
Defined.

Lemma plain_output_independent_of_schedule_witness : [sample.ns1] ≡ₚ [sample.ns1].
Proof.
  apply (@plain_output_independent_of_schedule dotted.net sample.no_records
           sample.flags sample.one_worker
           [sample.ns_task; sample.ns_task] [sample.ns_task; sample.ns_task]
           sample.final sample.final_one [sample.ns1] [sample.ns1]).
  - reflexivity.
  - reflexivity.
  - reflexivity.
  - reflexivity.
  - exists sample.schedule. vm_compute. reflexivity.
  - vm_compute. reflexivity.
  - exists sample.schedule_one. vm_compute. reflexivity.
  - vm_compute. reflexivity.
Defined.

Lemma gatherer_state_in_every_run_witness :
  (∀ k v, resMap (gathered sample.final) !! k = Some v → v = true) ∧
  (flFcrdns sample.flags = false → asked (gathered sample.final) = []).
Proof.
  apply (@gatherer_state_in_every_run dotted.net sample.no_records sample.flags
           [sample.ns_task; sample.ns_task] sample.final).
  exists sample.schedule. vm_compute. reflexivity.
Defined.

Lemma progress_marks_count_the_tasks_witness :
  ∃ marks,
    written sample.final = marks ++ closing (main_pc sample.final) ∧
    Forall is_progress marks ∧
    (length marks + length (buf (tasks sample.final))
     + length (pending_of (main_pc sample.final))
     = length [sample.ns_task; sample.ns_task])%nat.
Proof.
  apply (@progress_marks_count_the_tasks dotted.net sample.no_records sample.flags
           [sample.ns_task; sample.ns_task] sample.final).
  - reflexivity.
  - exists sample.schedule. vm_compute. reflexivity.
Defined.

Section gatherer.
Context `{!Resolver}.
#[local] Open Scope nat_scope.

(** X17: with [-fcrdns], the gatherer makes between two and four lookups
    for every record of a slice it receives, every one of them at the
    server of [-server], and adds them to the lookups made before. *)
Theorem fcrdns_lookups_per_record (fl : Flags) (result : Results) (g : Gathered) :
  flFcrdns fl = true →
  ∃ qs,
    asked (ingest fl result g).2 = asked g ++ qs ∧
    2 * length result ≤ length qs ≤ 4 * length result ∧
    Forall (λ q, query_server q = flServerAddr fl) qs.
Proof.
  intros Hf. unfold ingest. rewrite Hf. case_bool_decide as Hlen.
  - exists []. destruct result; [|simpl in Hlen; lia].
    simpl. by rewrite app_nil_r.
  - apply for_range_confirm_asks.
Qed.

(** X18: the gatherer only ever adds to [resMap]: after a slice has been
    taken in, every key that was in the map is still there with its value,
    every value is still [true], and the map has grown by at most one
    key for each record of the slice, or two with [-fcrdns]. *)
Theorem resMap_only_grows (fl : Flags) (result : Results) (g : Gathered) :
  all_true g →
  all_true (ingest fl result g).2 ∧
  (∀ k v, resMap g !! k = Some v → resMap (ingest fl result g).2 !! k = Some v) ∧
  size (dom (resMap (ingest fl result g).2))
  ≤ size (dom (resMap g)) + (if flFcrdns fl then 2 else 1) * length result.
Proof.
  intros Hg. destruct (ingest_adds fl result g) as (Htrue & Hkeep & Hsize).
  split; [by apply Htrue|]. split; [by apply Hkeep|done].
Qed.

(** X19: taking in a slice is taking in its records one after the other:
    a slice sent in two parts leaves the gatherer as the whole slice
    sent at once does, the empty slice included. *)
Theorem ingest_of_two_parts (fl : Flags) (a b : Results) (g : Gathered) :
  ingest fl (a ++ b) g = ingest fl b (ingest fl a g).2.
Proof. apply ingest_app. Qed.
End gatherer.

Lemma fcrdns_lookups_per_record_witness :
  ∃ qs,
    asked (@ingest sample.a_records (with_fcrdns true sample.flags)
             [sample.ns1; sample.dns_google] (mkGathered ∅ [])).2 = [] ++ qs ∧
    (2 * length [sample.ns1; sample.dns_google] ≤ length qs
      ≤ 4 * length [sample.ns1; sample.dns_google])%nat ∧
    Forall (λ q, query_server q = flServerAddr (with_fcrdns true sample.flags)) qs.
Proof.
  apply (@fcrdns_lookups_per_record sample.a_records (with_fcrdns true sample.flags)
           [sample.ns1; sample.dns_google] (mkGathered ∅ [])).
  reflexivity.
Defined.

Lemma resMap_only_grows_witness :
  all_true (@ingest sample.a_records sample.flags [sample.ns1; sample.ns1]
              (mkGathered ∅ [])).2 ∧
  (∀ k v, (∅ : gmap Result bool) !! k = Some v →
          resMap (@ingest sample.a_records sample.flags [sample.ns1; sample.ns1]
                    (mkGathered ∅ [])).2 !! k = Some v) ∧
  (size (dom (resMap (@ingest sample.a_records sample.flags [sample.ns1; sample.ns1]
                        (mkGathered ∅ [])).2))
   ≤ size (dom (∅ : gmap Result bool))
     + (if flFcrdns sample.flags then 2 else 1) * length [sample.ns1; sample.ns1])%nat.
Proof.
  apply (@resMap_only_grows sample.a_records sample.flags [sample.ns1; sample.ns1]
           (mkGathered ∅ [])).
  intros k v Hk. simpl in Hk. by rewrite lookup_empty in Hk.
Defined.

(** X20: without [-debug], a pool goroutine writes one progress mark for
    every task it takes, the marks with the backslash and with the slash
    in turn from the backslash on, whether the tasks fail or not; and it
    sends on [res] the slices of the tasks that return no error, in the
    order it took them, and nothing for the others. *)
Theorem pool_goroutine_alternates_marks (fl : Flags) (defs : list task) :
  flDebug fl = false →
  pool_loop fl 0 defs =
    ((λ k, if Nat.even k then mark_back else mark_forward) <$> seq 0%nat (length defs),
     ret_result <$> filter (λ def, ret_err def = None) defs).
Proof. intros Hd. by apply pool_loop_marks. Qed.

Lemma pool_goroutine_alternates_marks_witness :
  pool_loop sample.flags 0 [sample.ns_task; sample.failed_task; sample.empty_task] =
    ((λ k, if Nat.even k then mark_back else mark_forward)
       <$> seq 0%nat (length [sample.ns_task; sample.failed_task; sample.empty_task]),
     ret_result <$> filter (λ def, ret_err def = None)
                      [sample.ns_task; sample.failed_task; sample.empty_task]).
Proof.
  apply (pool_goroutine_alternates_marks sample.flags). reflexivity.
Defined.

Section printing.
Context `{!Printers}.

(** X21: with [-csv] and without [-json], the text that [output] writes
    determines the slice it was given, provided no hostname and no
    address holds a comma and no source holds a line feed: the lines are
    written without quoting, and two such slices with the same text are
    the same slice. *)
Theorem csv_output_determines_results
    (order1 order2 : list string) (l1 l2 : Results) (oclean1 oclean2 : bool) :
  Forall csv_safe l1 → Forall csv_safe l2 →
  output order1 l1 false true oclean1 = output order2 l2 false true oclean2 →
  l1 = l2.
Proof.
  intros H1 H2 Heq. unfold output in Heq. simpl in Heq.
  injection Heq as Heq. by apply csv_lines_inj.
Qed.

(** X22: with [-clean] alone, [output] writes one block for every
    address that occurs in the slice, in the order in which the map
    yields them: the address and a colon, then on a line each, after a
    tab, the hostnames of all the entries with that address, in the
    order of the slice and as often as they occur there; the sources
    are not written. *)
Theorem clean_output_groups_by_address (order : list string) (results : Results) :
  output order results false false true =
    if decide (order ≡ₚ remove_dups (IP <$> results))
    then Some (String.concat ""
                 ((λ k, clean_block k (Hostname <$> filter (λ r, IP r = k) results))
                    <$> order))
    else None.
Proof.
  unfold output. simpl.
  destruct (decide (order ≡ₚ (map_to_list (cleanSet results)).*1)) as [Hp|Hp].
  - rewrite decide_True by (by rewrite Hp, cleanSet_keys).
    f_equal. f_equal. apply Forall_fmap_ext_1, Forall_forall. intros k Hk.
    rewrite cleanSet_lookup.
    rewrite bool_decide_eq_true_2; [done|].
    rewrite Hp, cleanSet_keys, elem_of_remove_dups in Hk. done.
  - rewrite decide_False; [done|]. by rewrite <-cleanSet_keys.
Qed.
End printing.

Lemma csv_output_determines_results_witness : [sample.ns1; sample.dns_google] = [sample.ns1; sample.dns_google].
Proof.
  apply (@csv_output_determines_results sample.no_printers [] []
           [sample.ns1; sample.dns_google] [sample.ns1; sample.dns_google] false false).
  - repeat constructor; vm_compute; set_solver.
  - repeat constructor; vm_compute; set_solver.
  - reflexivity.
Defined.

Section hostnames.
Import grammar.

(** X23: a hostname that [domainReg] matches holds nothing but the
    letters a to z, digits, hyphens and dots, and ends with a letter or
    a digit: a name with a capital letter or an underscore, and a name
    written with its closing dot, are not matched. *)
Theorem domainReg_accepted_shape (hostname : string) :
  regexp.Match domainReg (list_ascii_of_string hostname) = (true, None) →
  (∀ c, c ∈ list_ascii_of_string hostname →
        c = "."%char ∨ c = "-"%char ∨ is_lower_alnum c = true) ∧
  (∃ c, last (list_ascii_of_string hostname) = Some c ∧ is_lower_alnum c = true) ∧
  (∀ h, hostname ≠ (h ++ ".")%string).
Proof.
  rewrite domainReg_decides_grammar. intros [= Hok]. unfold domain_name in Hok.
  destruct (domain_name_last _ Hok) as (c & Hc & Halnum).
  split; [|split].
  - intros d Hd. destruct (domain_name_chars _ d Hok Hd) as [->|Hl]; [by left|].
    right. unfold label_char, is_hyphen in Hl. apply orb_true_iff in Hl as [Hl|Hl].
    + by right.
    + left. by apply bool_decide_eq_true in Hl.
  - by exists c.
  - intros h ->. rewrite list_ascii_of_string_app in Hc.
    change (list_ascii_of_string ".") with ["."%char] in Hc.
    rewrite last_snoc in Hc. injection Hc as <-. by vm_compute in Halnum.
Qed.

Lemma domainReg_accepted_shape_witness :
  (∀ c, c ∈ list_ascii_of_string "sub.example.com" →
        c = "."%char ∨ c = "-"%char ∨ is_lower_alnum c = true) ∧
  (∃ c, last (list_ascii_of_string "sub.example.com") = Some c ∧ is_lower_alnum c = true) ∧
  (∀ h, "sub.example.com"%string ≠ (h ++ ".")%string).
Proof.
  apply (domainReg_accepted_shape "sub.example.com"). vm_compute. reflexivity.
Defined.

(** X24: two hostnames that [domainReg] matches, the second without a
    leading dot, give a hostname that it matches when they are joined by
    a dot. *)
Theorem domainReg_matches_joined_names (a b : string) :
  regexp.Match domainReg (list_ascii_of_string a) = (true, None) →
  regexp.Match domainReg (list_ascii_of_string b) = (true, None) →
  (∀ b', b ≠ String "." b') →
  regexp.Match domainReg (list_ascii_of_string (a ++ "." ++ b)) = (true, None).
Proof.
  rewrite !domainReg_decides_grammar. intros [= Ha] [= Hb] Hdot.
  by rewrite domain_name_join.
Qed.

Lemma domainReg_matches_joined_names_witness :
  regexp.Match domainReg (list_ascii_of_string ("www-1" ++ "." ++ "example.com"))
  = (true, None).
Proof.
  apply (domainReg_matches_joined_names "www-1" "example.com").
  - vm_compute. reflexivity.
  - vm_compute. reflexivity.
  - intros b'. discriminate.
Defined.
End hostnames.

